(** * Video Comparator: frame pairing, difference raster, viewport transform

    A shallow embedding of [video_comparator.py]: the [VideoComparator]
    store, the difference raster computed in [get_frame_triplet], the
    hover mapping of [ImageViewer._emit_pixel] and the viewport code of
    [VideoComparatorApp] ([_zoom_in1], zoom, pan, rotation, fit to screen);
    further the two loaders, the mouse and wheel handlers of [ImageViewer],
    the diff toggle and the swap.

    Conventions of the embedding:
    - Python integers are [Z]; [//] on integers is [Z.div] (floor).
    - An [ndarray] of shape (h, w, 3) and dtype uint8 is a record holding
      the shape and the rows of pixels.
    - The float32 arithmetic of the difference raster is IEEE binary32,
      through the parameterised [SpecFloat] operations (prec 24, emax 128):
      what is stated about that raster is the 8-bit value left after the
      conversion, which depends on the rounding of each operation.
    - A float64 value is the rational it denotes, in [Q]. Every float64
      operation that can round ([+], [-], [*], [/] with a float operand, the
      true division of two ints, a decimal literal) is the exact operation
      followed by [F64.round], rounding to 53 significant bits, to nearest
      with ties to even. Comparisons, [min], [max], [np.clip], negation,
      the floor division and [int()] are exact on the values they are
      given. The exponent range of float64 is not modelled: the sizes of
      widgets and rasters are C ints of the toolkit, which convert to
      float64 exactly, and the zoom stays far from either end of the range.
    - A Python exception is a [Raise]; the state reached when it is raised
      is kept, as the mutations made before it persist.
    - The scratch array carries an identity: [np.zeros] makes a new object,
      a write through [a[...] = v] keeps the object.
    - [cv2.resize] is a parameter of the development; the resampling itself
      is the decode backend's.
    - A capture is the list of the frames its [read] calls yield before the
      first failure; a folder is its listing, with the suffix test and
      [cv2.imread] as parameters. Filenames are strings of bytes (UTF-8),
      whose bytewise order is the order of the code points Python sorts by.
    - A signal emitted by the viewer is appended to the list of the signals
      emitted so far. *)

From Stdlib Require Import ZArith QArith Qround Qminmax Qpower Lia Lqa Bool.
From Stdlib Require Import Floats.SpecFloat.
From Stdlib Require Import Sorted Permutation.
From stdpp Require Import base list strings sorting.

Close Scope Q_scope.
Local Open Scope Z_scope.

(** ** Exceptions and outcomes *)

Inductive exn : Type :=
| ZeroDivisionError
| ValueError
| IndexError
| TypeError
| Cv2Error.

(** Result of a call that mutates no object. *)
Inductive result (A : Type) : Type :=
| Ok (a : A)
| Raise (e : exn).
Arguments Ok {A} a.
Arguments Raise {A} e.

(** Outcome of a method call on an object of state [S]. *)
Inductive outcome (S A : Type) : Type :=
| Done (a : A) (s : S)
| Fail (e : exn) (s : S).
Arguments Done {S A} a s.
Arguments Fail {S A} e s.

Definition M (S A : Type) : Type := S -> outcome S A.

Definition ret {S A} (a : A) : M S A := fun s => Done a s.

Definition bind {S A B} (m : M S A) (k : A -> M S B) : M S B :=
  fun s => match m s with
           | Done a s1 => k a s1
           | Fail e s1 => Fail e s1
           end.

Definition raise {S A} (e : exn) : M S A := fun s => Fail e s.

Definition get {S} : M S S := fun s => Done s s.

Definition modify {S} (f : S -> S) : M S unit := fun s => Done tt (f s).

Definition lift {S A} (r : result A) : M S A :=
  fun s => match r with
           | Ok a => Done a s
           | Raise e => Fail e s
           end.

Definition final_state {S A} (o : outcome S A) : S :=
  match o with
  | Done _ s => s
  | Fail _ s => s
  end.

Definition returned {S A} (o : outcome S A) : option A :=
  match o with
  | Done a _ => Some a
  | Fail _ _ => None
  end.

Declare Scope py_scope.
Delimit Scope py_scope with py.
Notation "x <- c1 ;; c2" := (bind c1 (fun x => c2))
  (at level 100, c1 at next level, right associativity) : py_scope.
Notation "c1 ;;; c2" := (bind c1 (fun _ => c2))
  (at level 100, right associativity) : py_scope.

(** ** IEEE binary32, as numpy's float32 *)

Module F32.
Definition prec : Z := 24.
Definition emax : Z := 128.

Definition of_Z (n : Z) : spec_float := binary_normalize prec emax n 0 false.
Definition div : spec_float -> spec_float -> spec_float := SFdiv prec emax.
Definition mul : spec_float -> spec_float -> spec_float := SFmul prec emax.
Definition sub : spec_float -> spec_float -> spec_float := SFsub prec emax.

(** [np.maximum] and [np.minimum]: a NaN operand gives NaN. *)
Definition maximum (a b : spec_float) : spec_float :=
  match SFcompare a b with
  | None => S754_nan
  | Some Lt => b
  | Some _ => a
  end.

Definition minimum (a b : spec_float) : spec_float :=
  match SFcompare a b with
  | None => S754_nan
  | Some Gt => b
  | Some _ => a
  end.

(** [np.clip(x, lo, hi)] is [minimum(maximum(x, lo), hi)]. *)
Definition clip (x lo hi : spec_float) : spec_float :=
  minimum (maximum x lo) hi.

(** Conversion to an integer drops the fraction (towards zero). *)
Definition trunc (x : spec_float) : Z :=
  match x with
  | S754_finite s m e =>
      let a := match e with
               | Zneg p => Z.shiftr (Zpos m) (Zpos p)
               | _ => Z.shiftl (Zpos m) e
               end in
      if s then - a else a
  | _ => 0
  end.

(** [.astype(np.uint8)] *)
Definition astype_uint8 (x : spec_float) : Z := trunc x mod 256.
End F32.

(** ** IEEE binary64 values as rationals

    [round q] is the float64 nearest to [q]: the rational with a
    significand of 53 bits, ties to the even significand. *)

Module F64.
Definition prec : Z := 53.

(** [floor (log2 q)], for [0 < q] *)
Definition ilog2 (q : Q) : Z :=
  let k := Z.log2 (Qnum q) - Z.log2 (Zpos (Qden q)) in
  if Qle_bool (2 ^ k) q then k else k - 1.

(** To the nearest integer, ties to even. *)
Definition rne (t : Q) : Z :=
  let f := Qfloor t in
  match (t - inject_Z f ?= 1 # 2)%Q with
  | Lt => f
  | Gt => f + 1
  | Eq => if Z.even f then f else f + 1
  end.

(** The significand of [q] is [q / 2 ^ e], between [2 ^ 52] and [2 ^ 53]. *)
Definition round_pos (q : Q) : Q :=
  let e := ilog2 q - (prec - 1) in
  (inject_Z (rne (q / 2 ^ e)) * 2 ^ e)%Q.

Definition round (q : Q) : Q :=
  match (q ?= 0)%Q with
  | Eq => 0%Q
  | Gt => round_pos q
  | Lt => (- round_pos (- q))%Q
  end.
End F64.

(** ** Rasters *)

Definition pixel : Type := Z * Z * Z.

Definition black : pixel := (0, 0, 0).

(** An array of shape [(nd_h, nd_w, 3)]. *)
Record ndarray : Type := NdArray {
  nd_h : Z;
  nd_w : Z;
  nd_px : list (list pixel)
}.

(** The shape agrees with the stored rows. *)
Definition nd_wf (a : ndarray) : Prop :=
  0 <= nd_w a /\
  Z.of_nat (length (nd_px a)) = nd_h a /\
  Forall (fun row => Z.of_nat (length row) = nd_w a) (nd_px a).

Definition shape2 (a : ndarray) : Z * Z := (nd_h a, nd_w a).

Definition shape2_eqb (s t : Z * Z) : bool :=
  (fst s =? fst t) && (snd s =? snd t).

(** [a[y, x]] for [0 <= y], [0 <= x]. *)
Definition nd_get (a : ndarray) (y x : Z) : option pixel :=
  row ← nd_px a !! Z.to_nat y; row !! Z.to_nat x.

(** ** Difference raster (get_frame_triplet, the lines after the resize) *)

(** One element of [cv2.absdiff] on uint8 data. *)
Definition absdiff (a b : Z) : Z := Z.abs (a - b).

(** The magnitude [mag] of one pixel, a float32 in [0, 1]. *)
Definition mag_of (m : Z) : spec_float :=
  F32.clip (F32.div (F32.of_Z m) (F32.of_Z 255)) (F32.of_Z 0) (F32.of_Z 1).

(** The Chebyshev distance [np.max(diff_uint, axis=2)] of one pixel pair. *)
Definition chebyshev (p q : pixel) : Z :=
  let '(r1, g1, b1) := p in
  let '(r2, g2, b2) := q in
  Z.max (Z.max (absdiff r1 r2) (absdiff g1 g2)) (absdiff b1 b2).

Definition red_of (m : Z) : Z :=
  F32.astype_uint8 (F32.mul (mag_of m) (F32.of_Z 255)).

Definition blue_of (m : Z) : Z :=
  F32.astype_uint8 (F32.mul (F32.sub (F32.of_Z 1) (mag_of m)) (F32.of_Z 255)).

Definition diff_pixel (p q : pixel) : pixel :=
  let m := chebyshev p q in (red_of m, 0, blue_of m).

(** [diff_rgb]: [cv2.absdiff] refuses operands of different shapes. *)
Definition diff_rgb (ref comp : ndarray) : result ndarray :=
  if shape2_eqb (shape2 ref) (shape2 comp) then
    Ok {| nd_h := nd_h ref;
          nd_w := nd_w ref;
          nd_px := zip_with (zip_with diff_pixel) (nd_px ref) (nd_px comp) |}
  else Raise Cv2Error.

(** Monadic notation for [result]. *)
Definition rbind {A B} (r : result A) (k : A -> result B) : result B :=
  match r with
  | Ok a => k a
  | Raise e => Raise e
  end.

Declare Scope res_scope.
Delimit Scope res_scope with res.
Notation "x <- c1 ;; c2" := (rbind c1 (fun x => c2))
  (at level 100, c1 at next level, right associativity) : res_scope.

(** ** Python and numpy indexing *)

(** [l[i]]: a negative index counts from the end. *)
Definition py_index {A} (l : list A) (i : Z) : result A :=
  let n := Z.of_nat (length l) in
  let j := if i <? 0 then i + n else i in
  if (j <? 0) || (n <=? j) then Raise IndexError
  else match l !! Z.to_nat j with
       | Some a => Ok a
       | None => Raise IndexError
       end.

(** [a[y, x]], checked against the shape of [a]. *)
Definition nd_index (a : ndarray) (y x : Z) : result pixel :=
  let y' := if y <? 0 then y + nd_h a else y in
  let x' := if x <? 0 then x + nd_w a else x in
  if (y' <? 0) || (nd_h a <=? y') || (x' <? 0) || (nd_w a <=? x')
  then Raise IndexError
  else match nd_get a y' x' with
       | Some p => Ok p
       | None => Raise IndexError
       end.

(** Bounds of the slice [start:stop] of a sequence of length [n]. *)
Definition slice_norm (n i : Z) : Z :=
  if i <? 0 then Z.max 0 (i + n) else Z.min i n.

Definition slice_bounds (n start stop : Z) : Z * Z :=
  let a := slice_norm n start in
  let b := slice_norm n stop in
  (a, Z.max a b).

(** [l[start:stop]] *)
Definition py_slice {A} (l : list A) (start stop : Z) : list A :=
  let '(a, b) := slice_bounds (Z.of_nat (length l)) start stop in
  take (Z.to_nat (b - a)) (drop (Z.to_nat a) l).

(** [a[r0:r1, c0:c1]] *)
Definition nd_slice (a : ndarray) (r0 r1 c0 c1 : Z) : ndarray :=
  let '(ra, rb) := slice_bounds (nd_h a) r0 r1 in
  let '(ca, cb) := slice_bounds (nd_w a) c0 c1 in
  {| nd_h := rb - ra;
     nd_w := cb - ca;
     nd_px := (fun row => py_slice row c0 c1) <$> py_slice (nd_px a) r0 r1 |}.

(** Broadcasting of [n_src] items to [n_dst]: equal extents, or a source
    of extent one that is repeated. *)
Definition broadcast {A} (n_dst : Z) (src : list A) : result (list A) :=
  if Z.of_nat (length src) =? n_dst then Ok src
  else match src with
       | [x] => Ok (replicate (Z.to_nat n_dst) x)
       | _ => Raise ValueError
       end.

(** [row[c0:c1] = src_row], the extents already matched. *)
Definition paste_row (ca cb : Z) (row src_row : list pixel) : list pixel :=
  take (Z.to_nat ca) row ++ src_row ++ drop (Z.to_nat cb) row.

(** Every row of the source broadcast to the extent [n]. *)
Fixpoint broadcast_rows (n : Z) (rows : list (list pixel))
  : result (list (list pixel)) :=
  match rows with
  | [] => Ok []
  | r :: rest =>
      (r' <- broadcast n r ;;
       rest' <- broadcast_rows n rest ;;
       Ok (r' :: rest'))%res
  end.

(** [a[r0:r1, c0:c1] = src] *)
Definition nd_set_slice (a : ndarray) (r0 r1 c0 c1 : Z) (src : ndarray)
  : result ndarray :=
  let '(ra, rb) := slice_bounds (nd_h a) r0 r1 in
  let '(ca, cb) := slice_bounds (nd_w a) c0 c1 in
  if ((nd_h src =? rb - ra) || (nd_h src =? 1)) &&
     ((nd_w src =? cb - ca) || (nd_w src =? 1)) then
    (src_rows <- broadcast (rb - ra) (nd_px src) ;;
     src_rows' <- broadcast_rows (cb - ca) src_rows ;;
     Ok {| nd_h := nd_h a;
           nd_w := nd_w a;
           nd_px := take (Z.to_nat ra) (nd_px a)
                    ++ zip_with (paste_row ca cb)
                         (take (Z.to_nat (rb - ra)) (drop (Z.to_nat ra) (nd_px a)))
                         src_rows'
                    ++ drop (Z.to_nat rb) (nd_px a) |})%res
  else Raise ValueError.

(** [np.zeros((h, w, 3))]: a negative extent is refused. *)
Definition np_zeros (h w : Z) : result ndarray :=
  if (h <? 0) || (w <? 0) then Raise ValueError
  else Ok {| nd_h := h;
             nd_w := w;
             nd_px := replicate (Z.to_nat h) (replicate (Z.to_nat w) black) |}.

(** [a[:] = 0] *)
Definition zero_fill (a : ndarray) : ndarray :=
  {| nd_h := nd_h a;
     nd_w := nd_w a;
     nd_px := (fun row : list pixel => (fun _ : pixel => black) <$> row) <$> nd_px a |}.

(** [np.clip(x, min=lo, max=hi)] on integers: [minimum(maximum(x, lo), hi)]. *)
Definition np_clip (x lo hi : Z) : Z := Z.min (Z.max x lo) hi.

(** ** cv2.rotate: exact pixel permutations *)

Definition column (a : ndarray) (j : nat) : list pixel :=
  (fun row => default black (row !! j)) <$> nd_px a.

Definition columns (a : ndarray) : list (list pixel) :=
  column a <$> seq 0 (Z.to_nat (nd_w a)).

Definition rotate_90_clockwise (a : ndarray) : ndarray :=
  {| nd_h := nd_w a; nd_w := nd_h a; nd_px := reverse <$> columns a |}.

Definition rotate_180 (a : ndarray) : ndarray :=
  {| nd_h := nd_h a; nd_w := nd_w a; nd_px := reverse (reverse <$> nd_px a) |}.

Definition rotate_90_counterclockwise (a : ndarray) : ndarray :=
  {| nd_h := nd_w a; nd_w := nd_h a; nd_px := reverse (columns a) |}.

(** ** VideoComparator *)

Inductive interpolation : Type := INTER_LINEAR | INTER_NEAREST.

(** The dictionary returned by the loaders. *)
Record info : Type := {
  frames : list ndarray;
  width : Z;
  height : Z;
  count : Z
}.

Record VideoComparator : Type := {
  ref_frames : list ndarray;
  comp_frames : list ndarray;
  ref_info : option info;
  comp_info : option info;
  current_frame_idx : Z
}.

(** [VideoComparator.__init__] *)
Definition VideoComparator_init : VideoComparator :=
  {| ref_frames := []; comp_frames := [];
     ref_info := None; comp_info := None;
     current_frame_idx := 0 |}.

Definition set_ref (i : info) : M VideoComparator unit :=
  modify (fun vc =>
    {| ref_frames := frames i;
       comp_frames := comp_frames vc;
       ref_info := Some i;
       comp_info := comp_info vc;
       current_frame_idx := current_frame_idx vc |}).

Definition set_comp (i : info) : M VideoComparator unit :=
  modify (fun vc =>
    {| ref_frames := ref_frames vc;
       comp_frames := frames i;
       ref_info := ref_info vc;
       comp_info := Some i;
       current_frame_idx := current_frame_idx vc |}).

Definition is_empty {A} (l : list A) : bool :=
  match l with [] => true | _ => false end.

Definition frame_count (vc : VideoComparator) : Z :=
  if is_empty (ref_frames vc) || is_empty (comp_frames vc) then 0
  else Z.min (Z.of_nat (length (ref_frames vc))) (Z.of_nat (length (comp_frames vc))).

Definition set_current_frame_idx (idx : Z) (vc : VideoComparator) : VideoComparator :=
  {| ref_frames := ref_frames vc;
     comp_frames := comp_frames vc;
     ref_info := ref_info vc;
     comp_info := comp_info vc;
     current_frame_idx := idx |}.

(** A pixel read by [get_pixel_info]. *)
Record pixel_info : Type := {
  pi_x : Z;
  pi_y : Z;
  img1 : pixel;
  img2 : pixel
}.

Section Comparator.

(** [cv2.resize(src, (w, h), interpolation)], the decode backend's
    resampler; it may refuse its operands. *)
Variable cv2_resize : ndarray -> Z -> Z -> interpolation -> result ndarray.

(** The comparison frame at the reference's resolution: resized only when
    its shape differs from [(ref_info["height"], ref_info["width"])]. *)
Definition comp_resized (vc : VideoComparator) (comp_raw : ndarray)
  : result ndarray :=
  match ref_info vc with
  | None => Raise TypeError
  | Some ri =>
      if negb (shape2_eqb (shape2 comp_raw) (height ri, width ri)) then
        cv2_resize comp_raw (width ri) (height ri) INTER_LINEAR
      else Ok comp_raw
  end.

Definition get_frame_triplet (idx : Z) (compute_diff : bool)
  : M VideoComparator (option ndarray * option ndarray * option ndarray) :=
  (vc <- get ;;
   if frame_count vc =? 0 then ret (None, None, None)
   else
     let idx := Z.max 0 (Z.min (frame_count vc - 1) idx) in
     modify (set_current_frame_idx idx) ;;;
     ref <- lift (py_index (ref_frames vc) idx) ;;
     comp_raw <- lift (py_index (comp_frames vc) idx) ;;
     comp <- lift (comp_resized vc comp_raw) ;;
     if negb compute_diff then ret (Some ref, Some comp, None)
     else
       d <- lift (diff_rgb ref comp) ;;
       ret (Some ref, Some comp, Some d))%py.

Definition get_pixel_info (vc : VideoComparator) (x y : Z)
  : result (option pixel_info) :=
  match ref_info vc with
  | None => Ok None
  | Some ri =>
      if negb ((0 <=? x) && (x <? width ri) && (0 <=? y) && (y <? height ri))
      then Ok None
      else
        (ref <- py_index (ref_frames vc) (current_frame_idx vc) ;;
         comp_raw <- py_index (comp_frames vc) (current_frame_idx vc) ;;
         comp <- comp_resized vc comp_raw ;;
         p1 <- nd_index ref y x ;;
         p2 <- nd_index comp y x ;;
         Ok (Some {| pi_x := x; pi_y := y; img1 := p1; img2 := p2 |}))%res
  end.

End Comparator.

(** ** Python float arithmetic on the rationals that floats denote *)

Definition Qltb (a b : Q) : bool := negb (Qle_bool b a).

(** [a + b], [a - b], [a * b] with a float operand, and [a / b] by a
    constant that is not zero *)
Definition fadd (a b : Q) : Q := F64.round (a + b).
Definition fsub (a b : Q) : Q := F64.round (a - b).
Definition fmul (a b : Q) : Q := F64.round (a * b).
Definition fdiv (a b : Q) : Q := F64.round (a / b).

(** [a / b] on ints or floats: the quotient, rounded *)
Definition truediv (a b : Q) : result Q :=
  if Qeq_bool b 0 then Raise ZeroDivisionError else Ok (fdiv a b).

(** A decimal literal of the source, such as [0.1] *)
Definition literal (q : Q) : Q := F64.round q.

(** [a // b] with a float operand: the floor of the quotient *)
Definition floordiv (a b : Q) : result Z :=
  if Qeq_bool b 0 then Raise ZeroDivisionError else Ok (Qfloor (a / b)).

(** The builtins [min(a, b)] and [max(a, b)]: the first argument is kept
    unless the second is strictly smaller (larger). *)
Definition py_min (a b : Q) : Q := if Qltb b a then b else a.
Definition py_max (a b : Q) : Q := if Qltb a b then b else a.

(** [int(x)]: towards zero *)
Definition py_int (x : Q) : Z :=
  if Qltb x 0 then - Qfloor (- x) else Qfloor x.

(** [np.clip(x, min=lo, max=hi)] on floats *)
Definition np_clipq (x lo hi : Q) : Q :=
  let y := if Qltb x lo then lo else x in
  if Qltb hi y then hi else y.

(** ** ImageViewer *)

(** What [_emit_pixel] reads of the widget: the size of the shown pixmap,
    if any, and the size of the label. *)
Record ImageViewer : Type := {
  pixmap : option (Z * Z);
  lbl_w : Z;
  lbl_h : Z
}.

(** [_emit_pixel(pos)]: the arguments of the [pixel_hovered] signal when it
    is emitted, [None] when the handler returns without emitting. *)
Definition _emit_pixel (v : ImageViewer) (pos : Z * Z) : result (option (Z * Z)) :=
  match pixmap v with
  | None => Ok None
  | Some (img_w, img_h) =>
      if (img_w =? 0) || (img_h =? 0) then Ok None
      else
        (sx <- truediv (inject_Z (lbl_w v)) (inject_Z img_w) ;;
         sy <- truediv (inject_Z (lbl_h v)) (inject_Z img_h) ;;
         let scale := py_min sx sy in
         let disp_w := fmul (inject_Z img_w) scale in
         let disp_h := fmul (inject_Z img_h) scale in
         let offset_x := fdiv (fsub (inject_Z (lbl_w v)) disp_w) 2 in
         let offset_y := fdiv (fsub (inject_Z (lbl_h v)) disp_h) 2 in
         x <- truediv (fsub (inject_Z (fst pos)) offset_x) scale ;;
         y <- truediv (fsub (inject_Z (snd pos)) offset_y) scale ;;
         if Qle_bool 0 x && Qltb x (inject_Z img_w) &&
            Qle_bool 0 y && Qltb y (inject_Z img_h)
         then Ok (Some (py_int x, py_int y))
         else Ok None)%res
  end.

(** ** VideoComparatorApp *)

(** The scratch array with its identity: [np.zeros] makes a new object. *)
Record buffer_obj : Type := {
  obj_id : nat;
  obj_data : ndarray
}.

Record App : Type := {
  comparator : VideoComparator;
  zoom : Q;
  pan_x : Z;
  pan_y : Z;
  rotation_angle : Z;
  diff_visible : bool;
  _zoom_buffer : option buffer_obj;
  _zoom_buffer_shape : option (Z * Z * Z);
  (** number of scratch arrays made so far, the next object identity *)
  allocations : nat;
  (** [left_view.height()], [left_view.width()] *)
  left_view_height : Z;
  left_view_width : Z;
  (** [frame_slider.value()] *)
  frame_slider_value : Z;
  (** rasters last handed to the three labels by [_set_pixmap] *)
  left_pixmap : option ndarray;
  mid_pixmap : option ndarray;
  right_pixmap : option ndarray
}.

Definition set_comparator (vc : VideoComparator) (s : App) : App :=
  {| comparator := vc; zoom := zoom s; pan_x := pan_x s; pan_y := pan_y s;
     rotation_angle := rotation_angle s; diff_visible := diff_visible s;
     _zoom_buffer := _zoom_buffer s; _zoom_buffer_shape := _zoom_buffer_shape s;
     allocations := allocations s;
     left_view_height := left_view_height s; left_view_width := left_view_width s;
     frame_slider_value := frame_slider_value s;
     left_pixmap := left_pixmap s; mid_pixmap := mid_pixmap s;
     right_pixmap := right_pixmap s |}.

Definition set_zoom (z : Q) (s : App) : App :=
  {| comparator := comparator s; zoom := z; pan_x := pan_x s; pan_y := pan_y s;
     rotation_angle := rotation_angle s; diff_visible := diff_visible s;
     _zoom_buffer := _zoom_buffer s; _zoom_buffer_shape := _zoom_buffer_shape s;
     allocations := allocations s;
     left_view_height := left_view_height s; left_view_width := left_view_width s;
     frame_slider_value := frame_slider_value s;
     left_pixmap := left_pixmap s; mid_pixmap := mid_pixmap s;
     right_pixmap := right_pixmap s |}.

Definition set_pan (px py : Z) (s : App) : App :=
  {| comparator := comparator s; zoom := zoom s; pan_x := px; pan_y := py;
     rotation_angle := rotation_angle s; diff_visible := diff_visible s;
     _zoom_buffer := _zoom_buffer s; _zoom_buffer_shape := _zoom_buffer_shape s;
     allocations := allocations s;
     left_view_height := left_view_height s; left_view_width := left_view_width s;
     frame_slider_value := frame_slider_value s;
     left_pixmap := left_pixmap s; mid_pixmap := mid_pixmap s;
     right_pixmap := right_pixmap s |}.

Definition set_rotation_angle (a : Z) (s : App) : App :=
  {| comparator := comparator s; zoom := zoom s; pan_x := pan_x s; pan_y := pan_y s;
     rotation_angle := a; diff_visible := diff_visible s;
     _zoom_buffer := _zoom_buffer s; _zoom_buffer_shape := _zoom_buffer_shape s;
     allocations := allocations s;
     left_view_height := left_view_height s; left_view_width := left_view_width s;
     frame_slider_value := frame_slider_value s;
     left_pixmap := left_pixmap s; mid_pixmap := mid_pixmap s;
     right_pixmap := right_pixmap s |}.

(** A new scratch array replaces the old one. *)
Definition set_new_zoom_buffer (a : ndarray) (shape : Z * Z * Z) (s : App) : App :=
  {| comparator := comparator s; zoom := zoom s; pan_x := pan_x s; pan_y := pan_y s;
     rotation_angle := rotation_angle s; diff_visible := diff_visible s;
     _zoom_buffer := Some {| obj_id := allocations s; obj_data := a |};
     _zoom_buffer_shape := Some shape;
     allocations := S (allocations s);
     left_view_height := left_view_height s; left_view_width := left_view_width s;
     frame_slider_value := frame_slider_value s;
     left_pixmap := left_pixmap s; mid_pixmap := mid_pixmap s;
     right_pixmap := right_pixmap s |}.

(** The scratch array is written in place: same object, new contents. *)
Definition set_zoom_buffer_data (b : buffer_obj) (a : ndarray) (s : App) : App :=
  {| comparator := comparator s; zoom := zoom s; pan_x := pan_x s; pan_y := pan_y s;
     rotation_angle := rotation_angle s; diff_visible := diff_visible s;
     _zoom_buffer := Some {| obj_id := obj_id b; obj_data := a |};
     _zoom_buffer_shape := _zoom_buffer_shape s;
     allocations := allocations s;
     left_view_height := left_view_height s; left_view_width := left_view_width s;
     frame_slider_value := frame_slider_value s;
     left_pixmap := left_pixmap s; mid_pixmap := mid_pixmap s;
     right_pixmap := right_pixmap s |}.

Inductive view : Type := left_view | mid_view | right_view.

(** [_set_pixmap(label, img_np)]: the raster goes to the label; fitting it
    to the label is the toolkit's work. *)
Definition _set_pixmap (label : view) (img_np : ndarray) : M App unit :=
  modify (fun s =>
    {| comparator := comparator s; zoom := zoom s; pan_x := pan_x s; pan_y := pan_y s;
       rotation_angle := rotation_angle s; diff_visible := diff_visible s;
       _zoom_buffer := _zoom_buffer s; _zoom_buffer_shape := _zoom_buffer_shape s;
       allocations := allocations s;
       left_view_height := left_view_height s; left_view_width := left_view_width s;
       frame_slider_value := frame_slider_value s;
       left_pixmap := match label with left_view => Some img_np | _ => left_pixmap s end;
       mid_pixmap := match label with mid_view => Some img_np | _ => mid_pixmap s end;
       right_pixmap := match label with right_view => Some img_np | _ => right_pixmap s end |}).

(** A call on [self.comparator]. *)
Definition on_comparator {A} (m : M VideoComparator A) : M App A :=
  fun s => match m (comparator s) with
           | Done a vc => Done a (set_comparator vc s)
           | Fail e vc => Fail e (set_comparator vc s)
           end.

Definition shape3_eqb (s t : Z * Z * Z) : bool :=
  let '(a, b, c) := s in
  let '(a', b', c') := t in
  (a =? a') && (b =? b') && (c =? c').

(** [self._zoom_buffer_shape != target_shape]; the attribute starts as [None]. *)
Definition shape_differs (cur : option (Z * Z * Z)) (target : Z * Z * Z) : bool :=
  match cur with
  | None => true
  | Some c => negb (shape3_eqb c target)
  end.

(** [int(out // self.zoom // 2) * 2] *)
Definition crop_extent (out : Z) (z : Q) : result Z :=
  (q <- floordiv (inject_Z out) z ;; Ok (q / 2 * 2))%res.

(** The property [zoom_delta] of the application. *)
Definition zoom_delta (s : App) : Q :=
  np_clipq (fdiv (zoom s) 10) (literal (1 # 10)) (literal (4 # 10)).

Section Application.

Variable cv2_resize : ndarray -> Z -> Z -> interpolation -> result ndarray.

Definition _zoom_in1 (img : ndarray) : M App ndarray :=
  (s <- get ;;
   let out_h := left_view_height s in
   let out_w := left_view_width s in
   crop_h <- lift (crop_extent out_h (zoom s)) ;;
   crop_w <- lift (crop_extent out_w (zoom s)) ;;
   let target_shape := (crop_h, crop_w, 3) in
   (* Check if we need to reallocate *)
   (if shape_differs (_zoom_buffer_shape s) target_shape then
      fresh <- lift (np_zeros crop_h crop_w) ;;
      modify (set_new_zoom_buffer fresh target_shape)
    else
      (* Reuse existing buffer, just clear it *)
      match _zoom_buffer s with
      | None => raise TypeError
      | Some b => modify (set_zoom_buffer_data b (zero_fill (obj_data b)))
      end) ;;;
   let h := nd_h img in
   let w := nd_w img in
   let img_h_c := h / 2 in
   let img_w_c := w / 2 in
   (* Pan the center *)
   let clamped_h := np_clip (pan_y s) (- img_h_c + crop_h / 2) (img_h_c - crop_h / 2) in
   let clamped_w := np_clip (pan_x s) (- img_w_c + crop_w / 2) (img_w_c - crop_w / 2) in
   modify (set_pan clamped_w clamped_h) ;;;
   let img_h_c := img_h_c + clamped_h in
   let img_w_c := img_w_c + clamped_w in
   (* crop and paste *)
   let crop_h_start := Z.max 0 (img_h_c - crop_h / 2) in
   let crop_w_start := Z.max 0 (img_w_c - crop_w / 2) in
   let crop_h_end := img_h_c + crop_h / 2 in
   let crop_w_end := img_w_c + crop_w / 2 in
   let crop_h_actual := crop_h_end - crop_h_start in
   let crop_w_actual := crop_w_end - crop_w_start in
   let crop := nd_slice img crop_h_start crop_h_end crop_w_start crop_w_end in
   s1 <- get ;;
   match _zoom_buffer s1 with
   | None => raise TypeError
   | Some out_img =>
       filled <- lift (nd_set_slice (obj_data out_img)
                         (crop_h / 2 - crop_h_actual / 2)
                         (crop_h / 2 + crop_h_actual / 2)
                         (crop_w / 2 - crop_w_actual / 2)
                         (crop_w / 2 + crop_w_actual / 2)
                         crop) ;;
       modify (set_zoom_buffer_data out_img filled) ;;;
       resized <- lift (cv2_resize filled out_w out_h INTER_NEAREST) ;;
       (* np.ascontiguousarray keeps the values *)
       ret resized
   end)%py.

Definition _apply_view_transform (img : ndarray) : M App ndarray :=
  (s <- get ;;
   let img :=
     if rotation_angle s =? 90 then rotate_90_clockwise img
     else if rotation_angle s =? 180 then rotate_180 img
     else if rotation_angle s =? 270 then rotate_90_counterclockwise img
     else img in
   _zoom_in1 img)%py.

Definition _display_triplet (ref comp : ndarray) (diff : option ndarray)
  : M App unit :=
  (ref_t <- _apply_view_transform ref ;;
   comp_t <- _apply_view_transform comp ;;
   _set_pixmap left_view ref_t ;;;
   _set_pixmap mid_view comp_t ;;;
   s <- get ;;
   match diff with
   | Some d =>
       if diff_visible s then
         diff_t <- _apply_view_transform d ;;
         _set_pixmap right_view diff_t
       else ret tt
   | None => ret tt
   end)%py.

Definition on_frame_changed (idx : Z) : M App unit :=
  (s <- get ;;
   let compute_diff := diff_visible s in
   t <- on_comparator (get_frame_triplet cv2_resize idx compute_diff) ;;
   match t with
   | (Some ref, Some comp, diff) => _display_triplet ref comp diff
   | _ => ret tt
   end)%py.

Definition on_zoom_requested (delta : Q) : M App unit :=
  (s <- get ;;
   let delta := if Qltb 0 delta then zoom_delta s else (- zoom_delta s)%Q in
   modify (set_zoom (py_max (literal (1 # 10)) (py_min 8 (fadd (zoom s) delta)))) ;;;
   on_frame_changed (frame_slider_value s))%py.

Definition on_pan_requested (dx dy : Z) : M App unit :=
  (s <- get ;;
   modify (set_pan (pan_x s + dx) (pan_y s + dy)) ;;;
   on_frame_changed (frame_slider_value s))%py.

Definition _reset_pan_and_refresh : M App unit :=
  (s <- get ;;
   modify (set_pan 0 0) ;;;
   on_frame_changed (frame_slider_value s))%py.

Definition rotate_left : M App unit :=
  (s <- get ;;
   modify (set_rotation_angle ((rotation_angle s - 90) mod 360)) ;;;
   _reset_pan_and_refresh)%py.

Definition rotate_right : M App unit :=
  (s <- get ;;
   modify (set_rotation_angle ((rotation_angle s + 90) mod 360)) ;;;
   _reset_pan_and_refresh)%py.

Definition reset_rotation : M App unit :=
  (modify (set_rotation_angle 0) ;;;
   _reset_pan_and_refresh)%py.

Definition fit_to_screen : M App unit :=
  (s <- get ;;
   match ref_info (comparator s) with
   | None => ret tt
   | Some ri =>
       let out_h := left_view_height s in
       let out_w := left_view_width s in
       let '(out_h, out_w) :=
         if (rotation_angle s =? 90) || (rotation_angle s =? 270)
         then (out_w, out_h) else (out_h, out_w) in
       zw <- lift (truediv (inject_Z out_w) (inject_Z (width ri))) ;;
       zh <- lift (truediv (inject_Z out_h) (inject_Z (height ri))) ;;
       modify (set_zoom (py_min zw zh)) ;;;
       modify (set_pan 0 0) ;;;
       on_frame_changed (frame_slider_value s)
   end)%py.

End Application.

(** ** The difference raster as the specification words it

    Magnitude: the largest channel difference divided by 255, clamped to
    [0, 1]; red is [round(mag * 255)], green 0, blue [round((1 - mag) * 255)].
    Exact rational arithmetic, rounding to the nearest integer. *)

Definition round_nearest (x : Q) : Z := Qfloor (x + (1 # 2))%Q.

Definition spec_mag (p q : pixel) : Q :=
  np_clipq (inject_Z (chebyshev p q) / 255)%Q 0%Q 1%Q.

Definition spec_diff_pixel (p q : pixel) : pixel :=
  let mag := spec_mag p q in
  (round_nearest (mag * 255)%Q, 0, round_nearest ((1 - mag) * 255)%Q).

(** A channel value of an 8-bit raster. *)
Definition uint8 (v : Z) : Prop := 0 <= v <= 255.

Definition uint8_pixel (p : pixel) : Prop :=
  uint8 (fst (fst p)) /\ uint8 (snd (fst p)) /\ uint8 (snd p).

(** Some channel of the two pixels differs by the full range: the distance
    of the two values, whichever is the larger, is 255. *)
Definition differ_by_255 (p q : pixel) : Prop :=
  let '(r1, g1, b1) := p in
  let '(r2, g2, b2) := q in
  Z.abs (r1 - r2) = 255 \/ Z.abs (g1 - g2) = 255 \/ Z.abs (b1 - b2) = 255.

(** A raster of one colour. *)
Definition solid (h w : nat) (p : pixel) : ndarray :=
  {| nd_h := Z.of_nat h; nd_w := Z.of_nat w;
     nd_px := replicate h (replicate w p) |}.

(** The raster [a] with every pixel replaced by [p]. *)
Definition painted (p : pixel) (a : ndarray) : ndarray :=
  {| nd_h := nd_h a; nd_w := nd_w a;
     nd_px := (fun row : list pixel => (fun _ : pixel => p) <$> row) <$> nd_px a |}.

(** ** Concrete rasters and stores used in the examples *)

Definition red4 : ndarray := solid 4 4 (255, 0, 0).
Definition blue4 : ndarray := solid 4 4 (0, 0, 255).

Definition info_of (fs : list ndarray) (w h : Z) : info :=
  {| frames := fs; width := w; height := h; count := Z.of_nat (length fs) |}.

(** Only a reference of one 4x4 frame has been loaded. *)
Definition only_reference : VideoComparator :=
  final_state (set_ref (info_of [red4] 4 4) VideoComparator_init).

(** Ten reference frames, three comparison frames, cursor left at 5 by an
    earlier, longer comparison sequence. *)
Definition short_comparison : VideoComparator :=
  {| ref_frames := replicate 10 red4;
     comp_frames := replicate 3 blue4;
     ref_info := Some (info_of (replicate 10 red4) 4 4);
     comp_info := Some (info_of (replicate 3 blue4) 4 4);
     current_frame_idx := 5 |}.

(** One 1x1 frame on each side: (128, 0, 0) against black. *)
Definition one_pixel_pair : VideoComparator :=
  {| ref_frames := [solid 1 1 (128, 0, 0)];
     comp_frames := [solid 1 1 (0, 0, 0)];
     ref_info := Some (info_of [solid 1 1 (128, 0, 0)] 1 1);
     comp_info := Some (info_of [solid 1 1 (0, 0, 0)] 1 1);
     current_frame_idx := 0 |}.

(** Ten frames on both sides, the cursor at frame 5. *)
Definition at_frame_5 : VideoComparator :=
  {| ref_frames := replicate 10 red4;
     comp_frames := replicate 10 blue4;
     ref_info := Some (info_of (replicate 10 red4) 4 4);
     comp_info := Some (info_of (replicate 10 blue4) 4 4);
     current_frame_idx := 5 |}.

(** ** The display-to-image mapping as the specification words it

    The raster is fit into the label ([scale] is the smaller of the two
    ratios), centred, and the point is mapped back through the offsets and
    the scale; a point outside the raster is no hit. The specification does
    not name the arithmetic: [fl] is applied to the result of every
    operation, the identity for exact arithmetic, [F64.round] for float64. *)
Definition mapDisplayToImage_in (fl : Q -> Q)
    (px py rasterWidth rasterHeight labelWidth labelHeight : Z)
  : option (Q * Q) :=
  let scale := Qmin (fl (inject_Z labelWidth / inject_Z rasterWidth)%Q)
                    (fl (inject_Z labelHeight / inject_Z rasterHeight)%Q) in
  let displayedW := fl (inject_Z rasterWidth * scale)%Q in
  let displayedH := fl (inject_Z rasterHeight * scale)%Q in
  let offsetX := fl (fl (inject_Z labelWidth - displayedW) / 2)%Q in
  let offsetY := fl (fl (inject_Z labelHeight - displayedH) / 2)%Q in
  let ix := fl (fl (inject_Z px - offsetX) / scale)%Q in
  let iy := fl (fl (inject_Z py - offsetY) / scale)%Q in
  if Qle_bool 0 ix && Qltb ix (inject_Z rasterWidth) &&
     Qle_bool 0 iy && Qltb iy (inject_Z rasterHeight)
  then Some (ix, iy) else None.

(** In exact arithmetic. *)
Definition mapDisplayToImage : Z -> Z -> Z -> Z -> Z -> Z -> option (Q * Q) :=
  mapDisplayToImage_in (fun q => q).

(** In float64 arithmetic. *)
Definition mapDisplayToImage_float : Z -> Z -> Z -> Z -> Z -> Z -> option (Q * Q) :=
  mapDisplayToImage_in F64.round.

(** The coordinates reported for a hit: [int()] of the mapped point. *)
Definition reported (hit : option (Q * Q)) : option (Z * Z) :=
  match hit with
  | Some (ix, iy) => Some (py_int ix, py_int iy)
  | None => None
  end.

(** ** A point-sampling resampler, standing for [cv2.resize] in the examples *)

Definition sample_resize (src : ndarray) (w h : Z) (_ : interpolation)
  : result ndarray :=
  if (nd_h src <=? 0) || (nd_w src <=? 0) || (w <=? 0) || (h <=? 0)
  then Raise Cv2Error
  else Ok {| nd_h := h;
             nd_w := w;
             nd_px :=
               (fun y : nat =>
                  (fun x : nat =>
                     default black
                       (nd_get src (Z.of_nat y * nd_h src / h)
                                   (Z.of_nat x * nd_w src / w)))
                  <$> seq 0 (Z.to_nat w))
               <$> seq 0 (Z.to_nat h) |}.

(** ** Application states used in the examples *)

(** [VideoComparatorApp.__init__], with the size the layout gave the left
    label and a comparator. *)
Definition App_init (vc : VideoComparator) (view_h view_w : Z) : App :=
  {| comparator := vc;
     zoom := 1;
     pan_x := 0;
     pan_y := 0;
     rotation_angle := 0;
     diff_visible := true;
     _zoom_buffer := None;
     _zoom_buffer_shape := None;
     allocations := 0;
     left_view_height := view_h;
     left_view_width := view_w;
     frame_slider_value := 0;
     left_pixmap := None;
     mid_pixmap := None;
     right_pixmap := None |}.

(** Ten 4x4 frames on each side. *)
Definition ten_frames : VideoComparator :=
  {| ref_frames := replicate 10 red4;
     comp_frames := replicate 10 blue4;
     ref_info := Some (info_of (replicate 10 red4) 4 4);
     comp_info := Some (info_of (replicate 10 blue4) 4 4);
     current_frame_idx := 0 |}.

(** The 4x4 sequences shown in a label of the minimum size, 400 by 300. *)
Definition small_frames_app : App := App_init ten_frames 300 400.

(** A 100x100 source in a 400x400 label at zoom 8 (a 50x50 crop), the pan
    requested far to the right. *)
Definition pan_example_app : App :=
  set_pan 1000 0 (set_zoom 8 (App_init ten_frames 400 400)).

(** A 4x4 label at zoom 1 whose scratch array, of the shape the next call
    needs, still holds the pixels of an earlier call. *)
Definition stale_app : App :=
  {| comparator := ten_frames;
     zoom := 1;
     pan_x := 0;
     pan_y := 0;
     rotation_angle := 0;
     diff_visible := true;
     _zoom_buffer := Some {| obj_id := 0; obj_data := solid 4 4 (9, 9, 9) |};
     _zoom_buffer_shape := Some (4, 4, 3);
     allocations := 1;
     left_view_height := 4;
     left_view_width := 4;
     frame_slider_value := 0;
     left_pixmap := None;
     mid_pixmap := None;
     right_pixmap := None |}.

(** ** The crop window of [_zoom_in1], one axis at a time

    [dim] is the extent of the (rotated) image along the axis, [crop] the
    extent of the crop buffer and [pan] the requested pan. *)

(** [clamped_h], [clamped_w] *)
Definition pan_clamped (dim crop pan : Z) : Z :=
  np_clip pan (- (dim / 2) + crop / 2) (dim / 2 - crop / 2).

(** [crop_h_start], [crop_w_start] *)
Definition crop_start (dim crop pan : Z) : Z :=
  Z.max 0 (dim / 2 + pan_clamped dim crop pan - crop / 2).

(** [crop_h_end], [crop_w_end] *)
Definition crop_end (dim crop pan : Z) : Z :=
  dim / 2 + pan_clamped dim crop pan + crop / 2.

(** Bounds of the destination slice in the crop buffer. *)
Definition paste_start (dim crop pan : Z) : Z :=
  crop / 2 - (crop_end dim crop pan - crop_start dim crop pan) / 2.

Definition paste_end (dim crop pan : Z) : Z :=
  crop / 2 + (crop_end dim crop pan - crop_start dim crop pan) / 2.

(** The destination rectangle of the paste contains the point. *)
Definition in_paste (h w crop_h crop_w pan_y pan_x y x : Z) : bool :=
  (paste_start h crop_h pan_y <=? y) && (y <? paste_end h crop_h pan_y) &&
  (paste_start w crop_w pan_x <=? x) && (x <? paste_end w crop_w pan_x).

(** The image [_zoom_in1] receives from [_apply_view_transform]. *)
Definition rotated (angle : Z) (img : ndarray) : ndarray :=
  if angle =? 90 then rotate_90_clockwise img
  else if angle =? 180 then rotate_180 img
  else if angle =? 270 then rotate_90_counterclockwise img
  else img.

(** The scratch attributes are set together: both start as [None]; when a
    shape is recorded, the scratch array exists, has that shape, and was
    made earlier. *)
Definition zoom_buffer_inv (s : App) : Prop :=
  match _zoom_buffer_shape s with
  | None => _zoom_buffer s = None
  | Some (h, w, _) =>
      exists b, _zoom_buffer s = Some b /\
                nd_wf (obj_data b) /\
                nd_h (obj_data b) = h /\ nd_w (obj_data b) = w /\
                (obj_id b < allocations s)%nat
  end.

(** The state [_zoom_in1] ends in, for an image of shape [(h, w)], the crop
    extents [crop_h], [crop_w] and the filled scratch contents. *)
Definition zoomed_state (s : App) (h w crop_h crop_w : Z) (filled : ndarray) : App :=
  let differs := shape_differs (_zoom_buffer_shape s) (crop_h, crop_w, 3) in
  {| comparator := comparator s;
     zoom := zoom s;
     pan_x := pan_clamped w crop_w (pan_x s);
     pan_y := pan_clamped h crop_h (pan_y s);
     rotation_angle := rotation_angle s;
     diff_visible := diff_visible s;
     _zoom_buffer :=
       Some {| obj_id := if differs then allocations s
                         else match _zoom_buffer s with
                              | Some b => obj_id b
                              | None => 0%nat
                              end;
               obj_data := filled |};
     _zoom_buffer_shape := Some (crop_h, crop_w, 3);
     allocations := if differs then S (allocations s) else allocations s;
     left_view_height := left_view_height s;
     left_view_width := left_view_width s;
     frame_slider_value := frame_slider_value s;
     left_pixmap := left_pixmap s;
     mid_pixmap := mid_pixmap s;
     right_pixmap := right_pixmap s |}.

(** The scratch contents after the paste: the crop of the image inside the
    destination rectangle, black everywhere else. *)
Definition crop_pasted (img : ndarray) (crop_h crop_w pan_y pan_x : Z)
    (filled : ndarray) : Prop :=
  nd_wf filled /\ nd_h filled = crop_h /\ nd_w filled = crop_w /\
  forall y x, 0 <= y < crop_h -> 0 <= x < crop_w ->
    nd_get filled y x
    = if in_paste (nd_h img) (nd_w img) crop_h crop_w pan_y pan_x y x
      then nd_get img
             (crop_start (nd_h img) crop_h pan_y + (y - paste_start (nd_h img) crop_h pan_y))
             (crop_start (nd_w img) crop_w pan_x + (x - paste_start (nd_w img) crop_w pan_x))
      else Some black.

(** ** Relating the state before a call and the state it ends in *)

(** [keeps R m]: whatever [m] does, returning or raising, the state it ends
    in is related by [R] to the state it started from. *)
Definition keeps {S A} (R : S -> S -> Prop) (m : M S A) : Prop :=
  forall s, R s (final_state (m s)).

(** The projection [f] of the state is left as it was. *)
Definition same_on {S B} (f : S -> B) : S -> S -> Prop :=
  fun s s' => f s' = f s.

(** The property [P] of the state is maintained. *)
Definition maintains {S} (P : S -> Prop) : S -> S -> Prop :=
  fun s s' => P s -> P s'.

(** ** Notions used to state further properties of the comparator *)

(** [max(0, min(frame_count - 1, idx))], the index [get_frame_triplet] serves. *)
Definition served_index (vc : VideoComparator) (idx : Z) : Z :=
  Z.max 0 (Z.min (frame_count vc - 1) idx).

(** Every frame of the list has the shape [(h, w)] and stores it faithfully. *)
Definition frames_of_shape (h w : Z) (fs : list ndarray) : Prop :=
  Forall (fun f => nd_wf f /\ shape2 f = (h, w)) fs.


(** A reference folder of images of two sizes: the declared size is that of
    the first image, 4x4, and the second frame is 2x2. *)
Definition mixed_reference : VideoComparator :=
  {| ref_frames := [red4; solid 2 2 (255, 0, 0)];
     comp_frames := [blue4; blue4];
     ref_info := Some (info_of [red4; solid 2 2 (255, 0, 0)] 4 4);
     comp_info := Some (info_of [blue4; blue4] 4 4);
     current_frame_idx := 0 |}.

(** ** Loaders *)

(** [cv2.cvtColor(frame, cv2.COLOR_BGR2RGB)]: the first and the third
    channel of every pixel change places. *)
Definition bgr2rgb (p : pixel) : pixel :=
  let '(b, g, r) := p in (r, g, b).

Definition cvtColor_BGR2RGB (a : ndarray) : ndarray :=
  {| nd_h := nd_h a; nd_w := nd_w a;
     nd_px := (fun row : list pixel => bgr2rgb <$> row) <$> nd_px a |}.

(** What [load_video] reads of a [cv2.VideoCapture]: whether it opened, the
    three properties it asks for (already through [int]), and the frames
    [cap.read()] yields before its first failure. *)
Record VideoCapture : Type := {
  isOpened : bool;
  CAP_PROP_FRAME_WIDTH : Z;
  CAP_PROP_FRAME_HEIGHT : Z;
  CAP_PROP_FRAME_COUNT : Z;
  reads : list ndarray
}.

(** The [while True] loop of [load_video]: [i] counts the frames read,
    [frames] collects the ones kept. *)
Fixpoint read_frames (step i : Z) (stream frames : list ndarray) : list ndarray :=
  match stream with
  | [] => frames
  | frame :: rest =>
      read_frames step (i + 1) rest
        (if i mod step =? 0 then frames ++ [cvtColor_BGR2RGB frame] else frames)
  end.

(** [load_video(video_path)]; the argument is [None] when the path is empty
    or does not exist, and the capture made from the path otherwise. *)
Definition load_video (video : option VideoCapture) : option info :=
  match video with
  | None => None
  | Some cap =>
      if negb (isOpened cap) then None
      else
        let w := CAP_PROP_FRAME_WIDTH cap in
        let h := CAP_PROP_FRAME_HEIGHT cap in
        let n := CAP_PROP_FRAME_COUNT cap in
        let step := Z.max 1 (n / 300) in
        let frames := read_frames step 0 (reads cap) [] in
        Some {| frames := frames; width := w; height := h;
                count := Z.of_nat (length frames) |}
  end.

Definition image_extensions : list string :=
  [".jpg"; ".jpeg"; ".png"; ".bmp"; ".tiff"; ".tif"; ".webp"].

(** [sorted(names)] on strings: ascending in the lexicographic order of the
    characters. *)
Fixpoint insert_sorted (x : string) (l : list string) : list string :=
  match l with
  | [] => [x]
  | y :: rest => if String.leb x y then x :: l else y :: insert_sorted x rest
  end.

Fixpoint sorted (l : list string) : list string :=
  match l with
  | [] => []
  | x :: rest => insert_sorted x (sorted rest)
  end.

Section FolderLoader.

(** [Path(filename).suffix.lower()] *)
Variable suffix_lower : string -> string.

(** [cv2.imread(os.path.join(folder_path, filename))], [None] for a file it
    cannot read. *)
Variable imread : string -> option ndarray.

(** The first loop of [load_images_from_folder]. *)
Fixpoint collect_image_files (names image_files : list string) : list string :=
  match names with
  | [] => image_files
  | filename :: rest =>
      collect_image_files rest
        (if existsb (String.eqb (suffix_lower filename)) image_extensions
         then image_files ++ [filename] else image_files)
  end.

(** The second loop: [wh] is [(w, h)], [None] until the first image is read. *)
Fixpoint read_images (image_files : list string) (frames : list ndarray)
    (wh : option (Z * Z)) : list ndarray * option (Z * Z) :=
  match image_files with
  | [] => (frames, wh)
  | img_path :: rest =>
      match imread img_path with
      | None => read_images rest frames wh
      | Some img =>
          let wh' := match wh with
                     | None => Some (nd_w img, nd_h img)
                     | Some _ => wh
                     end in
          read_images rest (frames ++ [cvtColor_BGR2RGB img]) wh'
      end
  end.

(** [load_images_from_folder(folder_path)]; the argument is [None] when the
    path is empty or does not exist, and [os.listdir(folder_path)]
    otherwise. With frames read the size is known, so the last case does
    not occur. *)
Definition load_images_from_folder (listing : option (list string)) : option info :=
  match listing with
  | None => None
  | Some names =>
      let image_files := collect_image_files (sorted names) [] in
      if is_empty image_files then None
      else
        match read_images image_files [] None with
        | ([], _) => None
        | (frames, Some (w, h)) =>
            Some {| frames := frames; width := w; height := h;
                    count := Z.of_nat (length frames) |}
        | (_, None) => None
        end
  end.

End FolderLoader.

(** ** Notions used to state the properties of the loaders *)

(** The frames [load_video] keeps of a stream: those at the positions
    [0, step, 2 * step, ...]. *)
Definition kept_count (n step : Z) : Z := (n + step - 1) / step.

(** The filename carries one of the image extensions. *)
Definition is_image_file (suffix_lower : string -> string) (filename : string) : bool :=
  existsb (String.eqb (suffix_lower filename)) image_extensions.

(** The order [sorted] puts filenames in. *)
Definition string_le (a b : string) : Prop := String.leb a b = true.

(** What [load_images_from_folder] returns for the images read, in order. *)
Definition info_of_images (images : list ndarray) : option info :=
  match images with
  | [] => None
  | first :: _ =>
      Some {| frames := cvtColor_BGR2RGB <$> images;
              width := nd_w first;
              height := nd_h first;
              count := Z.of_nat (length images) |}
  end.

(** An example folder: two images of different sizes, a file that is no
    image, and a file with an image extension that cannot be read. *)
Definition sample_listing : list string :=
  ["notes.txt"; "b.png"; "c.png"; "a.JPG"].

Definition sample_suffix_lower (filename : string) : string :=
  if String.eqb filename "a.JPG" then ".jpg"
  else if String.eqb filename "b.png" then ".png"
  else if String.eqb filename "c.png" then ".png"
  else if String.eqb filename "notes.txt" then ".txt"
  else "".

Definition sample_imread (filename : string) : option ndarray :=
  if String.eqb filename "a.JPG" then Some (solid 1 2 (1, 2, 3))
  else if String.eqb filename "b.png" then Some (solid 2 2 (4, 5, 6))
  else None.

(** A capture of five 1x1 frames whose blue channel numbers them. *)
Definition five_frame_capture : VideoCapture :=
  {| isOpened := true;
     CAP_PROP_FRAME_WIDTH := 1;
     CAP_PROP_FRAME_HEIGHT := 1;
     CAP_PROP_FRAME_COUNT := 5;
     reads := (fun k : nat => solid 1 1 (Z.of_nat k, 0, 0)) <$> seq 0 5 |}.

(** A capture that opens and yields no frame. *)
Definition empty_capture : VideoCapture :=
  {| isOpened := true;
     CAP_PROP_FRAME_WIDTH := 4;
     CAP_PROP_FRAME_HEIGHT := 4;
     CAP_PROP_FRAME_COUNT := 0;
     reads := [] |}.

(** ** VideoComparatorApp: the diff toggle and the swap

    The button texts, the path labels and the panel titles these handlers
    also set are widget state that nothing else reads; they are left out. *)

Definition set_diff_visible (b : bool) (s : App) : App :=
  {| comparator := comparator s; zoom := zoom s; pan_x := pan_x s; pan_y := pan_y s;
     rotation_angle := rotation_angle s; diff_visible := b;
     _zoom_buffer := _zoom_buffer s; _zoom_buffer_shape := _zoom_buffer_shape s;
     allocations := allocations s;
     left_view_height := left_view_height s; left_view_width := left_view_width s;
     frame_slider_value := frame_slider_value s;
     left_pixmap := left_pixmap s; mid_pixmap := mid_pixmap s;
     right_pixmap := right_pixmap s |}.

(** The comparator after the two tuple assignments of [swap_left_right]. *)
Definition swapped (vc : VideoComparator) : VideoComparator :=
  {| ref_frames := comp_frames vc;
     comp_frames := ref_frames vc;
     ref_info := comp_info vc;
     comp_info := ref_info vc;
     current_frame_idx := current_frame_idx vc |}.

Section Handlers.

Variable cv2_resize : ndarray -> Z -> Z -> interpolation -> result ndarray.

Definition toggle_diff_view : M App unit :=
  (s <- get ;;
   modify (set_diff_visible (negb (diff_visible s))) ;;;
   on_frame_changed cv2_resize (frame_slider_value s))%py.

Definition swap_left_right : M App unit :=
  (s <- get ;;
   modify (set_comparator (swapped (comparator s))) ;;;
   s1 <- get ;;
   if 0 <? frame_count (comparator s1)
   then on_frame_changed cv2_resize (frame_slider_value s1)
   else ret tt)%py.

End Handlers.

(** ** ImageViewer: the event handlers *)

Inductive signal : Type :=
| zoom_requested (delta : Q)
| pan_requested (dx dy : Z)
| pixel_hovered (x y : Z).

Inductive MouseButton : Type := LeftButton | RightButton | MiddleButton.

(** The widget with the attributes its handlers keep, and the signals it
    has emitted, oldest first. [geometry] is what [_emit_pixel] reads. *)
Record Viewer : Type := {
  geometry : ImageViewer;
  _dragging : bool;
  _last_pos : Z * Z;
  viewer_zoom_delta : Q;
  emitted : list signal
}.

(** [ImageViewer.__init__] *)
Definition Viewer_init (g : ImageViewer) : Viewer :=
  {| geometry := g; _dragging := false; _last_pos := (0, 0);
     viewer_zoom_delta := literal (1 # 10); emitted := [] |}.

Definition set_dragging (b : bool) (v : Viewer) : Viewer :=
  {| geometry := geometry v; _dragging := b; _last_pos := _last_pos v;
     viewer_zoom_delta := viewer_zoom_delta v; emitted := emitted v |}.

Definition set_last_pos (pos : Z * Z) (v : Viewer) : Viewer :=
  {| geometry := geometry v; _dragging := _dragging v; _last_pos := pos;
     viewer_zoom_delta := viewer_zoom_delta v; emitted := emitted v |}.

Definition emit (sg : signal) : M Viewer unit :=
  modify (fun v =>
    {| geometry := geometry v; _dragging := _dragging v; _last_pos := _last_pos v;
       viewer_zoom_delta := viewer_zoom_delta v; emitted := emitted v ++ [sg] |}).

Definition mousePressEvent (button : MouseButton) (pos : Z * Z) : M Viewer unit :=
  match button with
  | LeftButton => (modify (set_dragging true) ;;; modify (set_last_pos pos))%py
  | _ => ret tt
  end.

Definition mouseMoveEvent (pos : Z * Z) : M Viewer unit :=
  (v <- get ;;
   if _dragging v then
     (* Pan logic *)
     let current := pos in
     let dx := fst current - fst (_last_pos v) in
     let dy := snd current - snd (_last_pos v) in
     modify (set_last_pos current) ;;;
     emit (pan_requested (- dx) (- dy))
   else
     (* On hover (not dragging): only emit if mouse is within widget *)
     if (0 <=? fst pos) && (fst pos <? lbl_w (geometry v)) &&
        (0 <=? snd pos) && (snd pos <? lbl_h (geometry v))
     then
       r <- lift (_emit_pixel (geometry v) pos) ;;
       match r with
       | Some (x, y) => emit (pixel_hovered x y)
       | None => ret tt
       end
     else ret tt)%py.

Definition mouseReleaseEvent (button : MouseButton) : M Viewer unit :=
  match button with
  | LeftButton => modify (set_dragging false)
  | _ => ret tt
  end.

(** [wheelEvent]; [delta] is [event.angleDelta().y()]. *)
Definition wheelEvent (delta : Z) : M Viewer unit :=
  (v <- get ;;
   if 0 <? delta then emit (zoom_requested (viewer_zoom_delta v))
   else if delta <? 0 then emit (zoom_requested (- viewer_zoom_delta v))
   else ret tt)%py.

(** ** Notions used to state the properties of the handlers *)

(** The mouse moves through the positions [ps], one move event each. *)
Fixpoint mouse_moves (ps : list (Z * Z)) : M Viewer unit :=
  match ps with
  | [] => ret tt
  | p :: rest => (mouseMoveEvent p ;;; mouse_moves rest)%py
  end.

(** The sum of the pan requests among the signals. *)
Fixpoint pan_total (sgs : list signal) : Z * Z :=
  match sgs with
  | [] => (0, 0)
  | pan_requested dx dy :: rest =>
      let '(tx, ty) := pan_total rest in (dx + tx, dy + ty)
  | _ :: rest => pan_total rest
  end.

Definition is_pan_request (sg : signal) : Prop :=
  match sg with pan_requested _ _ => True | _ => False end.

(** The angles [rotate_left] and [rotate_right] move between. *)
Definition quarter_turn (angle : Z) : Prop :=
  angle = 0 \/ angle = 90 \/ angle = 180 \/ angle = 270.

(** A raster of two rows and three columns whose red channel numbers the
    pixels row by row. *)
Definition numbered_2x3 : ndarray :=
  {| nd_h := 2; nd_w := 3;
     nd_px := [[(1, 0, 0); (2, 0, 0); (3, 0, 0)];
               [(4, 0, 0); (5, 0, 0); (6, 0, 0)]] |}.

(** A 1920x1080 reference declared, in a label of 400 by 300. *)
Definition hd_reference_app : App :=
  App_init {| ref_frames := []; comp_frames := [];
              ref_info := Some (info_of [] 1920 1080); comp_info := None;
              current_frame_idx := 0 |} 300 400.

(** A viewer of 400x300 showing a 4x4 pixmap. *)
Definition sample_viewer : Viewer :=
  Viewer_init {| pixmap := Some (4, 4); lbl_w := 400; lbl_h := 300 |}.

(** ** Difference raster: proofs *)

Lemma below_256 (P : Z -> bool) :
  forallb P (Z.of_nat <$> seq 0 256) = true ->
  forall m, 0 <= m <= 255 -> P m = true.
Proof.
  intros Hall m Hm.
  rewrite forallb_forall in Hall.
  apply Hall.
  apply in_map_iff. exists (Z.to_nat m). split; [lia|].
  apply in_seq. lia.
Qed.

(** The red channel is the Chebyshev distance itself: truncation loses
    nothing there. *)
Lemma red_of_exact (m : Z) : 0 <= m <= 255 -> red_of m = m.
Proof.
  intros Hm.
  apply Z.eqb_eq.
  revert m Hm.
  apply (below_256 (fun m => red_of m =? m)).
  vm_compute. reflexivity.
Qed.


Lemma chebyshev_same (p : pixel) : chebyshev p p = 0.
Proof.
  destruct p as [[r g] b]. unfold chebyshev, absdiff.
  rewrite !Z.sub_diag. reflexivity.
Qed.

Lemma chebyshev_full (p q : pixel) :
  uint8_pixel p -> uint8_pixel q -> differ_by_255 p q -> chebyshev p q = 255.
Proof.
  destruct p as [[r1 g1] b1], q as [[r2 g2] b2].
  unfold uint8_pixel, uint8, differ_by_255, chebyshev, absdiff. simpl.
  lia.
Qed.

Lemma diff_pixel_same (p : pixel) : diff_pixel p p = (0, 0, 255).
Proof. unfold diff_pixel. rewrite chebyshev_same. vm_compute. reflexivity. Qed.

Lemma diff_pixel_full (p q : pixel) :
  chebyshev p q = 255 -> diff_pixel p q = (255, 0, 0).
Proof. intros H. unfold diff_pixel. rewrite H. vm_compute. reflexivity. Qed.

Lemma zip_with_same {A B} (f : A -> A -> B) (l : list A) :
  zip_with f l l = (fun x => f x x) <$> l.
Proof. induction l as [|x l IH]; simpl; [reflexivity | now rewrite IH]. Qed.

Lemma shape2_eqb_refl (s : Z * Z) : shape2_eqb s s = true.
Proof. unfold shape2_eqb. now rewrite !Z.eqb_refl. Qed.

Lemma shape2_eqb_eq (s t : Z * Z) : shape2_eqb s t = true <-> s = t.
Proof.
  destruct s, t. unfold shape2_eqb. simpl.
  rewrite andb_true_iff, !Z.eqb_eq. split; [intros []; congruence|].
  intros [= -> ->]. auto.
Qed.

Lemma diff_rgb_same (a : ndarray) : diff_rgb a a = Ok (painted (0, 0, 255) a).
Proof.
  unfold diff_rgb, painted. rewrite shape2_eqb_refl. do 2 f_equal.
  rewrite zip_with_same. apply list_fmap_ext. intros _ row _.
  rewrite zip_with_same. apply list_fmap_ext. intros _ p _.
  apply diff_pixel_same.
Qed.

Lemma zip_with_const_Forall2 {A B} (R : A -> A -> Prop) (f : A -> A -> B) (g : A -> B)
    (l k : list A) :
  (forall x y, R x y -> f x y = g x) ->
  Forall2 R l k -> zip_with f l k = g <$> l.
Proof.
  intros Hf H. induction H as [|x y l k Hxy _ IH]; simpl; [reflexivity|].
  rewrite IH. f_equal. auto.
Qed.

(** The pixels of two rasters pairwise span the full range in some channel. *)
Lemma diff_rgb_full (a b : ndarray) :
  shape2 a = shape2 b ->
  Forall2 (Forall2 (fun p q => chebyshev p q = 255)) (nd_px a) (nd_px b) ->
  diff_rgb a b = Ok (painted (255, 0, 0) a).
Proof.
  intros Hs H. unfold diff_rgb, painted.
  rewrite Hs, shape2_eqb_refl. do 2 f_equal.
  eapply zip_with_const_Forall2; [|exact H].
  intros r1 r2 Hr. simpl in Hr.
  eapply zip_with_const_Forall2; [|exact Hr].
  intros p q Hpq. now apply diff_pixel_full.
Qed.

(** C8. Two identical frames, whatever they show, give the raster that is
    (0, 0, 255) at every pixel; two equally-sized 8-bit frames whose pixels
    differ, pairwise, by 255 in some channel give the raster that is
    (255, 0, 0) at every pixel, whichever of the two holds the larger value:
    so solid red against solid blue, and black against red, each 4x4. *)
Theorem diff_endpoints :
  (forall a : ndarray, diff_rgb a a = Ok (painted (0, 0, 255) a)) /\
  (forall a b : ndarray,
     shape2 a = shape2 b ->
     Forall2 (Forall2 (fun p q => uint8_pixel p /\ uint8_pixel q /\ differ_by_255 p q))
             (nd_px a) (nd_px b) ->
     diff_rgb a b = Ok (painted (255, 0, 0) a)) /\
  diff_rgb (solid 4 4 (90, 60, 30)) (solid 4 4 (90, 60, 30))
  = Ok (solid 4 4 (0, 0, 255)) /\
  diff_rgb red4 blue4 = Ok (solid 4 4 (255, 0, 0)) /\
  diff_rgb (solid 4 4 (0, 0, 0)) red4 = Ok (solid 4 4 (255, 0, 0)).
Proof.
  split; [exact diff_rgb_same|]. split.
  - intros a b Hs H. apply diff_rgb_full; [exact Hs|].
    eapply Forall2_impl; [exact H|].
    intros r1 r2 Hr. eapply Forall2_impl; [exact Hr|].
    intros p q (Hp & Hq & Hd). now apply chebyshev_full.
  - repeat split; vm_compute; reflexivity.
Qed.

(** Black against solid red, each 4x4: the comparison holds the larger
    value. *)
Lemma diff_endpoints_black_red :
  shape2 (solid 4 4 (0, 0, 0)) = shape2 red4 /\
  Forall2 (Forall2 (fun p q => uint8_pixel p /\ uint8_pixel q /\ differ_by_255 p q))
          (nd_px (solid 4 4 (0, 0, 0))) (nd_px red4) /\
  diff_rgb (solid 4 4 (0, 0, 0)) red4 = Ok (painted (255, 0, 0) (solid 4 4 (0, 0, 0))).
Proof.
  assert (Hs : shape2 (solid 4 4 (0, 0, 0)) = shape2 red4) by reflexivity.
  assert (Hp : Forall2 (Forall2 (fun p q =>
                 uint8_pixel p /\ uint8_pixel q /\ differ_by_255 p q))
                 (nd_px (solid 4 4 (0, 0, 0))) (nd_px red4)).
  { cbn [nd_px red4 solid replicate].
    repeat match goal with |- Forall2 _ _ _ => constructor end;
      unfold uint8_pixel, uint8, differ_by_255; simpl; lia. }
  split; [exact Hs|]. split; [exact Hp|].
  exact (proj1 (proj2 diff_endpoints) _ _ Hs Hp).
Defined.

(** C2. A reference pixel (128, 0, 0) against a black comparison pixel: the
    difference frame of [get_frame_triplet] holds blue 126, where the
    rounded complement of the specification is 127. *)
Theorem diff_blue_truncated :
  (forall cv2_resize,
     returned (get_frame_triplet cv2_resize 0 true one_pixel_pair)
     = Some (Some (solid 1 1 (128, 0, 0)), Some (solid 1 1 (0, 0, 0)),
             Some (solid 1 1 (128, 0, 126)))) /\
  diff_rgb (solid 1 1 (128, 0, 0)) (solid 1 1 (0, 0, 0))
    = Ok (solid 1 1 (128, 0, 126)) /\
  spec_diff_pixel (128, 0, 0) (0, 0, 0) = (128, 0, 127).
Proof. split; [intros cv2_resize|split]; vm_compute; reflexivity. Qed.

(** The red channel agrees with the specification for every pixel pair of
    8-bit frames, and so does green. *)
Lemma diff_pixel_red_green (p q : pixel) :
  uint8_pixel p -> uint8_pixel q ->
  fst (diff_pixel p q) = fst (spec_diff_pixel p q).
Proof.
  intros Hp Hq.
  assert (Hm : 0 <= chebyshev p q <= 255).
  { destruct p as [[r1 g1] b1], q as [[r2 g2] b2].
    unfold uint8_pixel, uint8, chebyshev, absdiff in *. simpl in *. lia. }
  unfold diff_pixel, spec_diff_pixel, spec_mag. cbn [fst].
  rewrite (red_of_exact _ Hm). f_equal.
  symmetry. apply Z.eqb_eq. revert Hm. generalize (chebyshev p q).
  apply (below_256 (fun m =>
           round_nearest (np_clipq (inject_Z m / 255) 0 1 * 255) =? m)).
  vm_compute. reflexivity.
Qed.

(** The scenario of ten solid red frames against ten solid blue ones: the
    difference frame is (255, 0, 0) throughout, and an index beyond the
    range is served as the last frame. *)
Lemma get_frame_triplet_red_blue cv2_resize :
  frame_count ten_frames = 10 /\
  returned (get_frame_triplet cv2_resize 3 true ten_frames)
  = Some (Some red4, Some blue4, Some (solid 4 4 (255, 0, 0))) /\
  get_frame_triplet cv2_resize 20 true ten_frames
  = get_frame_triplet cv2_resize 9 true ten_frames /\
  returned (get_frame_triplet cv2_resize 3 false ten_frames)
  = Some (Some red4, Some blue4, None).
Proof. repeat split; vm_compute; reflexivity. Qed.

(** ** The monad: proofs *)

Lemma final_state_bind {S A B} (m : M S A) (k : A -> M S B) (s : S) :
  final_state (bind m k s)
  = match m s with
    | Done a s1 => final_state (k a s1)
    | Fail _ s1 => s1
    end.
Proof. unfold bind. destruct (m s); reflexivity. Qed.

#[export] Instance same_on_preorder {S B} (f : S -> B) : PreOrder (same_on f).
Proof.
  split.
  - intros s. reflexivity.
  - intros s1 s2 s3 H12 H23. unfold same_on in *. congruence.
Qed.

#[export] Instance maintains_preorder {S} (P : S -> Prop) : PreOrder (maintains P).
Proof.
  split.
  - intros s H. exact H.
  - intros s1 s2 s3 H12 H23 H. auto.
Qed.

Section Keeps.

Context {S : Type} (R : S -> S -> Prop) `{!PreOrder R}.

Lemma keeps_ret {A} (a : A) : keeps R (ret a).
Proof. intros s. simpl. reflexivity. Qed.

Lemma keeps_raise {A} (e : exn) : keeps R (@raise S A e).
Proof. intros s. simpl. reflexivity. Qed.

Lemma keeps_get : keeps R get.
Proof. intros s. simpl. reflexivity. Qed.

Lemma keeps_lift {A} (r : result A) : keeps R (lift r).
Proof. intros s. unfold lift. destruct r; simpl; reflexivity. Qed.

Lemma keeps_modify (f : S -> S) : (forall s, R s (f s)) -> keeps R (modify f).
Proof. intros H s. simpl. apply H. Qed.

Lemma keeps_bind {A B} (m : M S A) (k : A -> M S B) :
  keeps R m -> (forall a, keeps R (k a)) -> keeps R (bind m k).
Proof.
  intros Hm Hk s. rewrite final_state_bind.
  specialize (Hm s). destruct (m s) as [a s1|e s1]; simpl in Hm.
  - etransitivity; [exact Hm | apply Hk].
  - exact Hm.
Qed.

End Keeps.

(** Walks through a monadic body, leaving the [modify] steps to the user. *)
Ltac keeps_step :=
  first
    [ apply keeps_ret; solve [typeclasses eauto]
    | apply keeps_raise; solve [typeclasses eauto]
    | apply keeps_get; solve [typeclasses eauto]
    | apply keeps_lift; solve [typeclasses eauto]
    | apply keeps_bind; [typeclasses eauto | | intros ?]
    | match goal with
      | |- keeps _ (if ?b then _ else _) => destruct b
      | |- keeps _ (match ?x with _ => _ end) => destruct x
      | |- keeps _ (let '(_, _) := ?x in _) => destruct x
      end ].

Ltac keeps_walk := repeat keeps_step.

(** ** VideoComparator: proofs *)

Section ComparatorFacts.

Variable cv2_resize : ndarray -> Z -> Z -> interpolation -> result ndarray.

(** No reference loaded: no result. *)
Lemma get_pixel_info_no_reference (vc : VideoComparator) (x y : Z) :
  ref_info vc = None -> get_pixel_info cv2_resize vc x y = Ok None.
Proof. intros H. unfold get_pixel_info. now rewrite H. Qed.

(** A coordinate outside the reference's declared size: no result. *)
Lemma get_pixel_info_out_of_bounds (vc : VideoComparator) (ri : info) (x y : Z) :
  ref_info vc = Some ri ->
  ~ (0 <= x < width ri /\ 0 <= y < height ri) ->
  get_pixel_info cv2_resize vc x y = Ok None.
Proof.
  intros H Hout. unfold get_pixel_info. rewrite H.
  destruct ((0 <=? x) && (x <? width ri) && (0 <=? y) && (y <? height ri)) eqn:E;
    [|reflexivity].
  exfalso. apply Hout.
  rewrite !andb_true_iff in E. lia.
Qed.

(** C3. With a reference loaded and the coordinate inside it,
    [get_pixel_info] indexes the comparison frames without a guard: it
    raises IndexError when no comparison was loaded, and when the
    comparison sequence is shorter than the cursor. *)
Theorem get_pixel_info_missing_comparison_raises :
  get_pixel_info cv2_resize only_reference 0 0 = Raise IndexError /\
  get_pixel_info cv2_resize short_comparison 0 0 = Raise IndexError.
Proof. split; reflexivity. Qed.

Lemma frame_count_nonneg (vc : VideoComparator) : 0 <= frame_count vc.
Proof.
  unfold frame_count.
  destruct (is_empty (ref_frames vc) || is_empty (comp_frames vc)); lia.
Qed.

(** The cursor after [get_frame_triplet]: the index clamped into the
    common range, or the old cursor when there is no common frame. *)
Lemma get_frame_triplet_cursor (vc : VideoComparator) (idx : Z) (cd : bool) :
  current_frame_idx (final_state (get_frame_triplet cv2_resize idx cd vc))
  = if frame_count vc =? 0 then current_frame_idx vc
    else Z.max 0 (Z.min (frame_count vc - 1) idx).
Proof.
  unfold get_frame_triplet.
  rewrite final_state_bind. cbn [get].
  destruct (frame_count vc =? 0); [reflexivity|].
  rewrite final_state_bind. cbn [modify].
  match goal with
  | |- current_frame_idx (final_state (?k ?s)) = _ =>
      assert (H : keeps (same_on current_frame_idx) k)
  end.
  { keeps_walk. }
  rewrite (H _). reflexivity.
Qed.

(** C9, as the code has it. [set_ref] and [set_comp] replace the
    respective sequence (frames and info) and leave the other sequence and
    the cursor as they were; the cursor is put to 0 by the
    [get_frame_triplet] call for frame 0 that follows a load, when both
    sequences hold a frame. *)
Theorem set_ref_set_comp_replace (i : info) (vc : VideoComparator) (cd : bool) :
  let r := final_state (set_ref i vc) in
  let c := final_state (set_comp i vc) in
  (ref_frames r = frames i /\ ref_info r = Some i /\
   comp_frames r = comp_frames vc /\ comp_info r = comp_info vc /\
   current_frame_idx r = current_frame_idx vc) /\
  (comp_frames c = frames i /\ comp_info c = Some i /\
   ref_frames c = ref_frames vc /\ ref_info c = ref_info vc /\
   current_frame_idx c = current_frame_idx vc) /\
  current_frame_idx (final_state (get_frame_triplet cv2_resize 0 cd r))
    = (if frame_count r =? 0 then current_frame_idx vc else 0) /\
  current_frame_idx (final_state (get_frame_triplet cv2_resize 0 cd c))
    = (if frame_count c =? 0 then current_frame_idx vc else 0).
Proof.
  intros r c. repeat split; try reflexivity.
  - rewrite get_frame_triplet_cursor.
    pose proof (frame_count_nonneg r).
    destruct (frame_count r =? 0) eqn:E; [reflexivity|].
    apply Z.eqb_neq in E. lia.
  - rewrite get_frame_triplet_cursor.
    pose proof (frame_count_nonneg c).
    destruct (frame_count c =? 0) eqn:E; [reflexivity|].
    apply Z.eqb_neq in E. lia.
Qed.

End ComparatorFacts.

(** C9, as stated, fails: the cursor stays at 5 when a new reference is set. *)
Lemma set_ref_keeps_cursor :
  current_frame_idx (final_state (set_ref (info_of [red4] 4 4) at_frame_5)) <> 0.
Proof. simpl. discriminate. Qed.

(** ** ImageViewer: proofs *)

(** ** binary64 rounding: proofs *)

Section F64Facts.

Local Open Scope Q_scope.

Lemma two_pos (k : Z) : 0 < 2 ^ k.
Proof. apply Qpower_0_lt. reflexivity. Qed.

Lemma two_succ (k : Z) : 2 ^ (k + 1) == 2 * 2 ^ k.
Proof. rewrite Qpower_plus by discriminate. rewrite Qpower_1_r. ring. Qed.

Lemma two_pred (k : Z) : 2 * 2 ^ (k - 1) == 2 ^ k.
Proof. rewrite <- two_succ. now replace (k - 1 + 1)%Z with k by lia. Qed.

Lemma two_le (a b : Z) : (a <= b)%Z -> 2 ^ a <= 2 ^ b.
Proof. intros H. apply Qpower_le_compat_l; [exact H | discriminate]. Qed.

Lemma Z_log2_Q (n : Z) :
  (0 < n)%Z -> 2 ^ Z.log2 n <= inject_Z n /\ inject_Z n < 2 * 2 ^ Z.log2 n.
Proof.
  intros Hn. destruct (Z.log2_spec n Hn) as [Hlo Hhi].
  pose proof (Z.log2_nonneg n) as H0.
  rewrite <- two_succ.
  rewrite <- !(Zpower_Qpower 2) by lia.
  rewrite <- Zle_Qle, <- Zlt_Qlt.
  replace (Z.succ (Z.log2 n)) with (Z.log2 n + 1)%Z in Hhi by lia.
  split; assumption.
Qed.

Lemma ilog2_spec (q : Q) :
  0 < q -> 2 ^ F64.ilog2 q <= q /\ q < 2 ^ (F64.ilog2 q + 1).
Proof.
  intros Hq. unfold F64.ilog2.
  destruct q as [n d]. cbn [Qnum Qden].
  assert (Hn : (0 < n)%Z).
  { unfold Qlt in Hq. cbn in Hq. lia. }
  destruct (Z_log2_Q n Hn) as [Hn1 Hn2].
  destruct (Z_log2_Q (Z.pos d) eq_refl) as [Hd1 Hd2].
  set (ln := Z.log2 n) in *. set (ld := Z.log2 (Z.pos d)) in *.
  pose proof (two_pos ln) as HA. pose proof (two_pos ld) as HB.
  assert (Hk : 2 ^ (ln - ld) == 2 ^ ln / 2 ^ ld)
    by (apply Qpower_minus; discriminate).
  assert (Hq' : n # d == inject_Z n / inject_Z (Z.pos d)) by apply Qmake_Qdiv.
  assert (HD : 0 < inject_Z (Z.pos d)) by reflexivity.
  assert (HN : 0 < inject_Z n) by (rewrite <- (Zlt_Qlt 0); exact Hn).
  set (N := inject_Z n) in *. set (D := inject_Z (Z.pos d)) in *.
  set (A := 2 ^ ln) in *. set (B := 2 ^ ld) in *.
  assert (Hup : n # d < 2 * 2 ^ (ln - ld)).
  { rewrite Hq', Hk. apply Qlt_shift_div_r; [exact HD|].
    setoid_replace (2 * (A / B) * D) with ((2 * A * D) / B) using relation Qeq by (field; lra).
    apply Qlt_shift_div_l; [exact HB|]. nra. }
  assert (Hlow : 2 ^ (ln - ld) <= 2 * (n # d)).
  { rewrite Hq', Hk. apply Qle_shift_div_r; [exact HB|].
    setoid_replace (2 * (N / D) * B) with ((2 * N * B) / D) using relation Qeq by (field; lra).
    apply Qle_shift_div_l; [exact HD|]. nra. }
  destruct (Qle_bool (2 ^ (ln - ld)) (n # d)) eqn:E.
  - apply Qle_bool_iff in E. split; [exact E|]. now rewrite two_succ.
  - assert (E' : n # d < 2 ^ (ln - ld)).
    { apply Qnot_le_lt. intros H. apply Qle_bool_iff in H. congruence. }
    replace (ln - ld - 1 + 1)%Z with (ln - ld)%Z by lia.
    split; [|exact E'].
    pose proof (two_pred (ln - ld)). lra.
Qed.

Lemma ilog2_mono (x y : Q) :
  0 < x -> x <= y -> (F64.ilog2 x <= F64.ilog2 y)%Z.
Proof.
  intros Hx Hxy.
  destruct (ilog2_spec x Hx) as [Hx1 _].
  destruct (ilog2_spec y ltac:(lra)) as [_ Hy2].
  destruct (Z_lt_le_dec (F64.ilog2 y) (F64.ilog2 x)) as [H|H]; [|exact H].
  exfalso. pose proof (two_le (F64.ilog2 y + 1) (F64.ilog2 x) ltac:(lia)). lra.
Qed.

#[local] Instance rne_comp : Proper (Qeq ==> eq) F64.rne.
Proof.
  intros x y H. unfold F64.rne. rewrite (Qfloor_comp _ _ H).
  assert (Hc : (x - inject_Z (Qfloor y) ?= 1 # 2) = (y - inject_Z (Qfloor y) ?= 1 # 2)).
  { apply Qcompare_comp; [now rewrite H | reflexivity]. }
  now rewrite Hc.
Qed.

Lemma rne_near (t : Q) :
  t - (1 # 2) <= inject_Z (F64.rne t) /\ inject_Z (F64.rne t) <= t + (1 # 2).
Proof.
  unfold F64.rne.
  pose proof (Qfloor_le t) as Hlo. pose proof (Qlt_floor t) as Hhi.
  rewrite inject_Z_plus in Hhi. change (inject_Z 1) with 1 in Hhi.
  destruct (t - inject_Z (Qfloor t) ?= 1 # 2) eqn:E.
  - apply Qeq_alt in E.
    destruct (Z.even (Qfloor t));
      [|rewrite inject_Z_plus; change (inject_Z 1) with 1]; split; lra.
  - apply Qlt_alt in E. split; lra.
  - apply Qgt_alt in E. rewrite inject_Z_plus. change (inject_Z 1) with 1.
    split; lra.
Qed.

Lemma rne_int (n : Z) : F64.rne (inject_Z n) = n.
Proof.
  unfold F64.rne. rewrite Qfloor_Z.
  replace (inject_Z n - inject_Z n ?= 1 # 2) with Lt; [reflexivity|].
  symmetry. rewrite <- Qlt_alt. lra.
Qed.

Lemma rne_mono (x y : Q) : x <= y -> (F64.rne x <= F64.rne y)%Z.
Proof.
  intros Hxy.
  destruct (Z_lt_le_dec (F64.rne y) (F64.rne x)) as [H|H]; [|exact H].
  exfalso.
  destruct (rne_near x) as [_ Hx]. destruct (rne_near y) as [Hy _].
  assert (H1 : inject_Z (F64.rne y) + 1 <= inject_Z (F64.rne x)).
  { change 1 with (inject_Z 1). rewrite <- inject_Z_plus, <- Zle_Qle. lia. }
  assert (Heq : x == y) by lra.
  rewrite (rne_comp _ _ Heq) in H. lia.
Qed.


Lemma scaled_range (q : Q) :
  0 < q ->
  let e := (F64.ilog2 q - (F64.prec - 1))%Z in
  inject_Z (2 ^ 52) <= q / 2 ^ e /\ q / 2 ^ e <= inject_Z (2 ^ 53).
Proof.
  intros Hq e. destruct (ilog2_spec q Hq) as [Hlo Hhi].
  pose proof (two_pos e) as He.
  rewrite !(Zpower_Qpower 2) by lia. change (inject_Z 2) with 2.
  assert (H52 : 2 ^ F64.ilog2 q == 2 ^ 52 * 2 ^ e).
  { rewrite <- Qpower_plus by discriminate. apply Qpower_comp; [reflexivity|].
    unfold e, F64.prec. lia. }
  assert (H53 : 2 ^ (F64.ilog2 q + 1) == 2 ^ 53 * 2 ^ e).
  { rewrite <- Qpower_plus by discriminate. apply Qpower_comp; [reflexivity|].
    unfold e, F64.prec. lia. }
  split.
  - apply Qle_shift_div_l; [exact He|]. now rewrite <- H52.
  - apply Qle_shift_div_r; [exact He|]. rewrite <- H53. now apply Qlt_le_weak.
Qed.

Lemma round_pos_bounds (q : Q) :
  0 < q ->
  2 ^ F64.ilog2 q <= F64.round_pos q /\ F64.round_pos q <= 2 ^ (F64.ilog2 q + 1).
Proof.
  intros Hq. unfold F64.round_pos.
  destruct (scaled_range q Hq) as [Hlo Hhi].
  set (e := (F64.ilog2 q - (F64.prec - 1))%Z) in *.
  pose proof (two_pos e) as He.
  apply rne_mono in Hlo, Hhi. rewrite rne_int in Hlo, Hhi.
  rewrite Zle_Qle in Hlo, Hhi.
  rewrite !(Zpower_Qpower 2) in Hlo, Hhi by lia.
  change (inject_Z 2) with 2 in Hlo, Hhi.
  assert (H52 : 2 ^ F64.ilog2 q == 2 ^ 52 * 2 ^ e).
  { rewrite <- Qpower_plus by discriminate. apply Qpower_comp; [reflexivity|].
    unfold e, F64.prec. lia. }
  assert (H53 : 2 ^ (F64.ilog2 q + 1) == 2 ^ 53 * 2 ^ e).
  { rewrite <- Qpower_plus by discriminate. apply Qpower_comp; [reflexivity|].
    unfold e, F64.prec. lia. }
  rewrite H52, H53.
  split; apply Qmult_le_compat_r; try assumption; now apply Qlt_le_weak.
Qed.

Lemma round_pos_positive (q : Q) : 0 < q -> 0 < F64.round_pos q.
Proof.
  intros Hq. destruct (round_pos_bounds q Hq) as [H _].
  pose proof (two_pos (F64.ilog2 q)). lra.
Qed.

Lemma round_pos_mono (x y : Q) :
  0 < x -> x <= y -> F64.round_pos x <= F64.round_pos y.
Proof.
  intros Hx Hxy. assert (Hy : 0 < y) by lra.
  pose proof (ilog2_mono x y Hx Hxy) as Hl.
  destruct (Z.eq_dec (F64.ilog2 x) (F64.ilog2 y)) as [E|E].
  - unfold F64.round_pos. rewrite E.
    set (e := (F64.ilog2 y - (F64.prec - 1))%Z).
    pose proof (two_pos e) as He.
    apply Qmult_le_compat_r; [|now apply Qlt_le_weak].
    rewrite <- Zle_Qle. apply rne_mono.
    apply Qle_shift_div_l; [exact He|].
    setoid_replace (x / 2 ^ e * 2 ^ e) with x using relation Qeq by (field; lra). exact Hxy.
  - destruct (round_pos_bounds x Hx) as [_ Hx2].
    destruct (round_pos_bounds y Hy) as [Hy1 _].
    pose proof (two_le (F64.ilog2 x + 1) (F64.ilog2 y) ltac:(lia)). lra.
Qed.

Lemma round_zero (q : Q) : q == 0 -> F64.round q = 0.
Proof.
  intros H. unfold F64.round. destruct (q ?= 0) eqn:E; [reflexivity | |].
  - rewrite <- Qlt_alt in E. lra.
  - rewrite <- Qgt_alt in E. lra.
Qed.

Lemma round_of_pos (q : Q) : 0 < q -> F64.round q = F64.round_pos q.
Proof.
  intros H. unfold F64.round. destruct (q ?= 0) eqn:E; [| |reflexivity].
  - rewrite <- Qeq_alt in E. lra.
  - rewrite <- Qlt_alt in E. lra.
Qed.

Lemma round_of_neg (q : Q) : q < 0 -> F64.round q = - F64.round_pos (- q).
Proof.
  intros H. unfold F64.round. destruct (q ?= 0) eqn:E; [|reflexivity|].
  - rewrite <- Qeq_alt in E. lra.
  - rewrite <- Qgt_alt in E. lra.
Qed.

(** Rounding keeps the sign. *)
Lemma round_positive (q : Q) : 0 < q -> 0 < F64.round q.
Proof. intros H. rewrite round_of_pos by exact H. now apply round_pos_positive. Qed.

Lemma round_negative (q : Q) : q < 0 -> F64.round q < 0.
Proof.
  intros H. rewrite round_of_neg by exact H.
  pose proof (round_pos_positive (- q) ltac:(lra)). lra.
Qed.

(** Rounding is monotone. *)
Lemma round_mono (x y : Q) : x <= y -> F64.round x <= F64.round y.
Proof.
  intros Hxy.
  destruct (Q_dec x 0) as [[Hx|Hx]|Hx], (Q_dec y 0) as [[Hy|Hy]|Hy];
    try (exfalso; lra).
  - rewrite !round_of_neg by assumption.
    pose proof (round_pos_mono (- y) (- x) ltac:(lra) ltac:(lra)). lra.
  - pose proof (round_negative x Hx). pose proof (round_positive y Hy). lra.
  - pose proof (round_negative x Hx). rewrite (round_zero y Hy). lra.
  - rewrite !round_of_pos by assumption. now apply round_pos_mono.
  - rewrite (round_zero x Hx). pose proof (round_positive y Hy). lra.
  - rewrite (round_zero x Hx), (round_zero y Hy). lra.
Qed.

#[local] Instance round_comp : Proper (Qeq ==> Qeq) F64.round.
Proof.
  intros x y H. apply Qle_antisym; apply round_mono; rewrite H; apply Qle_refl.
Qed.

End F64Facts.

Lemma Qltb_lt (a b : Q) : Qltb a b = true <-> (a < b)%Q.
Proof.
  unfold Qltb. rewrite negb_true_iff.
  split.
  - intros H. apply Qnot_le_lt. intros Hle.
    apply Qle_bool_iff in Hle. congruence.
  - intros H. destruct (Qle_bool b a) eqn:E; [|reflexivity].
    apply Qle_bool_iff in E. exfalso. exact (Qlt_not_le _ _ H E).
Qed.

Lemma Qltb_ge (a b : Q) : Qltb a b = false <-> (b <= a)%Q.
Proof.
  unfold Qltb. rewrite negb_false_iff. apply Qle_bool_iff.
Qed.

Lemma py_min_Qmin (a b : Q) : py_min a b = Qmin a b.
Proof.
  unfold py_min.
  destruct (Qltb b a) eqn:E.
  - apply Qltb_lt in E.
    destruct (Q.min_spec a b) as [[H _]|[H _]].
    + exfalso. exact (Qlt_irrefl _ (Qlt_trans _ _ _ H E)).
    + unfold Qmin, GenericMinMax.gmin.
      destruct (a ?= b)%Q eqn:C; try reflexivity.
      * apply Qeq_alt in C. rewrite C in E. exfalso. exact (Qlt_irrefl _ E).
      * apply Qlt_alt in C. exfalso. exact (Qlt_irrefl _ (Qlt_trans _ _ _ C E)).
  - apply Qltb_ge in E.
    unfold Qmin, GenericMinMax.gmin.
    destruct (a ?= b)%Q eqn:C; try reflexivity.
    apply Qgt_alt in C. exfalso. exact (Qlt_not_le _ _ C E).
Qed.

Lemma truediv_pos (a b : Q) : (0 < b)%Q -> truediv a b = Ok (fdiv a b).
Proof.
  intros Hb. unfold truediv.
  destruct (Qeq_bool b 0) eqn:E; [|reflexivity].
  apply Qeq_bool_iff in E. rewrite E in Hb. exfalso. exact (Qlt_irrefl _ Hb).
Qed.

Lemma inject_Z_pos (z : Z) : 0 < z -> (0 < inject_Z z)%Q.
Proof. intros H. change 0%Q with (inject_Z 0). now rewrite <- Zlt_Qlt. Qed.

Lemma Qdiv_pos (a b : Q) : (0 < a)%Q -> (0 < b)%Q -> (0 < a / b)%Q.
Proof.
  intros Ha Hb. apply Qlt_shift_div_l; [exact Hb|]. now rewrite Qmult_0_l.
Qed.

Lemma py_min_pos (a b : Q) : (0 < a)%Q -> (0 < b)%Q -> (0 < py_min a b)%Q.
Proof. intros Ha Hb. unfold py_min. destruct (Qltb b a); assumption. Qed.

(** C7, as the code has it. The hover handler maps the point through the
    centring offsets and the scale in float64 arithmetic, every operation
    rounded, and reports it (its coordinates cut to integers) exactly when
    the computed coordinates fall inside the raster. A 200x100 raster in a
    400x100 label maps (150, 50) to (50, 50) and reports nothing at
    (50, 50). *)
Theorem emit_pixel_inverts_fit (img_w img_h lw lh px py : Z) :
  0 < img_w -> 0 < img_h -> 0 < lw -> 0 < lh ->
  _emit_pixel {| pixmap := Some (img_w, img_h); lbl_w := lw; lbl_h := lh |} (px, py)
  = Ok (reported (mapDisplayToImage_float px py img_w img_h lw lh)) /\
  _emit_pixel {| pixmap := Some (200, 100); lbl_w := 400; lbl_h := 100 |} (150, 50)
  = Ok (Some (50, 50)) /\
  _emit_pixel {| pixmap := Some (200, 100); lbl_w := 400; lbl_h := 100 |} (50, 50)
  = Ok None.
Proof.
  intros Hw Hh Hlw Hlh.
  split; [|split; vm_compute; reflexivity].
  unfold _emit_pixel, mapDisplayToImage_float, mapDisplayToImage_in, reported.
  cbn [pixmap lbl_w lbl_h fst snd].
  replace (img_w =? 0) with false by (symmetry; apply Z.eqb_neq; lia).
  replace (img_h =? 0) with false by (symmetry; apply Z.eqb_neq; lia).
  cbn [orb rbind].
  rewrite (truediv_pos _ (inject_Z img_w)) by now apply inject_Z_pos.
  rewrite (truediv_pos _ (inject_Z img_h)) by now apply inject_Z_pos.
  cbn [rbind].
  rewrite <- !py_min_Qmin.
  set (scale := py_min _ _).
  assert (Hs : (0 < scale)%Q).
  { apply py_min_pos; apply round_positive, Qdiv_pos; now apply inject_Z_pos. }
  rewrite !(truediv_pos _ scale Hs). cbn [rbind].
  unfold fdiv, fsub, fmul.
  match goal with |- context [if ?c then _ else _] => destruct c end; reflexivity.
Qed.

Lemma emit_pixel_inverts_fit_example :
  0 < 200 /\ 0 < 100 /\ 0 < 400 /\ 0 < 100 /\
  _emit_pixel {| pixmap := Some (200, 100); lbl_w := 400; lbl_h := 100 |} (150, 50)
  = Ok (reported (mapDisplayToImage_float 150 50 200 100 400 100)).
Proof.
  repeat (split; [lia|]).
  apply (emit_pixel_inverts_fit 200 100 400 100 150 50); lia.
Defined.

(** C7, as stated, fails. In exact arithmetic the point (0, 200) of a
    402x400 label showing a 400x300 raster is the hit (0, 150), and the
    point (0, 18) of a 400x300 label showing a 300x200 raster is the hit
    (0, 1); the handler reports nothing for the first and row 0 for the
    second. *)
Lemma emit_pixel_differs_from_exact_map :
  reported (mapDisplayToImage 0 200 400 300 402 400) = Some (0, 150) /\
  _emit_pixel {| pixmap := Some (400, 300); lbl_w := 402; lbl_h := 400 |} (0, 200)
  = Ok None /\
  reported (mapDisplayToImage 0 18 300 200 400 300) = Some (0, 1) /\
  _emit_pixel {| pixmap := Some (300, 200); lbl_w := 400; lbl_h := 300 |} (0, 18)
  = Ok (Some (0, 0)).
Proof. repeat split; vm_compute; reflexivity. Qed.

(** ** Zoom and rotation: proofs *)

Lemma keeps_on_comparator {A} (R : App -> App -> Prop) (m : M VideoComparator A) :
  (forall s vc, R s (set_comparator vc s)) -> keeps R (on_comparator m).
Proof.
  intros H s. unfold on_comparator.
  destruct (m (comparator s)); simpl; apply H.
Qed.

(** Closes a [keeps (same_on f)] goal for a body that never assigns [f]. *)
Ltac keeps_field :=
  repeat first
    [ keeps_step
    | apply keeps_modify; intros ?; reflexivity
    | apply keeps_on_comparator; intros ? ?; reflexivity ].

Section ViewportFacts.

Variable cv2_resize : ndarray -> Z -> Z -> interpolation -> result ndarray.

Lemma _zoom_in1_keeps_zoom (img : ndarray) :
  keeps (same_on zoom) (_zoom_in1 cv2_resize img).
Proof. unfold _zoom_in1. keeps_field. Qed.

Lemma _apply_view_transform_keeps_zoom (img : ndarray) :
  keeps (same_on zoom) (_apply_view_transform cv2_resize img).
Proof.
  unfold _apply_view_transform.
  apply keeps_bind; [typeclasses eauto | apply keeps_get; typeclasses eauto|].
  intros s. apply _zoom_in1_keeps_zoom.
Qed.

Lemma on_frame_changed_keeps_zoom (idx : Z) :
  keeps (same_on zoom) (on_frame_changed cv2_resize idx).
Proof.
  unfold on_frame_changed, _display_triplet, _set_pixmap.
  repeat first
    [ apply _apply_view_transform_keeps_zoom
    | keeps_step
    | apply keeps_modify; intros ?; reflexivity
    | apply keeps_on_comparator; intros ? ?; reflexivity ].
Qed.

(** The zoom stored by a wheel or keyboard request. *)
Lemma on_zoom_requested_zoom (delta : Q) (s : App) :
  zoom (final_state (on_zoom_requested cv2_resize delta s))
  = py_max (literal (1 # 10))
      (py_min 8 (fadd (zoom s) (if Qltb 0 delta then zoom_delta s
                                else (- zoom_delta s)%Q))).
Proof.
  unfold on_zoom_requested.
  rewrite final_state_bind. cbn [get].
  rewrite final_state_bind. cbn [modify].
  rewrite (on_frame_changed_keeps_zoom _ _). reflexivity.
Qed.

(** The literal [0.1] is the float64 just above one tenth. *)
Lemma literal_tenth :
  (literal (1 # 10) == 3602879701896397 # 36028797018963968)%Q /\
  (1 # 10 < literal (1 # 10))%Q /\ (literal (1 # 10) < 8)%Q.
Proof. repeat split. Qed.

Lemma py_clamp_range (x : Q) :
  (literal (1 # 10) <= py_max (literal (1 # 10)) (py_min 8 x) <= 8)%Q.
Proof.
  destruct literal_tenth as (_ & _ & Hlt).
  unfold py_max, py_min.
  destruct (Qltb x 8) eqn:E1.
  - apply Qltb_lt in E1.
    destruct (Qltb (literal (1 # 10)) x) eqn:E2.
    + apply Qltb_lt in E2. split; apply Qlt_le_weak; assumption.
    + split; [apply Qle_refl | now apply Qlt_le_weak].
  - destruct (Qltb (literal (1 # 10)) 8) eqn:E2.
    + split; [now apply Qlt_le_weak | apply Qle_refl].
    + apply Qltb_ge in E2. exfalso. exact (Qlt_not_le _ _ Hlt E2).
Qed.

(** The zoom stored by the fit-to-screen button: the fit ratio itself. *)
Lemma fit_to_screen_zoom (s : App) :
  zoom (final_state (fit_to_screen cv2_resize s))
  = match ref_info (comparator s) with
    | None => zoom s
    | Some ri =>
        let '(out_h, out_w) :=
          if (rotation_angle s =? 90) || (rotation_angle s =? 270)
          then (left_view_width s, left_view_height s)
          else (left_view_height s, left_view_width s) in
        if Qeq_bool (inject_Z (width ri)) 0 || Qeq_bool (inject_Z (height ri)) 0
        then zoom s
        else py_min (fdiv (inject_Z out_w) (inject_Z (width ri)))
                    (fdiv (inject_Z out_h) (inject_Z (height ri)))
    end.
Proof.
  unfold fit_to_screen.
  rewrite final_state_bind. cbn [get].
  destruct (ref_info (comparator s)) as [ri|]; [|reflexivity].
  destruct ((rotation_angle s =? 90) || (rotation_angle s =? 270)).
  - rewrite final_state_bind. unfold truediv at 1.
    destruct (Qeq_bool (inject_Z (width ri)) 0); [reflexivity|].
    cbn [lift orb]. rewrite final_state_bind. unfold truediv.
    destruct (Qeq_bool (inject_Z (height ri)) 0); [reflexivity|].
    cbn [lift]. rewrite final_state_bind. cbn [modify].
    rewrite final_state_bind. cbn [modify].
    rewrite (on_frame_changed_keeps_zoom _ _). reflexivity.
  - rewrite final_state_bind. unfold truediv at 1.
    destruct (Qeq_bool (inject_Z (width ri)) 0); [reflexivity|].
    cbn [lift orb]. rewrite final_state_bind. unfold truediv.
    destruct (Qeq_bool (inject_Z (height ri)) 0); [reflexivity|].
    cbn [lift]. rewrite final_state_bind. cbn [modify].
    rewrite final_state_bind. cbn [modify].
    rewrite (on_frame_changed_keeps_zoom _ _). reflexivity.
Qed.

(** C5, as the code has it. A wheel or keyboard zoom request stores a
    zoom within [0.1, 8.0], whatever the requested delta and the zoom
    before, [0.1] being the float64 of that literal; fit-to-screen stores
    the smaller of the two float64 quotients of label size by reference size
    as it is, without a clamp. *)
Theorem zoom_clamped_on_request (delta : Q) (s : App) :
  (literal (1 # 10)
     <= zoom (final_state (on_zoom_requested cv2_resize delta s)) <= 8)%Q /\
  (1 # 10 < literal (1 # 10))%Q /\
  zoom (final_state (fit_to_screen cv2_resize s))
  = match ref_info (comparator s) with
    | None => zoom s
    | Some ri =>
        let '(out_h, out_w) :=
          if (rotation_angle s =? 90) || (rotation_angle s =? 270)
          then (left_view_width s, left_view_height s)
          else (left_view_height s, left_view_width s) in
        if Qeq_bool (inject_Z (width ri)) 0 || Qeq_bool (inject_Z (height ri)) 0
        then zoom s
        else py_min (fdiv (inject_Z out_w) (inject_Z (width ri)))
                    (fdiv (inject_Z out_h) (inject_Z (height ri)))
    end.
Proof.
  split; [|split].
  - rewrite on_zoom_requested_zoom. apply py_clamp_range.
  - apply literal_tenth.
  - apply fit_to_screen_zoom.
Qed.

(** C10. Each rotation operation stores the new angle and the pan (0, 0)
    and only then refreshes the view: the refresh starts from a state whose
    pan is (0, 0), and the outcome does not depend on the pan before. *)
Theorem rotation_resets_pan (s : App) (px py : Z) :
  let before_refresh (a : Z) := set_pan 0 0 (set_rotation_angle a s) in
  (rotate_left cv2_resize s
     = on_frame_changed cv2_resize (frame_slider_value s)
         (before_refresh ((rotation_angle s - 90) mod 360)) /\
   rotate_right cv2_resize s
     = on_frame_changed cv2_resize (frame_slider_value s)
         (before_refresh ((rotation_angle s + 90) mod 360)) /\
   reset_rotation cv2_resize s
     = on_frame_changed cv2_resize (frame_slider_value s) (before_refresh 0)) /\
  (forall a, pan_x (before_refresh a) = 0 /\ pan_y (before_refresh a) = 0) /\
  (rotate_left cv2_resize (set_pan px py s) = rotate_left cv2_resize s /\
   rotate_right cv2_resize (set_pan px py s) = rotate_right cv2_resize s /\
   reset_rotation cv2_resize (set_pan px py s) = reset_rotation cv2_resize s).
Proof.
  intros before_refresh. repeat split.
Qed.

End ViewportFacts.

(** C5, as stated, fails: fit-to-screen on 4x4 frames in a 400x300 label
    stores the zoom 75. *)
Lemma fit_to_screen_exceeds_zoom_range :
  ~ (1 # 10 <= zoom (final_state (fit_to_screen sample_resize small_frames_app)) <= 8)%Q.
Proof.
  rewrite fit_to_screen_zoom. vm_compute.
  intros [_ H]. apply H. reflexivity.
Qed.

(** ** Rasters: proofs *)

Lemma slice_bounds_inside (n a b : Z) :
  0 <= a <= b -> b <= n -> slice_bounds n a b = (a, b).
Proof.
  intros Hab Hbn. unfold slice_bounds, slice_norm.
  destruct (a <? 0) eqn:Ea; [apply Z.ltb_lt in Ea; lia|].
  destruct (b <? 0) eqn:Eb; [apply Z.ltb_lt in Eb; lia|].
  f_equal; lia.
Qed.

Lemma nd_get_Some (a : ndarray) (y x : Z) (p : pixel) :
  nd_get a y x = Some p <->
  exists row, nd_px a !! Z.to_nat y = Some row /\ row !! Z.to_nat x = Some p.
Proof.
  unfold nd_get. destruct (nd_px a !! Z.to_nat y) as [row|]; simpl.
  - split; [intros H; exists row; auto | intros (r & [= <-] & H); exact H].
  - split; [discriminate | intros (r & [=] & _)].
Qed.

Lemma nd_wf_row (a : ndarray) (i : nat) (row : list pixel) :
  nd_wf a -> nd_px a !! i = Some row -> Z.of_nat (length row) = nd_w a.
Proof. intros (_ & _ & H) Hi. exact (Forall_lookup_1 _ _ _ _ H Hi). Qed.

(** Inside the shape of a well-formed array there is a pixel. *)
Lemma nd_get_inside (a : ndarray) (y x : Z) :
  nd_wf a -> 0 <= y < nd_h a -> 0 <= x < nd_w a -> is_Some (nd_get a y x).
Proof.
  intros Hwf Hy Hx.
  destruct (lookup_lt_is_Some_2 (nd_px a) (Z.to_nat y)) as [row Hrow].
  { destruct Hwf as (_ & Hh & _). lia. }
  destruct (lookup_lt_is_Some_2 row (Z.to_nat x)) as [p Hp].
  { pose proof (nd_wf_row a _ row Hwf Hrow). lia. }
  exists p. apply nd_get_Some. eauto.
Qed.

Lemma np_zeros_ok (h w : Z) :
  0 <= h -> 0 <= w ->
  exists z, np_zeros h w = Ok z /\ nd_wf z /\ nd_h z = h /\ nd_w z = w /\
            forall y x, 0 <= y < h -> 0 <= x < w -> nd_get z y x = Some black.
Proof.
  intros Hh Hw. unfold np_zeros.
  destruct ((h <? 0) || (w <? 0)) eqn:E.
  { apply orb_true_iff in E. destruct E as [E|E]; apply Z.ltb_lt in E; lia. }
  eexists. split; [reflexivity|]. repeat split; simpl.
  - exact Hw.
  - rewrite length_replicate. lia.
  - apply Forall_replicate. rewrite length_replicate. lia.
  - intros y x Hy Hx. apply nd_get_Some. simpl.
    exists (replicate (Z.to_nat w) black).
    split; apply lookup_replicate_2; lia.
Qed.

Lemma zero_fill_ok (a : ndarray) :
  nd_wf a ->
  nd_wf (zero_fill a) /\ nd_h (zero_fill a) = nd_h a /\ nd_w (zero_fill a) = nd_w a /\
  forall y x, 0 <= y < nd_h a -> 0 <= x < nd_w a ->
              nd_get (zero_fill a) y x = Some black.
Proof.
  intros Hwf. repeat split; simpl.
  - apply Hwf.
  - rewrite length_fmap. apply Hwf.
  - apply Forall_fmap. eapply Forall_impl; [apply Hwf|].
    intros row Hrow. simpl. now rewrite length_fmap.
  - intros y x Hy Hx.
    destruct (nd_get_inside a y x Hwf Hy Hx) as [p Hp].
    apply nd_get_Some in Hp. destruct Hp as (row & Hrow & Hp).
    apply nd_get_Some. simpl.
    exists ((fun _ : pixel => black) <$> row). split.
    + now rewrite list_lookup_fmap, Hrow.
    + now rewrite list_lookup_fmap, Hp.
Qed.

Lemma py_slice_inside {A} (l : list A) (a b : Z) :
  0 <= a <= b -> b <= Z.of_nat (length l) ->
  py_slice l a b = take (Z.to_nat (b - a)) (drop (Z.to_nat a) l).
Proof.
  intros Hab Hb. unfold py_slice. now rewrite slice_bounds_inside.
Qed.

Lemma length_py_slice {A} (l : list A) (a b : Z) :
  0 <= a <= b -> b <= Z.of_nat (length l) ->
  Z.of_nat (length (py_slice l a b)) = b - a.
Proof.
  intros Hab Hb. rewrite py_slice_inside by assumption.
  rewrite length_take, length_drop. lia.
Qed.

Lemma lookup_py_slice {A} (l : list A) (a b : Z) (i : nat) :
  0 <= a <= b -> b <= Z.of_nat (length l) -> Z.of_nat i < b - a ->
  py_slice l a b !! i = l !! (Z.to_nat a + i)%nat.
Proof.
  intros Hab Hb Hi. rewrite py_slice_inside by assumption.
  rewrite lookup_take_lt by lia. apply lookup_drop.
Qed.

(** A slice inside the array: its shape and its pixels. *)
Lemma nd_slice_ok (a : ndarray) (r0 r1 c0 c1 : Z) :
  nd_wf a -> 0 <= r0 <= r1 -> r1 <= nd_h a -> 0 <= c0 <= c1 -> c1 <= nd_w a ->
  let c := nd_slice a r0 r1 c0 c1 in
  nd_wf c /\ nd_h c = r1 - r0 /\ nd_w c = c1 - c0 /\
  forall y x, 0 <= y < r1 - r0 -> 0 <= x < c1 - c0 ->
              nd_get c y x = nd_get a (r0 + y) (c0 + x).
Proof.
  intros Hwf Hr Hr1 Hc Hc1 c. subst c. unfold nd_slice.
  rewrite !slice_bounds_inside by assumption.
  destruct Hwf as (Hw0 & Hh & Hrows).
  assert (Hrow : forall i row, py_slice (nd_px a) r0 r1 !! i = Some row ->
                               Z.of_nat (length row) = nd_w a).
  { intros i row Hi. rewrite py_slice_inside in Hi by lia.
    apply lookup_take_Some in Hi. destruct Hi as [Hi _].
    rewrite lookup_drop in Hi. exact (Forall_lookup_1 _ _ _ _ Hrows Hi). }
  repeat split; simpl.
  - lia.
  - rewrite length_fmap. apply length_py_slice; lia.
  - apply Forall_fmap. apply Forall_lookup_2. intros i row Hi. simpl.
    apply length_py_slice; [lia|]. rewrite (Hrow i row Hi). lia.
  - intros y x Hy Hx. unfold nd_get. simpl.
    rewrite list_lookup_fmap.
    rewrite lookup_py_slice by lia.
    replace (Z.to_nat r0 + Z.to_nat y)%nat with (Z.to_nat (r0 + y)) by lia.
    destruct (nd_px a !! Z.to_nat (r0 + y)) as [row|] eqn:E; simpl; [|reflexivity].
    pose proof (Forall_lookup_1 _ _ _ _ Hrows E) as Hlen. simpl in Hlen.
    rewrite lookup_py_slice by lia.
    f_equal. lia.
Qed.

Lemma broadcast_same {A} (n : Z) (src : list A) :
  Z.of_nat (length src) = n -> broadcast n src = Ok src.
Proof. intros H. unfold broadcast. now rewrite (proj2 (Z.eqb_eq _ _) H). Qed.

Lemma broadcast_rows_same (n : Z) (rows : list (list pixel)) :
  Forall (fun row => Z.of_nat (length row) = n) rows ->
  broadcast_rows n rows = Ok rows.
Proof.
  induction 1 as [|row rows Hrow _ IH]; simpl; [reflexivity|].
  rewrite (broadcast_same n row Hrow). simpl. now rewrite IH.
Qed.

Lemma length_paste_row (ca cb : Z) (row src_row : list pixel) :
  0 <= ca <= cb -> cb <= Z.of_nat (length row) ->
  Z.of_nat (length src_row) = cb - ca ->
  length (paste_row ca cb row src_row) = length row.
Proof.
  intros Hc Hcb Hs. unfold paste_row.
  rewrite !length_app, length_take, length_drop. lia.
Qed.

Lemma lookup_paste_row (ca cb : Z) (row src_row : list pixel) (j : nat) :
  0 <= ca <= cb -> cb <= Z.of_nat (length row) ->
  Z.of_nat (length src_row) = cb - ca ->
  paste_row ca cb row src_row !! j
  = if (ca <=? Z.of_nat j) && (Z.of_nat j <? cb)
    then src_row !! (j - Z.to_nat ca)%nat
    else row !! j.
Proof.
  intros Hc Hcb Hs. unfold paste_row.
  destruct (ca <=? Z.of_nat j) eqn:E1; simpl.
  - apply Z.leb_le in E1.
    rewrite lookup_app_r by (rewrite length_take; lia).
    rewrite length_take.
    replace (j - Nat.min (Z.to_nat ca) (length row))%nat
      with (j - Z.to_nat ca)%nat by lia.
    destruct (Z.of_nat j <? cb) eqn:E2.
    + apply Z.ltb_lt in E2. apply lookup_app_l. lia.
    + apply Z.ltb_ge in E2.
      rewrite lookup_app_r by lia. rewrite lookup_drop. f_equal. lia.
  - apply Z.leb_gt in E1.
    rewrite lookup_app_l by (rewrite length_take; lia).
    apply lookup_take_lt. lia.
Qed.

(** Writing a block of matching extents into an array: the block lands in
    its rectangle, every other pixel keeps its value. *)
Lemma nd_set_slice_ok (a src : ndarray) (r0 r1 c0 c1 : Z) :
  nd_wf a -> nd_wf src ->
  0 <= r0 <= r1 -> r1 <= nd_h a -> 0 <= c0 <= c1 -> c1 <= nd_w a ->
  nd_h src = r1 - r0 -> nd_w src = c1 - c0 ->
  exists a', nd_set_slice a r0 r1 c0 c1 src = Ok a' /\
             nd_wf a' /\ nd_h a' = nd_h a /\ nd_w a' = nd_w a /\
             forall y x, 0 <= y < nd_h a -> 0 <= x < nd_w a ->
               nd_get a' y x
               = if (r0 <=? y) && (y <? r1) && (c0 <=? x) && (x <? c1)
                 then nd_get src (y - r0) (x - c0)
                 else nd_get a y x.
Proof.
  intros (Haw & Hah & Harows) (Hsw & Hsh & Hsrows) Hr Hr1 Hc Hc1 Hsrc_h Hsrc_w.
  unfold nd_set_slice.
  rewrite !slice_bounds_inside by assumption.
  rewrite Hsrc_h, Hsrc_w, !Z.eqb_refl. cbn [orb andb].
  rewrite broadcast_same by lia. cbn [rbind].
  rewrite broadcast_rows_same
    by (eapply Forall_impl; [exact Hsrows|]; intros; simpl in *; lia).
  cbn [rbind].
  set (mid := zip_with (paste_row c0 c1)
                (take (Z.to_nat (r1 - r0)) (drop (Z.to_nat r0) (nd_px a)))
                (nd_px src)).
  assert (Hmid_len : length mid = Z.to_nat (r1 - r0)).
  { subst mid. rewrite length_zip_with, length_take, length_drop. lia. }
  assert (Hmid : forall i, (i < Z.to_nat (r1 - r0))%nat ->
            exists row srow,
              nd_px a !! (Z.to_nat r0 + i)%nat = Some row /\
              nd_px src !! i = Some srow /\
              mid !! i = Some (paste_row c0 c1 row srow)).
  { intros i Hi.
    destruct (lookup_lt_is_Some_2 (nd_px a) (Z.to_nat r0 + i)) as [row Hrow]; [lia|].
    destruct (lookup_lt_is_Some_2 (nd_px src) i) as [srow Hsrow]; [lia|].
    exists row, srow. repeat split; try assumption.
    subst mid. rewrite lookup_zip_with.
    rewrite lookup_take_lt by lia. rewrite lookup_drop, Hrow. simpl.
    now rewrite Hsrow. }
  eexists. split; [reflexivity|]. repeat split; simpl.
  - exact Haw.
  - rewrite !length_app, length_take, length_drop, Hmid_len. lia.
  - apply Forall_lookup_2. intros i row Hi.
    destruct (decide (i < Z.to_nat r0)%nat) as [Hlt|Hge].
    { rewrite lookup_app_l in Hi by (rewrite length_take; lia).
      rewrite lookup_take_lt in Hi by lia.
      exact (Forall_lookup_1 _ _ _ _ Harows Hi). }
    rewrite lookup_app_r in Hi by (rewrite length_take; lia).
    rewrite length_take in Hi.
    replace (i - Nat.min (Z.to_nat r0) (length (nd_px a)))%nat
      with (i - Z.to_nat r0)%nat in Hi by lia.
    destruct (decide (i - Z.to_nat r0 < Z.to_nat (r1 - r0))%nat) as [Hin|Hout].
    + rewrite lookup_app_l in Hi by lia.
      destruct (Hmid _ Hin) as (row' & srow & Hrow' & Hsrow & Hm).
      rewrite Hm in Hi. injection Hi as <-.
      pose proof (Forall_lookup_1 _ _ _ _ Harows Hrow') as H1.
      pose proof (Forall_lookup_1 _ _ _ _ Hsrows Hsrow) as H2.
      simpl in H1, H2.
      rewrite length_paste_row; lia.
    + rewrite lookup_app_r in Hi by lia.
      rewrite lookup_drop in Hi.
      exact (Forall_lookup_1 _ _ _ _ Harows Hi).
  - intros y x Hy Hx. unfold nd_get at 1. simpl.
    destruct (r0 <=? y) eqn:E1; simpl.
    + apply Z.leb_le in E1.
      rewrite lookup_app_r by (rewrite length_take; lia).
      rewrite length_take.
      replace (Z.to_nat y - Nat.min (Z.to_nat r0) (length (nd_px a)))%nat
        with (Z.to_nat (y - r0)) by lia.
      destruct (y <? r1) eqn:E2; simpl.
      * apply Z.ltb_lt in E2.
        rewrite lookup_app_l by lia.
        destruct (Hmid (Z.to_nat (y - r0))) as (row & srow & Hrow & Hsrow & Hm); [lia|].
        rewrite Hm. simpl.
        pose proof (Forall_lookup_1 _ _ _ _ Harows Hrow) as H1.
        pose proof (Forall_lookup_1 _ _ _ _ Hsrows Hsrow) as H2.
        simpl in H1, H2.
        rewrite lookup_paste_row by lia.
        rewrite !Z2Nat.id by lia.
        replace (Z.to_nat r0 + Z.to_nat (y - r0))%nat with (Z.to_nat y) in Hrow by lia.
        unfold nd_get. rewrite Hrow, Hsrow. simpl.
        destruct ((c0 <=? x) && (x <? c1)); [|reflexivity].
        f_equal. lia.
      * apply Z.ltb_ge in E2.
        rewrite lookup_app_r by lia.
        rewrite lookup_drop, Hmid_len. unfold nd_get.
        replace (Z.to_nat r1 + (Z.to_nat (y - r0) - Z.to_nat (r1 - r0)))%nat
          with (Z.to_nat y) by lia.
        reflexivity.
    + apply Z.leb_gt in E1.
      rewrite lookup_app_l by (rewrite length_take; lia).
      rewrite lookup_take_lt by lia. reflexivity.
Qed.

(** ** The crop window: proofs *)

Lemma crop_extent_even (out : Z) (z : Q) (c : Z) :
  crop_extent out z = Ok c -> c = 2 * (c / 2).
Proof.
  unfold crop_extent, floordiv.
  destruct (Qeq_bool z 0); cbn [rbind]; [discriminate|].
  intros [= <-]. rewrite Z.div_mul by lia. lia.
Qed.

(** A positive zoom and a label of non-negative extent give a crop extent. *)
Lemma crop_extent_pos (out : Z) (z : Q) :
  (0 < z)%Q -> 0 <= out -> exists c, crop_extent out z = Ok c /\ 0 <= c.
Proof.
  intros Hz Hout. unfold crop_extent, floordiv.
  destruct (Qeq_bool z 0) eqn:E.
  { apply Qeq_bool_iff in E. rewrite E in Hz. exfalso. exact (Qlt_irrefl _ Hz). }
  cbn [rbind]. eexists. split; [reflexivity|].
  assert (0 <= Qfloor (inject_Z out / z)).
  { change 0 with (Qfloor (inject_Z 0)). apply Qfloor_resp_le.
    apply Qle_shift_div_l; [exact Hz|].
    rewrite Qmult_0_l. change 0%Q with (inject_Z 0). now rewrite <- Zle_Qle. }
  apply Z.mul_nonneg_nonneg; [|lia]. apply Z.div_pos; lia.
Qed.

(** The window lies inside the image, its destination inside the buffer,
    and the two have the same extent. *)
Lemma axis_window (dim crop pan : Z) :
  0 <= dim -> 0 <= crop -> crop = 2 * (crop / 2) ->
  0 <= crop_start dim crop pan <= crop_end dim crop pan /\
  crop_end dim crop pan <= dim /\
  0 <= paste_start dim crop pan <= paste_end dim crop pan /\
  paste_end dim crop pan <= crop /\
  crop_end dim crop pan - crop_start dim crop pan
  = paste_end dim crop pan - paste_start dim crop pan.
Proof.
  intros Hdim Hcrop Heven.
  unfold paste_start, paste_end, crop_start, crop_end, pan_clamped, np_clip.
  pose proof (Z.div_mod dim 2 ltac:(lia)) as Hd.
  pose proof (Z.mod_pos_bound dim 2 ltac:(lia)) as Hm.
  set (a := dim / 2) in *. set (k := crop / 2) in *.
  destruct (Z.le_gt_cases k a) as [Hle|Hgt].
  - assert (Hc : -a + k <= Z.min (Z.max pan (-a + k)) (a - k) <= a - k) by lia.
    set (c := Z.min (Z.max pan (-a + k)) (a - k)) in *.
    replace (a + c + k - Z.max 0 (a + c - k)) with (k * 2) by lia.
    rewrite Z.div_mul by lia. lia.
  - assert (Hc : Z.min (Z.max pan (-a + k)) (a - k) = a - k) by lia.
    rewrite Hc.
    replace (a + (a - k) + k - Z.max 0 (a + (a - k) - k)) with (a * 2) by lia.
    rewrite Z.div_mul by lia. lia.
Qed.

(** The crop fits the image: the pan is clamped into the valid range and the
    crop fills the whole buffer. *)
Lemma axis_fits (dim crop pan : Z) :
  0 <= crop -> crop = 2 * (crop / 2) -> crop <= dim ->
  - (dim / 2) + crop / 2 <= pan_clamped dim crop pan <= dim / 2 - crop / 2 /\
  paste_start dim crop pan = 0 /\ paste_end dim crop pan = crop.
Proof.
  intros Hcrop Heven Hfit.
  unfold paste_start, paste_end, crop_start, crop_end, pan_clamped, np_clip.
  pose proof (Z.div_mod dim 2 ltac:(lia)) as Hd.
  pose proof (Z.mod_pos_bound dim 2 ltac:(lia)) as Hm.
  set (a := dim / 2) in *. set (k := crop / 2) in *.
  assert (Hle : k <= a) by lia.
  assert (Hc : -a + k <= Z.min (Z.max pan (-a + k)) (a - k) <= a - k) by lia.
  set (c := Z.min (Z.max pan (-a + k)) (a - k)) in *.
  replace (a + c + k - Z.max 0 (a + c - k)) with (k * 2) by lia.
  rewrite Z.div_mul by lia. lia.
Qed.

(** The crop exceeds the image: whatever the requested pan, the clamp gives
    the upper bound, which is negative; the window is the image from its
    first row or column on, pasted in the middle of the buffer. *)
Lemma axis_degenerate (dim crop pan : Z) :
  0 <= dim -> crop = 2 * (crop / 2) -> dim < crop ->
  pan_clamped dim crop pan = dim / 2 - crop / 2 /\
  pan_clamped dim crop pan < 0 /\
  crop_start dim crop pan = 0 /\
  crop_end dim crop pan = 2 * (dim / 2) /\
  paste_start dim crop pan = crop / 2 - dim / 2 /\
  paste_end dim crop pan = crop / 2 + dim / 2.
Proof.
  intros Hdim Heven Hbig.
  unfold paste_start, paste_end, crop_start, crop_end, pan_clamped, np_clip.
  pose proof (Z.div_mod dim 2 ltac:(lia)) as Hd.
  pose proof (Z.mod_pos_bound dim 2 ltac:(lia)) as Hm.
  set (a := dim / 2) in *. set (k := crop / 2) in *.
  assert (Hgt : a < k) by lia.
  assert (Hc : Z.min (Z.max pan (-a + k)) (a - k) = a - k) by lia.
  rewrite Hc.
  replace (a + (a - k) + k - Z.max 0 (a + (a - k) - k)) with (a * 2) by lia.
  rewrite Z.div_mul by lia. lia.
Qed.

Lemma nd_wf_nonneg (a : ndarray) : nd_wf a -> 0 <= nd_h a /\ 0 <= nd_w a.
Proof. intros (Hw & Hh & _). lia. Qed.

(** The paste of [_zoom_in1] into a cleared buffer of even extents. *)
Lemma paste_crop_ok (buf img : ndarray) (pan_y pan_x : Z) :
  nd_wf buf -> nd_wf img ->
  nd_h buf = 2 * (nd_h buf / 2) -> nd_w buf = 2 * (nd_w buf / 2) ->
  (forall y x, 0 <= y < nd_h buf -> 0 <= x < nd_w buf ->
               nd_get buf y x = Some black) ->
  exists filled,
    nd_set_slice buf
      (paste_start (nd_h img) (nd_h buf) pan_y) (paste_end (nd_h img) (nd_h buf) pan_y)
      (paste_start (nd_w img) (nd_w buf) pan_x) (paste_end (nd_w img) (nd_w buf) pan_x)
      (nd_slice img
         (crop_start (nd_h img) (nd_h buf) pan_y) (crop_end (nd_h img) (nd_h buf) pan_y)
         (crop_start (nd_w img) (nd_w buf) pan_x) (crop_end (nd_w img) (nd_w buf) pan_x))
    = Ok filled /\
    crop_pasted img (nd_h buf) (nd_w buf) pan_y pan_x filled.
Proof.
  intros Hbuf Himg Heh Hew Hblack.
  destruct (nd_wf_nonneg buf Hbuf) as [Hbh Hbw].
  destruct (nd_wf_nonneg img Himg) as [Hih Hiw].
  destruct (axis_window (nd_h img) (nd_h buf) pan_y Hih Hbh Heh)
    as (Hcs & Hce & Hps & Hpe & Hext).
  destruct (axis_window (nd_w img) (nd_w buf) pan_x Hiw Hbw Hew)
    as (Hcs' & Hce' & Hps' & Hpe' & Hext').
  destruct (nd_slice_ok img _ _ _ _ Himg Hcs Hce Hcs' Hce')
    as (Hcwf & Hch & Hcw & Hcget).
  destruct (nd_set_slice_ok buf _ _ _ _ _ Hbuf Hcwf Hps Hpe Hps' Hpe')
    as (filled & Hset & Hfwf & Hfh & Hfw & Hfget); [lia | lia |].
  exists filled. split; [exact Hset|].
  repeat split; try assumption; try apply Hfwf.
  intros y x Hy Hx. rewrite (Hfget y x Hy Hx). unfold in_paste.
  destruct ((paste_start (nd_h img) (nd_h buf) pan_y <=? y) &&
            (y <? paste_end (nd_h img) (nd_h buf) pan_y) &&
            (paste_start (nd_w img) (nd_w buf) pan_x <=? x) &&
            (x <? paste_end (nd_w img) (nd_w buf) pan_x)) eqn:E.
  - rewrite !andb_true_iff in E.
    destruct E as [[[E1 E2] E3] E4].
    apply Z.leb_le in E1, E3. apply Z.ltb_lt in E2, E4.
    apply Hcget; lia.
  - apply Hblack; assumption.
Qed.

Lemma shape3_eqb_eq (s t : Z * Z * Z) : shape3_eqb s t = true -> s = t.
Proof.
  destruct s as [[a b] c], t as [[a' b'] c']. unfold shape3_eqb.
  rewrite !andb_true_iff, !Z.eqb_eq. intros [[-> ->] ->]. reflexivity.
Qed.

Section ZoomIn.

Variable cv2_resize : ndarray -> Z -> Z -> interpolation -> result ndarray.

(** One run of [_zoom_in1]: the scratch buffer is filled with the crop,
    and the call ends, whether the resize returns or refuses, in
    [zoomed_state]. *)
Lemma _zoom_in1_run (s : App) (img : ndarray) (crop_h crop_w : Z) :
  zoom_buffer_inv s -> nd_wf img ->
  crop_extent (left_view_height s) (zoom s) = Ok crop_h ->
  crop_extent (left_view_width s) (zoom s) = Ok crop_w ->
  0 <= crop_h -> 0 <= crop_w ->
  exists filled,
    crop_pasted img crop_h crop_w (pan_y s) (pan_x s) filled /\
    _zoom_in1 cv2_resize img s
    = lift (cv2_resize filled (left_view_width s) (left_view_height s) INTER_NEAREST)
           (zoomed_state s (nd_h img) (nd_w img) crop_h crop_w filled).
Proof.
  intros Hinv Himg Hch Hcw Hh Hw.
  pose proof (crop_extent_even _ _ _ Hch) as Heh.
  pose proof (crop_extent_even _ _ _ Hcw) as Hew.
  unfold _zoom_in1, bind at 1, get at 1. rewrite Hch.
  unfold bind at 1, lift at 1. rewrite Hcw.
  unfold bind at 1, lift at 1.
  unfold bind at 1.
  destruct (shape_differs (_zoom_buffer_shape s) (crop_h, crop_w, 3)) eqn:Ed.
  - destruct (np_zeros_ok crop_h crop_w Hh Hw) as (z & Hz & Hzwf & Hzh & Hzw & Hzget).
    unfold bind at 1, lift at 1. rewrite Hz. cbn [modify].
    unfold bind at 1. cbn [modify]. unfold bind at 1. cbn [get].
    cbn [_zoom_buffer set_pan set_new_zoom_buffer].
    destruct (paste_crop_ok z img (pan_y s) (pan_x s) Hzwf Himg)
      as (filled & Hset & Hpasted); try (rewrite ?Hzh, ?Hzw; assumption).
    rewrite Hzh, Hzw in *.
    exists filled. split; [exact Hpasted|].
    match goal with
    | |- context [lift (nd_set_slice ?a ?r0 ?r1 ?c0 ?c1 ?c)] =>
        replace (nd_set_slice a r0 r1 c0 c1 c) with (Ok filled)
          by (symmetry; exact Hset)
    end.
    unfold bind, modify, lift, ret, zoomed_state. rewrite Ed.
    destruct (cv2_resize filled _ _ _); reflexivity.
  - unfold shape_differs in Ed.
    destruct (_zoom_buffer_shape s) as [cur|] eqn:Es; [|discriminate].
    apply negb_false_iff, shape3_eqb_eq in Ed. subst cur.
    unfold zoom_buffer_inv in Hinv. rewrite Es in Hinv.
    destruct Hinv as (b & Hb & Hbwf & Hbh & Hbw & Hid).
    rewrite Hb. cbn [modify].
    unfold bind at 1. cbn [modify]. unfold bind at 1. cbn [get].
    cbn [_zoom_buffer set_pan set_zoom_buffer_data].
    destruct (zero_fill_ok (obj_data b) Hbwf) as (Hzwf & Hzh & Hzw & Hzget).
    destruct (paste_crop_ok (zero_fill (obj_data b)) img (pan_y s) (pan_x s) Hzwf Himg)
      as (filled & Hset & Hpasted); try (rewrite ?Hzh, ?Hzw, ?Hbh, ?Hbw; assumption).
    { intros y x Hy Hx. apply Hzget; lia. }
    rewrite Hzh, Hzw, Hbh, Hbw in *.
    exists filled. split; [exact Hpasted|].
    match goal with
    | |- context [lift (nd_set_slice ?a ?r0 ?r1 ?c0 ?c1 ?c)] =>
        replace (nd_set_slice a r0 r1 c0 c1 c) with (Ok filled)
          by (symmetry; exact Hset)
    end.
    unfold bind, modify, lift, ret, zoomed_state, shape_differs.
    rewrite Es, Hb.
    replace (shape3_eqb (crop_h, crop_w, 3) (crop_h, crop_w, 3)) with true
      by (unfold shape3_eqb; now rewrite !Z.eqb_refl).
    cbn [negb].
    destruct (cv2_resize filled _ _ _); unfold set_zoom_buffer_data, set_pan;
      cbn; rewrite ?Es; reflexivity.
Qed.

End ZoomIn.

(** ** Rotation and the render entry: proofs *)

Lemma final_state_lift {S A} (r : result A) (s : S) : final_state (lift r s) = s.
Proof. unfold lift. destruct r; reflexivity. Qed.

Lemma solid_wf (h w : nat) (p : pixel) : nd_wf (solid h w p).
Proof.
  repeat split; simpl.
  - lia.
  - now rewrite length_replicate.
  - apply Forall_replicate. now rewrite length_replicate.
Qed.

Lemma length_columns (a : ndarray) : length (columns a) = Z.to_nat (nd_w a).
Proof. unfold columns. now rewrite length_fmap, length_seq. Qed.

Lemma Forall_columns (a : ndarray) :
  Forall (fun col => length col = length (nd_px a)) (columns a).
Proof.
  unfold columns. apply Forall_fmap, Forall_forall. intros j _.
  simpl. unfold column. now rewrite length_fmap.
Qed.

Lemma rotate_90_clockwise_wf (a : ndarray) : nd_wf a -> nd_wf (rotate_90_clockwise a).
Proof.
  intros (Hw & Hh & Hrows). repeat split; simpl.
  - lia.
  - rewrite length_fmap, length_columns. lia.
  - apply Forall_fmap. eapply Forall_impl; [apply Forall_columns|].
    intros col Hcol. unfold compose. simpl in *. rewrite length_reverse. lia.
Qed.

Lemma rotate_180_wf (a : ndarray) : nd_wf a -> nd_wf (rotate_180 a).
Proof.
  intros (Hw & Hh & Hrows). repeat split; simpl.
  - exact Hw.
  - now rewrite length_reverse, length_fmap.
  - apply Forall_reverse, Forall_fmap. eapply Forall_impl; [exact Hrows|].
    intros row Hrow. simpl. now rewrite length_reverse.
Qed.

Lemma rotate_90_counterclockwise_wf (a : ndarray) :
  nd_wf a -> nd_wf (rotate_90_counterclockwise a).
Proof.
  intros (Hw & Hh & Hrows). repeat split; simpl.
  - lia.
  - rewrite length_reverse, length_columns. lia.
  - apply Forall_reverse. eapply Forall_impl; [apply Forall_columns|].
    intros col Hcol. simpl in *. lia.
Qed.

Lemma rotated_wf (angle : Z) (img : ndarray) : nd_wf img -> nd_wf (rotated angle img).
Proof.
  intros H. unfold rotated.
  destruct (angle =? 90); [now apply rotate_90_clockwise_wf|].
  destruct (angle =? 180); [now apply rotate_180_wf|].
  destruct (angle =? 270); [now apply rotate_90_counterclockwise_wf|].
  exact H.
Qed.

(** A quarter turn swaps the extents, a half turn keeps them. *)
Lemma rotated_shape (angle : Z) (img : ndarray) :
  shape2 (rotated angle img)
  = if (angle =? 90) || (angle =? 270) then (nd_w img, nd_h img)
    else (nd_h img, nd_w img).
Proof.
  unfold rotated, shape2.
  destruct (angle =? 90) eqn:E90; [reflexivity|].
  destruct (angle =? 180) eqn:E180.
  { apply Z.eqb_eq in E180. subst. reflexivity. }
  destruct (angle =? 270); reflexivity.
Qed.

Section RenderFacts.

Variable cv2_resize : ndarray -> Z -> Z -> interpolation -> result ndarray.

Lemma _apply_view_transform_rotated (img : ndarray) (s : App) :
  _apply_view_transform cv2_resize img s
  = _zoom_in1 cv2_resize (rotated (rotation_angle s) img) s.
Proof. reflexivity. Qed.

(** The state a render call ends in. *)
Lemma render_final_state (s : App) (img : ndarray) (crop_h crop_w : Z) :
  zoom_buffer_inv s -> nd_wf img ->
  (0 < zoom s)%Q -> 0 <= left_view_height s -> 0 <= left_view_width s ->
  crop_extent (left_view_height s) (zoom s) = Ok crop_h ->
  crop_extent (left_view_width s) (zoom s) = Ok crop_w ->
  let r := rotated (rotation_angle s) img in
  exists filled,
    crop_pasted r crop_h crop_w (pan_y s) (pan_x s) filled /\
    final_state (_apply_view_transform cv2_resize img s)
    = zoomed_state s (nd_h r) (nd_w r) crop_h crop_w filled.
Proof.
  intros Hinv Himg Hz Hvh Hvw Hch Hcw r.
  destruct (crop_extent_pos _ _ Hz Hvh) as (ch & Hch' & Hch0).
  destruct (crop_extent_pos _ _ Hz Hvw) as (cw & Hcw' & Hcw0).
  rewrite Hch in Hch'. rewrite Hcw in Hcw'.
  injection Hch' as <-. injection Hcw' as <-.
  destruct (_zoom_in1_run cv2_resize s r crop_h crop_w Hinv
              (rotated_wf _ _ Himg) Hch Hcw Hch0 Hcw0)
    as (filled & Hpasted & Hrun).
  exists filled. split; [exact Hpasted|].
  rewrite _apply_view_transform_rotated. fold r. rewrite Hrun.
  apply final_state_lift.
Qed.

End RenderFacts.

Section ViewportLaws.

Variable cv2_resize : ndarray -> Z -> Z -> interpolation -> result ndarray.

(** C1. When the crop window fits inside the rotated image, a render call
    leaves in the viewport state a pan inside
    [-halfImg + crop/2, halfImg - crop/2] on both axes: the requested pan
    brought to the nearest bound of that range. *)
Theorem pan_clamp_law (s : App) (img : ndarray) (crop_h crop_w : Z) :
  zoom_buffer_inv s -> nd_wf img ->
  (0 < zoom s)%Q -> 0 <= left_view_height s -> 0 <= left_view_width s ->
  crop_extent (left_view_height s) (zoom s) = Ok crop_h ->
  crop_extent (left_view_width s) (zoom s) = Ok crop_w ->
  let r := rotated (rotation_angle s) img in
  crop_h <= nd_h r -> crop_w <= nd_w r ->
  let s' := final_state (_apply_view_transform cv2_resize img s) in
  - (nd_h r / 2) + crop_h / 2 <= pan_y s' <= nd_h r / 2 - crop_h / 2 /\
  - (nd_w r / 2) + crop_w / 2 <= pan_x s' <= nd_w r / 2 - crop_w / 2 /\
  pan_y s'
    = Z.min (Z.max (pan_y s) (- (nd_h r / 2) + crop_h / 2)) (nd_h r / 2 - crop_h / 2) /\
  pan_x s'
    = Z.min (Z.max (pan_x s) (- (nd_w r / 2) + crop_w / 2)) (nd_w r / 2 - crop_w / 2).
Proof.
  intros Hinv Himg Hz Hvh Hvw Hch Hcw r Hfh Hfw s'.
  destruct (render_final_state cv2_resize s img crop_h crop_w
              Hinv Himg Hz Hvh Hvw Hch Hcw) as (filled & _ & Hfinal).
  fold r in Hfinal. subst s'. rewrite Hfinal. cbn [pan_x pan_y zoomed_state].
  destruct (crop_extent_pos _ _ Hz Hvh) as (ch & Hch' & Hch0).
  destruct (crop_extent_pos _ _ Hz Hvw) as (cw & Hcw' & Hcw0).
  rewrite Hch in Hch'. rewrite Hcw in Hcw'.
  injection Hch' as <-. injection Hcw' as <-.
  destruct (axis_fits (nd_h r) crop_h (pan_y s) Hch0 (crop_extent_even _ _ _ Hch) Hfh)
    as (Hy & _ & _).
  destruct (axis_fits (nd_w r) crop_w (pan_x s) Hcw0 (crop_extent_even _ _ _ Hcw) Hfw)
    as (Hx & _ & _).
  repeat split; try apply Hy; try apply Hx.
Qed.

(** C4, as the code has it. When the crop window is taller than the
    rotated image, every requested vertical pan is replaced by the same
    value, [halfImgH - cropH/2], which is negative, not 0. With that pan
    the rows [0, 2 * halfImgH) of the image (all of them when the height is
    even) are copied to the rows [cropH/2 - halfImgH, cropH/2 + halfImgH)
    of the crop buffer, the same margin above and below, and the rest of
    the buffer is black. *)
Theorem degenerate_pan_forced (s : App) (img : ndarray) (crop_h crop_w : Z) :
  zoom_buffer_inv s -> nd_wf img ->
  (0 < zoom s)%Q -> 0 <= left_view_height s -> 0 <= left_view_width s ->
  crop_extent (left_view_height s) (zoom s) = Ok crop_h ->
  crop_extent (left_view_width s) (zoom s) = Ok crop_w ->
  let r := rotated (rotation_angle s) img in
  nd_h r < crop_h ->
  let s' := final_state (_apply_view_transform cv2_resize img s) in
  let top := crop_h / 2 - nd_h r / 2 in
  pan_y s' = nd_h r / 2 - crop_h / 2 /\
  pan_y s' < 0 /\
  0 < top /\ crop_h - (crop_h / 2 + nd_h r / 2) = top /\
  exists b,
    _zoom_buffer s' = Some b /\
    nd_h (obj_data b) = crop_h /\ nd_w (obj_data b) = crop_w /\
    forall y x, 0 <= y < crop_h -> 0 <= x < crop_w ->
      nd_get (obj_data b) y x
      = if (top <=? y) && (y <? top + 2 * (nd_h r / 2)) &&
           (paste_start (nd_w r) crop_w (pan_x s) <=? x) &&
           (x <? paste_end (nd_w r) crop_w (pan_x s))
        then nd_get r (y - top)
               (crop_start (nd_w r) crop_w (pan_x s)
                + (x - paste_start (nd_w r) crop_w (pan_x s)))
        else Some black.
Proof.
  intros Hinv Himg Hz Hvh Hvw Hch Hcw r Hbig s' top.
  destruct (render_final_state cv2_resize s img crop_h crop_w
              Hinv Himg Hz Hvh Hvw Hch Hcw) as (filled & Hpasted & Hfinal).
  fold r in Hfinal, Hpasted. subst s'. rewrite Hfinal.
  cbn [pan_y _zoom_buffer zoomed_state].
  destruct (nd_wf_nonneg r (rotated_wf _ _ Himg)) as [Hrh _].
  pose proof (crop_extent_even _ _ _ Hch) as Heven.
  destruct (axis_degenerate (nd_h r) crop_h (pan_y s) Hrh Heven Hbig)
    as (Hpan & Hneg & Hcs & Hce & Hps & Hpe).
  destruct Hpasted as (Hfwf & Hfh & Hfw & Hfget).
  subst top.
  split; [exact Hpan|]. split; [exact Hneg|].
  split; [lia|]. split; [lia|].
  eexists. split; [reflexivity|]. cbn [obj_data].
  split; [exact Hfh|]. split; [exact Hfw|].
  intros y x Hy Hx. rewrite (Hfget y x Hy Hx).
  unfold in_paste. rewrite Hps, Hpe, Hcs.
  replace (crop_h / 2 - nd_h r / 2 + 2 * (nd_h r / 2))
    with (crop_h / 2 + nd_h r / 2) by lia.
  reflexivity.
Qed.

(** The same on the horizontal axis. *)
Lemma degenerate_pan_x (s : App) (img : ndarray) (crop_h crop_w : Z) :
  zoom_buffer_inv s -> nd_wf img ->
  (0 < zoom s)%Q -> 0 <= left_view_height s -> 0 <= left_view_width s ->
  crop_extent (left_view_height s) (zoom s) = Ok crop_h ->
  crop_extent (left_view_width s) (zoom s) = Ok crop_w ->
  let r := rotated (rotation_angle s) img in
  nd_w r < crop_w ->
  let s' := final_state (_apply_view_transform cv2_resize img s) in
  pan_x s' = nd_w r / 2 - crop_w / 2 /\ pan_x s' < 0.
Proof.
  intros Hinv Himg Hz Hvh Hvw Hch Hcw r Hbig s'.
  destruct (render_final_state cv2_resize s img crop_h crop_w
              Hinv Himg Hz Hvh Hvw Hch Hcw) as (filled & _ & Hfinal).
  fold r in Hfinal. subst s'. rewrite Hfinal. cbn [pan_x zoomed_state].
  destruct (nd_wf_nonneg r (rotated_wf _ _ Himg)) as [_ Hrw].
  destruct (axis_degenerate (nd_w r) crop_w (pan_x s) Hrw
              (crop_extent_even _ _ _ Hcw) Hbig) as (Hpan & Hneg & _).
  split; assumption.
Qed.

(** A render call makes a new scratch array exactly when the shape it
    needs differs from the recorded one, and otherwise keeps the same
    array; either way the array it leaves holds the crop inside the paste
    rectangle and black at every other pixel, whatever an earlier call had
    left in it. The scratch attributes stay consistent, so the next call
    starts from the same footing. *)
Lemma render_scratch_buffer (s : App) (img : ndarray) (crop_h crop_w : Z) :
  zoom_buffer_inv s -> nd_wf img ->
  (0 < zoom s)%Q -> 0 <= left_view_height s -> 0 <= left_view_width s ->
  crop_extent (left_view_height s) (zoom s) = Ok crop_h ->
  crop_extent (left_view_width s) (zoom s) = Ok crop_w ->
  let r := rotated (rotation_angle s) img in
  let s' := final_state (_apply_view_transform cv2_resize img s) in
  exists b',
    _zoom_buffer s' = Some b' /\
    _zoom_buffer_shape s' = Some (crop_h, crop_w, 3) /\
    (if shape_differs (_zoom_buffer_shape s) (crop_h, crop_w, 3)
     then obj_id b' = allocations s /\
          allocations s' = S (allocations s) /\
          (forall b, _zoom_buffer s = Some b -> obj_id b <> obj_id b')
     else allocations s' = allocations s /\
          exists b, _zoom_buffer s = Some b /\ obj_id b' = obj_id b) /\
    crop_pasted r crop_h crop_w (pan_y s) (pan_x s) (obj_data b') /\
    zoom_buffer_inv s' /\
    shape_differs (_zoom_buffer_shape s') (crop_h, crop_w, 3) = false.
Proof.
  intros Hinv Himg Hz Hvh Hvw Hch Hcw r s'.
  destruct (render_final_state cv2_resize s img crop_h crop_w
              Hinv Himg Hz Hvh Hvw Hch Hcw) as (filled & Hpasted & Hfinal).
  fold r in Hfinal, Hpasted. subst s'. rewrite Hfinal.
  cbn [_zoom_buffer _zoom_buffer_shape allocations zoomed_state].
  eexists. split; [reflexivity|]. split; [reflexivity|]. cbn [obj_id obj_data].
  assert (Hsame : shape_differs (Some (crop_h, crop_w, 3)) (crop_h, crop_w, 3) = false).
  { unfold shape_differs, shape3_eqb. now rewrite !Z.eqb_refl. }
  unfold zoom_buffer_inv in *.
  cbn [_zoom_buffer _zoom_buffer_shape allocations zoomed_state].
  destruct (shape_differs (_zoom_buffer_shape s) (crop_h, crop_w, 3)) eqn:Ed.
  - split; [|split; [exact Hpasted|split; [|exact Hsame]]].
    + split; [reflexivity|]. split; [reflexivity|].
      intros b Hb.
      destruct (_zoom_buffer_shape s) as [[[h w] c]|].
      * destruct Hinv as (b0 & Hb0 & _ & _ & _ & Hid).
        rewrite Hb in Hb0. injection Hb0 as <-. lia.
      * congruence.
    + destruct Hpasted as (Hfwf & Hfh & Hfw & _).
      eexists. split; [reflexivity|]. cbn [obj_id obj_data].
      repeat split; try assumption; try apply Hfwf. lia.
  - unfold shape_differs in Ed.
    destruct (_zoom_buffer_shape s) as [cur|] eqn:Es; [|discriminate].
    apply negb_false_iff, shape3_eqb_eq in Ed. subst cur.
    destruct Hinv as (b0 & Hb0 & _ & _ & _ & Hid).
    rewrite Hb0.
    split; [|split; [exact Hpasted|split; [|exact Hsame]]].
    + split; [reflexivity|]. exists b0. split; reflexivity.
    + destruct Hpasted as (Hfwf & Hfh & Hfw & _).
      eexists. split; [reflexivity|]. cbn [obj_id obj_data].
      repeat split; try assumption; try apply Hfwf.
Qed.

End ViewportLaws.

(** ** The viewport laws on concrete views *)

Lemma App_init_inv (vc : VideoComparator) (view_h view_w : Z) :
  zoom_buffer_inv (App_init vc view_h view_w).
Proof. reflexivity. Qed.

(** A 100x100 source, a 50x50 crop, the pan 1000 requested: 25 is stored. *)
Lemma pan_clamp_law_example :
  zoom_buffer_inv pan_example_app /\
  nd_wf (solid 100 100 black) /\
  crop_extent (left_view_height pan_example_app) (zoom pan_example_app) = Ok 50 /\
  crop_extent (left_view_width pan_example_app) (zoom pan_example_app) = Ok 50 /\
  pan_x pan_example_app = 1000 /\
  pan_x (final_state (_apply_view_transform sample_resize (solid 100 100 black)
                        pan_example_app)) = 25.
Proof.
  assert (Hinv : zoom_buffer_inv pan_example_app) by reflexivity.
  assert (Hwf : nd_wf (solid 100 100 black)) by apply solid_wf.
  assert (Hch : crop_extent (left_view_height pan_example_app) (zoom pan_example_app)
                = Ok 50) by reflexivity.
  assert (Hcw : crop_extent (left_view_width pan_example_app) (zoom pan_example_app)
                = Ok 50) by reflexivity.
  repeat (split; [first [assumption | reflexivity]|]).
  pose proof (pan_clamp_law sample_resize pan_example_app (solid 100 100 black) 50 50
                Hinv Hwf) as H.
  cbv zeta in H.
  destruct H as (_ & _ & _ & Hx);
    [reflexivity | simpl; lia | simpl; lia | exact Hch | exact Hcw
    | simpl; lia | simpl; lia |].
  rewrite Hx. reflexivity.
Defined.

(** C4, as stated, fails: a 4x4 frame in a 400x300 label at zoom 1, no pan
    requested; the pan stored is not 0. *)
Lemma degenerate_pan_not_zero :
  pan_y (final_state (_apply_view_transform sample_resize red4 small_frames_app)) <> 0.
Proof.
  destruct (render_final_state sample_resize small_frames_app red4 300 400)
    as (filled & _ & Hfinal);
    [reflexivity | apply solid_wf | reflexivity | simpl; lia | simpl; lia
    | reflexivity | reflexivity |].
  rewrite Hfinal. cbn [pan_y zoomed_state]. vm_compute. discriminate.
Qed.

(** The same view under the amended law: the pan stored is 2 - 150. *)
Lemma degenerate_pan_forced_example :
  zoom_buffer_inv small_frames_app /\
  nd_wf red4 /\
  crop_extent (left_view_height small_frames_app) (zoom small_frames_app) = Ok 300 /\
  nd_h (rotated (rotation_angle small_frames_app) red4) < 300 /\
  pan_y (final_state (_apply_view_transform sample_resize red4 small_frames_app))
  = -148.
Proof.
  assert (Hinv : zoom_buffer_inv small_frames_app) by reflexivity.
  assert (Hwf : nd_wf red4) by apply solid_wf.
  assert (Hch : crop_extent (left_view_height small_frames_app) (zoom small_frames_app)
                = Ok 300) by reflexivity.
  assert (Hcw : crop_extent (left_view_width small_frames_app) (zoom small_frames_app)
                = Ok 400) by reflexivity.
  assert (Hbig : nd_h (rotated (rotation_angle small_frames_app) red4) < 300)
    by (simpl; lia).
  repeat (split; [assumption|]).
  pose proof (degenerate_pan_forced sample_resize small_frames_app red4 300 400
                Hinv Hwf) as H.
  cbv zeta in H.
  destruct H as (Hpan & _);
    [reflexivity | simpl; lia | simpl; lia | exact Hch | exact Hcw | exact Hbig |].
  rewrite Hpan. reflexivity.
Defined.

Lemma stale_app_inv : zoom_buffer_inv stale_app.
Proof.
  unfold zoom_buffer_inv. simpl.
  eexists. split; [reflexivity|]. simpl.
  repeat split; try lia; try apply (solid_wf 4 4 (9, 9, 9)).
Qed.

Section ConsecutiveRenders.

Variable cv2_resize : ndarray -> Z -> Z -> interpolation -> result ndarray.

Lemma zoomed_state_view (s : App) (h w crop_h crop_w : Z) (filled : ndarray) :
  let s' := zoomed_state s h w crop_h crop_w filled in
  zoom s' = zoom s /\ left_view_height s' = left_view_height s /\
  left_view_width s' = left_view_width s /\ rotation_angle s' = rotation_angle s.
Proof. repeat split. Qed.

(** Two render calls in a row, the zoom and the label untouched between
    them: the second call keeps the scratch array of the first, and what
    it leaves in it is the second crop and black, nothing of the first. *)
Lemma consecutive_renders_no_stale_pixels
    (s : App) (img1 img2 : ndarray) (crop_h crop_w : Z) :
  zoom_buffer_inv s -> nd_wf img1 -> nd_wf img2 ->
  (0 < zoom s)%Q -> 0 <= left_view_height s -> 0 <= left_view_width s ->
  crop_extent (left_view_height s) (zoom s) = Ok crop_h ->
  crop_extent (left_view_width s) (zoom s) = Ok crop_w ->
  let s1 := final_state (_apply_view_transform cv2_resize img1 s) in
  let s2 := final_state (_apply_view_transform cv2_resize img2 s1) in
  exists b1 b2,
    _zoom_buffer s1 = Some b1 /\ _zoom_buffer s2 = Some b2 /\
    obj_id b2 = obj_id b1 /\ allocations s2 = allocations s1 /\
    crop_pasted (rotated (rotation_angle s1) img2) crop_h crop_w
                (pan_y s1) (pan_x s1) (obj_data b2).
Proof.
  intros Hinv Hwf1 Hwf2 Hz Hvh Hvw Hch Hcw s1 s2.
  destruct (render_final_state cv2_resize s img1 crop_h crop_w
              Hinv Hwf1 Hz Hvh Hvw Hch Hcw) as (filled1 & _ & Hfinal1).
  pose proof (render_scratch_buffer cv2_resize s img1 crop_h crop_w
                Hinv Hwf1 Hz Hvh Hvw Hch Hcw) as H1.
  cbv zeta in H1. fold s1 in H1, Hfinal1.
  destruct H1 as (b1 & Hb1 & _ & _ & _ & Hinv1 & Hsame).
  destruct (zoomed_state_view s (nd_h (rotated (rotation_angle s) img1))
              (nd_w (rotated (rotation_angle s) img1)) crop_h crop_w filled1)
    as (Ez & Eh & Ew & _).
  rewrite <- Hfinal1 in Ez, Eh, Ew.
  assert (Hz1 : (0 < zoom s1)%Q) by (rewrite Ez; exact Hz).
  assert (Hvh1 : 0 <= left_view_height s1) by (rewrite Eh; exact Hvh).
  assert (Hvw1 : 0 <= left_view_width s1) by (rewrite Ew; exact Hvw).
  assert (Hch1 : crop_extent (left_view_height s1) (zoom s1) = Ok crop_h)
    by (rewrite Eh, Ez; exact Hch).
  assert (Hcw1 : crop_extent (left_view_width s1) (zoom s1) = Ok crop_w)
    by (rewrite Ew, Ez; exact Hcw).
  pose proof (render_scratch_buffer cv2_resize s1 img2 crop_h crop_w
                Hinv1 Hwf2 Hz1 Hvh1 Hvw1 Hch1 Hcw1) as H2.
  cbv zeta in H2. fold s2 in H2.
  destruct H2 as (b2 & Hb2 & _ & Hid & Hpasted & _).
  rewrite Hsame in Hid. destruct Hid as (Hal & b & Hb & Hid).
  rewrite Hb1 in Hb. injection Hb as <-.
  exists b1, b2.
  split; [exact Hb1|]. split; [exact Hb2|]. split; [exact Hid|].
  split; [exact Hal|exact Hpasted].
Qed.

(** C6. On every render call the scratch array is made anew exactly when
    the shape it needs differs from the recorded one, and is otherwise
    cleared in place and kept; the array then holds the crop inside the
    paste rectangle and black at every other pixel. So a second call of
    the same shape, right after, works in the same array and leaves in it
    the second crop and black: nothing of the first call remains. *)
Theorem scratch_buffer_discipline
    (s : App) (img1 img2 : ndarray) (crop_h crop_w : Z) :
  zoom_buffer_inv s -> nd_wf img1 -> nd_wf img2 ->
  (0 < zoom s)%Q -> 0 <= left_view_height s -> 0 <= left_view_width s ->
  crop_extent (left_view_height s) (zoom s) = Ok crop_h ->
  crop_extent (left_view_width s) (zoom s) = Ok crop_w ->
  let s1 := final_state (_apply_view_transform cv2_resize img1 s) in
  let s2 := final_state (_apply_view_transform cv2_resize img2 s1) in
  (exists b1,
     _zoom_buffer s1 = Some b1 /\
     _zoom_buffer_shape s1 = Some (crop_h, crop_w, 3) /\
     (if shape_differs (_zoom_buffer_shape s) (crop_h, crop_w, 3)
      then obj_id b1 = allocations s /\
           allocations s1 = S (allocations s) /\
           (forall b, _zoom_buffer s = Some b -> obj_id b <> obj_id b1)
      else allocations s1 = allocations s /\
           exists b, _zoom_buffer s = Some b /\ obj_id b1 = obj_id b) /\
     crop_pasted (rotated (rotation_angle s) img1) crop_h crop_w
                 (pan_y s) (pan_x s) (obj_data b1)) /\
  (exists b1 b2,
     _zoom_buffer s1 = Some b1 /\ _zoom_buffer s2 = Some b2 /\
     obj_id b2 = obj_id b1 /\ allocations s2 = allocations s1 /\
     crop_pasted (rotated (rotation_angle s1) img2) crop_h crop_w
                 (pan_y s1) (pan_x s1) (obj_data b2)).
Proof.
  intros Hinv Hwf1 Hwf2 Hz Hvh Hvw Hch Hcw s1 s2. split.
  - pose proof (render_scratch_buffer cv2_resize s img1 crop_h crop_w
                  Hinv Hwf1 Hz Hvh Hvw Hch Hcw) as H1.
    cbv zeta in H1. fold s1 in H1.
    destruct H1 as (b1 & Hb1 & Hshape & Hid & Hpasted & _).
    exists b1. repeat (split; [assumption|]). exact Hpasted.
  - exact (consecutive_renders_no_stale_pixels s img1 img2 crop_h crop_w
             Hinv Hwf1 Hwf2 Hz Hvh Hvw Hch Hcw).
Qed.

End ConsecutiveRenders.

(** A 2x2 frame rendered twice into a scratch array that still holds an
    earlier call's pixels: the same array is kept both times, and after each
    call its corner is black and its centre is the frame's colour. *)
Lemma scratch_buffer_discipline_example :
  zoom_buffer_inv stale_app /\
  nd_wf (solid 2 2 (255, 0, 0)) /\
  nd_wf (solid 2 2 (0, 0, 255)) /\
  shape_differs (_zoom_buffer_shape stale_app) (4, 4, 3) = false /\
  exists b1 b2,
    _zoom_buffer (final_state (_apply_view_transform sample_resize
                                 (solid 2 2 (255, 0, 0)) stale_app)) = Some b1 /\
    _zoom_buffer (final_state (_apply_view_transform sample_resize
                                 (solid 2 2 (0, 0, 255))
                    (final_state (_apply_view_transform sample_resize
                                    (solid 2 2 (255, 0, 0)) stale_app)))) = Some b2 /\
    obj_id b1 = 0%nat /\ obj_id b2 = 0%nat /\
    nd_get (obj_data b1) 0 0 = Some black /\
    nd_get (obj_data b1) 1 1 = Some (255, 0, 0).
Proof.
  assert (Hinv : zoom_buffer_inv stale_app) by apply stale_app_inv.
  assert (Hwf1 : nd_wf (solid 2 2 (255, 0, 0))) by apply solid_wf.
  assert (Hwf2 : nd_wf (solid 2 2 (0, 0, 255))) by apply solid_wf.
  repeat (split; [first [assumption | reflexivity]|]).
  pose proof (scratch_buffer_discipline sample_resize stale_app
                (solid 2 2 (255, 0, 0)) (solid 2 2 (0, 0, 255)) 4 4
                Hinv Hwf1 Hwf2) as H.
  cbv zeta in H.
  destruct H as ((b1 & Hb1 & _ & Hid1 & Hpasted) & (b1' & b2 & Hb1' & Hb2 & Hid2 & _));
    [reflexivity | simpl; lia | simpl; lia | reflexivity | reflexivity |].
  rewrite Hb1 in Hb1'. injection Hb1' as <-.
  exists b1, b2. split; [exact Hb1|]. split; [exact Hb2|].
  simpl in Hid1. destruct Hid1 as (_ & b & [= <-] & Hid1).
  simpl in Hid1.
  split; [exact Hid1|]. split; [rewrite Hid2; exact Hid1|].
  destruct Hpasted as (_ & _ & _ & Hget).
  split.
  - rewrite (Hget 0 0) by lia. reflexivity.
  - rewrite (Hget 1 1) by lia. reflexivity.
Defined.

(** ** The scratch attributes stay consistent: proofs *)

Lemma slice_norm_range (n i : Z) : 0 <= n -> 0 <= slice_norm n i <= n.
Proof.
  intros Hn. unfold slice_norm.
  destruct (i <? 0) eqn:E; [apply Z.ltb_lt in E | apply Z.ltb_ge in E]; lia.
Qed.

Lemma slice_bounds_range (n a b x y : Z) :
  0 <= n -> slice_bounds n a b = (x, y) -> 0 <= x <= y /\ y <= n.
Proof.
  intros Hn. unfold slice_bounds. intros [= <- <-].
  pose proof (slice_norm_range n a Hn). pose proof (slice_norm_range n b Hn). lia.
Qed.

Lemma broadcast_length {A} (n : Z) (src l : list A) :
  0 <= n -> broadcast n src = Ok l -> Z.of_nat (length l) = n.
Proof.
  intros Hn. unfold broadcast.
  destruct (Z.of_nat (length src) =? n) eqn:E.
  - apply Z.eqb_eq in E. intros [= <-]. exact E.
  - destruct src as [|x [|? ?]]; try discriminate.
    intros [= <-]. rewrite length_replicate. lia.
Qed.

Lemma broadcast_rows_length (n : Z) (rows rows' : list (list pixel)) :
  0 <= n -> broadcast_rows n rows = Ok rows' ->
  length rows' = length rows /\
  Forall (fun r => Z.of_nat (length r) = n) rows'.
Proof.
  intros Hn. revert rows'.
  induction rows as [|r rows IH]; intros rows'; simpl.
  - intros [= <-]. split; [reflexivity|constructor].
  - destruct (broadcast n r) as [r'|] eqn:Er; simpl; [|discriminate].
    destruct (broadcast_rows n rows) as [rest|] eqn:Erest; simpl; [|discriminate].
    intros [= <-]. destruct (IH rest eq_refl) as [Hlen Hall].
    split; [simpl; now rewrite Hlen|].
    constructor; [|exact Hall]. exact (broadcast_length n r r' Hn Er).
Qed.

Lemma nd_set_slice_wf (a src a' : ndarray) (r0 r1 c0 c1 : Z) :
  nd_wf a -> nd_set_slice a r0 r1 c0 c1 src = Ok a' ->
  nd_wf a' /\ nd_h a' = nd_h a /\ nd_w a' = nd_w a.
Proof.
  intros (Hw & Hh & Hrows). unfold nd_set_slice.
  destruct (slice_bounds (nd_h a) r0 r1) as [ra rb] eqn:Er.
  destruct (slice_bounds (nd_w a) c0 c1) as [ca cb] eqn:Ec.
  assert (Hh0 : 0 <= nd_h a) by (rewrite <- Hh; apply Nat2Z.is_nonneg).
  destruct (slice_bounds_range _ _ _ _ _ Hh0 Er) as [Hr Hrb].
  destruct (slice_bounds_range _ _ _ _ _ Hw Ec) as [Hc Hcb].
  destruct (_ && _); [|discriminate].
  destruct (broadcast (rb - ra) (nd_px src)) as [src_rows|] eqn:Eb; simpl; [|discriminate].
  destruct (broadcast_rows (cb - ca) src_rows) as [src_rows'|] eqn:Ebr; simpl; [|discriminate].
  intros [= <-]. unfold nd_wf. cbn [nd_h nd_w nd_px].
  assert (Hrn : 0 <= rb - ra) by lia.
  assert (Hcn : 0 <= cb - ca) by lia.
  pose proof (broadcast_length _ _ _ Hrn Eb) as Hlen.
  destruct (broadcast_rows_length _ _ _ Hcn Ebr) as [Hlen' Hall].
  split; [|split; reflexivity]. split; [exact Hw|]. split.
  - rewrite !length_app, length_zip_with, !length_take, !length_drop. lia.
  - apply Forall_app. split; [apply Forall_take; exact Hrows|].
    apply Forall_app. split; [|apply Forall_drop; exact Hrows].
    apply Forall_lookup_2. intros i row Hi.
    apply lookup_zip_with_Some in Hi.
    destruct Hi as (drow & srow & -> & Hd & Hs).
    apply lookup_take_Some in Hd. destruct Hd as [Hd _].
    rewrite lookup_drop in Hd.
    pose proof (Forall_lookup_1 _ _ _ _ Hrows Hd) as H1.
    pose proof (Forall_lookup_1 _ _ _ _ Hall Hs) as H2. simpl in H1, H2.
    unfold paste_row. rewrite !length_app, length_take, length_drop. lia.
Qed.

Lemma final_state_bind_get {S B} (k : S -> M S B) (s : S) :
  final_state (bind get k s) = final_state (k s s).
Proof. reflexivity. Qed.

Lemma final_state_bind_modify {S B} (f : S -> S) (k : unit -> M S B) (s : S) :
  final_state (bind (modify f) k s) = final_state (k tt (f s)).
Proof. reflexivity. Qed.

Lemma final_state_bind_lift {S A B} (r : result A) (k : A -> M S B) (s : S) :
  final_state (bind (lift r) k s)
  = match r with
    | Ok a => final_state (k a s)
    | Raise _ => s
    end.
Proof. destruct r; reflexivity. Qed.

Section Invariant.

Variable cv2_resize : ndarray -> Z -> Z -> interpolation -> result ndarray.

(** The paste and what follows it keep the scratch attributes consistent. *)
Lemma _zoom_in1_maintains_inv (img : ndarray) :
  keeps (maintains zoom_buffer_inv) (_zoom_in1 cv2_resize img).
Proof.
  intros s Hinv. unfold _zoom_in1.
  rewrite final_state_bind_get, final_state_bind_lift.
  destruct (crop_extent (left_view_height s) (zoom s)) as [crop_h|]; [|exact Hinv].
  rewrite final_state_bind_lift.
  destruct (crop_extent (left_view_width s) (zoom s)) as [crop_w|]; [|exact Hinv].
  rewrite final_state_bind.
  assert (Htail : forall s1 : App,
            zoom_buffer_inv s1 ->
            forall r0 r1 c0 c1 crop px py,
            zoom_buffer_inv
              (final_state
                 ((modify (set_pan px py) ;;;
                   s2 <- get ;;
                   match _zoom_buffer s2 with
                   | None => raise TypeError
                   | Some out_img =>
                       filled <- lift (nd_set_slice (obj_data out_img) r0 r1 c0 c1 crop) ;;
                       modify (set_zoom_buffer_data out_img filled) ;;;
                       resized <- lift (cv2_resize filled (left_view_width s)
                                          (left_view_height s) INTER_NEAREST) ;;
                       ret resized
                   end)%py s1))).
  { intros s1 Hinv1 r0 r1 c0 c1 crop px py.
    rewrite final_state_bind_modify, final_state_bind_get.
    cbn [_zoom_buffer set_pan].
    destruct (_zoom_buffer s1) as [b|] eqn:Eb; [|exact Hinv1].
    rewrite final_state_bind_lift.
    destruct (nd_set_slice (obj_data b) r0 r1 c0 c1 crop) as [filled|] eqn:Eset;
      [|exact Hinv1].
    rewrite final_state_bind_modify, final_state_bind_lift.
    assert (Hinv2 : zoom_buffer_inv
                      (set_zoom_buffer_data b filled (set_pan px py s1))).
    { unfold zoom_buffer_inv in *. cbn [_zoom_buffer_shape _zoom_buffer allocations
                                          set_zoom_buffer_data set_pan].
      destruct (_zoom_buffer_shape s1) as [[[h w] c]|]; [|congruence].
      destruct Hinv1 as (b0 & Hb0 & Hwf & Hh & Hw & Hid).
      rewrite Eb in Hb0. injection Hb0 as <-.
      destruct (nd_set_slice_wf _ _ _ _ _ _ _ Hwf Eset) as (Hwf' & Hh' & Hw').
      eexists. split; [reflexivity|]. cbn [obj_id obj_data].
      repeat split; try apply Hwf'; congruence. }
    destruct (cv2_resize filled _ _ _); exact Hinv2. }
  destruct (shape_differs (_zoom_buffer_shape s) (crop_h, crop_w, 3)) eqn:Ed.
  - unfold bind at 2. unfold lift at 1.
    destruct (np_zeros crop_h crop_w) as [fresh|] eqn:Ez; [|exact Hinv].
    cbn [modify]. apply Htail.
    unfold np_zeros in Ez.
    destruct ((crop_h <? 0) || (crop_w <? 0)) eqn:Eneg; [discriminate|].
    apply orb_false_iff in Eneg. destruct Eneg as [E1 E2].
    apply Z.ltb_ge in E1, E2. injection Ez as <-.
    unfold zoom_buffer_inv. cbn [_zoom_buffer_shape _zoom_buffer allocations
                                   set_new_zoom_buffer].
    eexists. split; [reflexivity|]. cbn [obj_id obj_data nd_h nd_w].
    split; [|repeat split; lia].
    repeat split; cbn [nd_h nd_w nd_px].
    + exact E2.
    + rewrite length_replicate. lia.
    + apply Forall_replicate. rewrite length_replicate. lia.
  - destruct (_zoom_buffer s) as [b|] eqn:Eb; [|exact Hinv].
    cbn [modify]. apply Htail.
    unfold zoom_buffer_inv in *. cbn [_zoom_buffer_shape _zoom_buffer allocations
                                        set_zoom_buffer_data].
    destruct (_zoom_buffer_shape s) as [[[h w] c]|]; [|congruence].
    destruct Hinv as (b0 & Hb0 & Hwf & Hh & Hw & Hid).
    rewrite Eb in Hb0. injection Hb0 as <-.
    destruct (zero_fill_ok _ Hwf) as (Hwf' & Hh' & Hw' & _).
    eexists. split; [reflexivity|]. cbn [obj_id obj_data].
    repeat split; try apply Hwf'; congruence.
Qed.

(** Closes a [keeps (maintains zoom_buffer_inv)] goal for a body whose
    only writes to the scratch attributes happen in [_zoom_in1]. *)
Ltac keeps_inv :=
  repeat first
    [ match goal with
      | |- keeps _ (_zoom_in1 _ _) => apply _zoom_in1_maintains_inv
      end
    | keeps_step
    | apply keeps_modify; intros ? Hkept; exact Hkept
    | apply keeps_on_comparator; intros ? ? Hkept; exact Hkept ].

Lemma on_frame_changed_maintains_inv (idx : Z) :
  keeps (maintains zoom_buffer_inv) (on_frame_changed cv2_resize idx).
Proof.
  unfold on_frame_changed, _display_triplet, _apply_view_transform, _set_pixmap.
  keeps_inv.
Qed.

(** The scratch attributes are consistent in every state the application
    reaches: they are at the start, and every operation keeps them so. *)
Lemma zoom_buffer_inv_reachable :
  (forall vc view_h view_w, zoom_buffer_inv (App_init vc view_h view_w)) /\
  (forall img, keeps (maintains zoom_buffer_inv) (_apply_view_transform cv2_resize img)) /\
  (forall idx, keeps (maintains zoom_buffer_inv) (on_frame_changed cv2_resize idx)) /\
  (forall delta, keeps (maintains zoom_buffer_inv) (on_zoom_requested cv2_resize delta)) /\
  (forall dx dy, keeps (maintains zoom_buffer_inv) (on_pan_requested cv2_resize dx dy)) /\
  keeps (maintains zoom_buffer_inv) (rotate_left cv2_resize) /\
  keeps (maintains zoom_buffer_inv) (rotate_right cv2_resize) /\
  keeps (maintains zoom_buffer_inv) (reset_rotation cv2_resize) /\
  keeps (maintains zoom_buffer_inv) (fit_to_screen cv2_resize).
Proof.
  split; [intros; reflexivity|].
  split; [intros img; unfold _apply_view_transform; keeps_inv|].
  split; [exact on_frame_changed_maintains_inv|].
  repeat split; intros;
    unfold on_zoom_requested, on_pan_requested, rotate_left, rotate_right,
           reset_rotation, _reset_pan_and_refresh, fit_to_screen;
    repeat first
      [ match goal with
        | |- keeps _ (on_frame_changed _ _) => apply on_frame_changed_maintains_inv
        end
      | keeps_step
      | apply keeps_modify; intros ? Hkept; exact Hkept ].
Qed.

End Invariant.

(** ** Further properties of the comparator *)

(** The number of common frames is the smaller of the two lengths, also
    when a sequence is missing. *)
Lemma frame_count_is_min (vc : VideoComparator) :
  frame_count vc
  = Z.min (Z.of_nat (length (ref_frames vc))) (Z.of_nat (length (comp_frames vc))).
Proof.
  unfold frame_count.
  destruct (ref_frames vc) as [|r rs], (comp_frames vc) as [|c cs]; simpl; lia.
Qed.

Lemma py_index_inside {A} (l : list A) (i : Z) :
  0 <= i < Z.of_nat (length l) ->
  exists a, l !! Z.to_nat i = Some a /\ py_index l i = Ok a.
Proof.
  intros Hi. unfold py_index.
  destruct (i <? 0) eqn:E; [apply Z.ltb_lt in E; lia|].
  destruct ((i <? 0) || (Z.of_nat (length l) <=? i)) eqn:E2.
  { apply orb_true_iff in E2. destruct E2 as [E2|E2];
      [apply Z.ltb_lt in E2 | apply Z.leb_le in E2]; lia. }
  destruct (lookup_lt_is_Some_2 l (Z.to_nat i)) as [a Ha]; [lia|].
  exists a. now rewrite Ha.
Qed.

Lemma served_index_range (vc : VideoComparator) (idx : Z) :
  frame_count vc <> 0 ->
  0 <= served_index vc idx < frame_count vc.
Proof.
  intros H. pose proof (frame_count_nonneg vc). unfold served_index. lia.
Qed.

Lemma served_index_idem (vc : VideoComparator) (idx : Z) :
  frame_count vc <> 0 ->
  served_index vc (served_index vc idx) = served_index vc idx.
Proof.
  intros H. pose proof (frame_count_nonneg vc). unfold served_index. lia.
Qed.

Section ComparatorMore.

Variable cv2_resize : ndarray -> Z -> Z -> interpolation -> result ndarray.

(** [get_frame_triplet], step by step. *)
Lemma get_frame_triplet_unfold (idx : Z) (cd : bool) (vc : VideoComparator) :
  get_frame_triplet cv2_resize idx cd vc
  = if frame_count vc =? 0 then Done (None, None, None) vc
    else
      let k := served_index vc idx in
      let vc' := set_current_frame_idx k vc in
      match py_index (ref_frames vc) k with
      | Raise e => Fail e vc'
      | Ok ref =>
          match py_index (comp_frames vc) k with
          | Raise e => Fail e vc'
          | Ok comp_raw =>
              match comp_resized cv2_resize vc comp_raw with
              | Raise e => Fail e vc'
              | Ok comp =>
                  if negb cd then Done (Some ref, Some comp, None) vc'
                  else match diff_rgb ref comp with
                       | Ok d => Done (Some ref, Some comp, Some d) vc'
                       | Raise e => Fail e vc'
                       end
              end
          end
      end.
Proof.
  unfold get_frame_triplet, served_index, bind, get, modify, lift, ret.
  destruct (frame_count vc =? 0); [reflexivity|]. cbv zeta.
  destruct (py_index (ref_frames vc) _); [|reflexivity].
  destruct (py_index (comp_frames vc) _); [|reflexivity].
  destruct (comp_resized cv2_resize vc _); [|reflexivity].
  destruct (negb cd); [reflexivity|].
  destruct (diff_rgb _ _); reflexivity.
Qed.

End ComparatorMore.

Section ComparatorProperties.

Variable cv2_resize : ndarray -> Z -> Z -> interpolation -> result ndarray.

(** X1. Any index, negative or beyond the range, is served as the index
    clamped into [0, frame_count - 1]: same frames, same outcome, and the
    cursor is left inside that range. *)
Theorem get_frame_triplet_clamps (idx : Z) (cd : bool) (vc : VideoComparator) :
  frame_count vc <> 0 ->
  get_frame_triplet cv2_resize idx cd vc
  = get_frame_triplet cv2_resize (served_index vc idx) cd vc /\
  0 <= current_frame_idx (final_state (get_frame_triplet cv2_resize idx cd vc))
    < frame_count vc /\
  (frame_count vc - 1 <= idx ->
   get_frame_triplet cv2_resize idx cd vc
   = get_frame_triplet cv2_resize (frame_count vc - 1) cd vc) /\
  (idx <= 0 ->
   get_frame_triplet cv2_resize idx cd vc = get_frame_triplet cv2_resize 0 cd vc).
Proof.
  intros Hn. pose proof (frame_count_nonneg vc) as H0.
  assert (Hsame : forall j, served_index vc j = served_index vc idx ->
            get_frame_triplet cv2_resize idx cd vc
            = get_frame_triplet cv2_resize j cd vc).
  { intros j Hj. rewrite !get_frame_triplet_unfold. cbv zeta. now rewrite Hj. }
  split; [apply Hsame, served_index_idem, Hn|].
  split.
  { rewrite get_frame_triplet_cursor.
    replace (frame_count vc =? 0) with false by (symmetry; now apply Z.eqb_neq).
    lia. }
  split; intros Hidx; apply Hsame; unfold served_index; lia.
Qed.

(** X2. With both sequences loaded and every frame of the size the
    reference declares, [get_frame_triplet] returns for every index: the
    reference frame and the comparison frame at the served index, the latter
    passed through without a resize, and their difference raster, which has
    the size of the reference. *)
Theorem get_frame_triplet_serves (idx : Z) (vc : VideoComparator) (ri : info) :
  frame_count vc <> 0 ->
  ref_info vc = Some ri ->
  frames_of_shape (height ri) (width ri) (ref_frames vc) ->
  frames_of_shape (height ri) (width ri) (comp_frames vc) ->
  let k := served_index vc idx in
  exists ref comp d,
    ref_frames vc !! Z.to_nat k = Some ref /\
    comp_frames vc !! Z.to_nat k = Some comp /\
    diff_rgb ref comp = Ok d /\
    shape2 d = (height ri, width ri) /\
    get_frame_triplet cv2_resize idx true vc
    = Done (Some ref, Some comp, Some d) (set_current_frame_idx k vc) /\
    get_frame_triplet cv2_resize idx false vc
    = Done (Some ref, Some comp, None) (set_current_frame_idx k vc).
Proof.
  intros Hn Hri Href Hcomp k.
  pose proof (served_index_range vc idx Hn) as Hk. fold k in Hk.
  rewrite frame_count_is_min in Hk.
  destruct (py_index_inside (ref_frames vc) k) as (ref & Hr & Hpr); [lia|].
  destruct (py_index_inside (comp_frames vc) k) as (comp & Hc & Hpc); [lia|].
  destruct (Forall_lookup_1 _ _ _ _ Href Hr) as [_ Hrs].
  destruct (Forall_lookup_1 _ _ _ _ Hcomp Hc) as [_ Hcs].
  assert (Hres : comp_resized cv2_resize vc comp = Ok comp).
  { unfold comp_resized. rewrite Hri, Hcs, shape2_eqb_refl. reflexivity. }
  assert (Hd : diff_rgb ref comp
               = Ok {| nd_h := nd_h ref; nd_w := nd_w ref;
                       nd_px := zip_with (zip_with diff_pixel) (nd_px ref) (nd_px comp) |}).
  { unfold diff_rgb. rewrite Hrs, Hcs, shape2_eqb_refl. reflexivity. }
  eexists ref, comp, _.
  split; [exact Hr|]. split; [exact Hc|]. split; [exact Hd|].
  split; [exact Hrs|].
  rewrite !get_frame_triplet_unfold.
  replace (frame_count vc =? 0) with false by (symmetry; now apply Z.eqb_neq).
  cbv zeta. fold k. rewrite Hpr, Hpc, Hres, Hd. split; reflexivity.
Qed.

(** X3. Skipping the difference changes nothing else: whenever the call
    with [compute_diff] returns, the call without it returns the same two
    frames, no difference raster, and ends in the same state; and it raises
    nothing the call with [compute_diff] does not raise. *)
Theorem get_frame_triplet_lazy_diff (idx : Z) (vc : VideoComparator) :
  (forall t vc',
     get_frame_triplet cv2_resize idx true vc = Done t vc' ->
     get_frame_triplet cv2_resize idx false vc = Done (fst t, None) vc') /\
  (forall e vc',
     get_frame_triplet cv2_resize idx false vc = Fail e vc' ->
     get_frame_triplet cv2_resize idx true vc = Fail e vc') /\
  final_state (get_frame_triplet cv2_resize idx false vc)
  = final_state (get_frame_triplet cv2_resize idx true vc).
Proof.
  rewrite !get_frame_triplet_unfold. cbv zeta.
  destruct (frame_count vc =? 0).
  { repeat split; try discriminate. intros t vc' [= <- <-]. reflexivity. }
  destruct (py_index (ref_frames vc) _) as [ref|e1].
  2: { repeat split; try discriminate; auto. }
  destruct (py_index (comp_frames vc) _) as [comp_raw|e2].
  2: { repeat split; try discriminate; auto. }
  destruct (comp_resized cv2_resize vc comp_raw) as [comp|e3].
  2: { repeat split; try discriminate; auto. }
  cbn [negb]. destruct (diff_rgb ref comp) as [d|e4].
  - repeat split; try discriminate. intros t vc' [= <- <-]. reflexivity.
  - repeat split; discriminate.
Qed.

(** X4. The index served is always inside both sequences, so the two
    list accesses never raise: when [get_frame_triplet] raises, the
    exception is the one of the resize step, or the refusal of
    [cv2.absdiff] on frames of different shapes. *)
Theorem get_frame_triplet_failures
    (idx : Z) (cd : bool) (vc vc' : VideoComparator) (e : exn) :
  get_frame_triplet cv2_resize idx cd vc = Fail e vc' ->
  vc' = set_current_frame_idx (served_index vc idx) vc /\
  ((exists comp_raw,
      comp_frames vc !! Z.to_nat (served_index vc idx) = Some comp_raw /\
      comp_resized cv2_resize vc comp_raw = Raise e) \/
   (cd = true /\ e = Cv2Error)).
Proof.
  rewrite get_frame_triplet_unfold. cbv zeta.
  destruct (frame_count vc =? 0) eqn:En; [discriminate|].
  apply Z.eqb_neq in En.
  pose proof (served_index_range vc idx En) as Hk.
  rewrite frame_count_is_min in Hk.
  destruct (py_index_inside (ref_frames vc) (served_index vc idx))
    as (ref & _ & ->); [lia|].
  destruct (py_index_inside (comp_frames vc) (served_index vc idx))
    as (comp & Hc & ->); [lia|].
  destruct (comp_resized cv2_resize vc comp) as [c|e'] eqn:Ec.
  - destruct cd; cbn [negb]; [|discriminate].
    unfold diff_rgb. destruct (shape2_eqb _ _); [discriminate|].
    intros [= <- <-]. split; [reflexivity|]. right. split; reflexivity.
  - intros [= <- <-]. split; [reflexivity|]. left. exists comp. split; assumption.
Qed.

End ComparatorProperties.

Lemma get_frame_triplet_clamps_example :
  frame_count ten_frames <> 0 /\
  get_frame_triplet sample_resize 20 true ten_frames
  = get_frame_triplet sample_resize 9 true ten_frames /\
  get_frame_triplet sample_resize (-3) true ten_frames
  = get_frame_triplet sample_resize 0 true ten_frames.
Proof.
  assert (Hn : frame_count ten_frames <> 0) by (vm_compute; discriminate).
  split; [exact Hn|].
  destruct (get_frame_triplet_clamps sample_resize 20 true ten_frames Hn)
    as (_ & _ & Hhigh & _).
  destruct (get_frame_triplet_clamps sample_resize (-3) true ten_frames Hn)
    as (_ & _ & _ & Hlow).
  split; [apply Hhigh | apply Hlow]; vm_compute; discriminate.
Defined.

Lemma ten_frames_shapes :
  frames_of_shape 4 4 (ref_frames ten_frames) /\
  frames_of_shape 4 4 (comp_frames ten_frames).
Proof.
  split; apply Forall_replicate; (split; [apply solid_wf | reflexivity]).
Qed.

Lemma get_frame_triplet_serves_example :
  frame_count ten_frames <> 0 /\
  frames_of_shape 4 4 (ref_frames ten_frames) /\
  frames_of_shape 4 4 (comp_frames ten_frames) /\
  exists d,
    get_frame_triplet sample_resize 3 true ten_frames
    = Done (Some red4, Some blue4, Some d) (set_current_frame_idx 3 ten_frames).
Proof.
  assert (Hn : frame_count ten_frames <> 0) by (vm_compute; discriminate).
  destruct ten_frames_shapes as [Hr Hc].
  repeat (split; [assumption|]).
  destruct (get_frame_triplet_serves sample_resize 3 ten_frames
              (info_of (replicate 10 red4) 4 4) Hn eq_refl Hr Hc)
    as (ref & comp & d & Href & Hcomp & _ & _ & Hrun & _).
  vm_compute in Href. vm_compute in Hcomp.
  injection Href as <-. injection Hcomp as <-.
  exists d. exact Hrun.
Defined.


Lemma get_frame_triplet_failures_example :
  get_frame_triplet sample_resize 1 true mixed_reference
  = Fail Cv2Error (set_current_frame_idx 1 mixed_reference) /\
  ((exists comp_raw,
      comp_frames mixed_reference !! Z.to_nat (served_index mixed_reference 1)
      = Some comp_raw /\
      comp_resized sample_resize mixed_reference comp_raw = Raise Cv2Error) \/
   (true = true /\ Cv2Error = Cv2Error)).
Proof.
  assert (H : get_frame_triplet sample_resize 1 true mixed_reference
              = Fail Cv2Error (set_current_frame_idx 1 mixed_reference))
    by (vm_compute; reflexivity).
  split; [exact H|].
  exact (proj2 (get_frame_triplet_failures sample_resize 1 true mixed_reference _ _ H)).
Defined.

Section ProbeProperties.

Variable cv2_resize : ndarray -> Z -> Z -> interpolation -> result ndarray.

(** X5. The pixel probe reads the pair that [get_frame_triplet] served
    last: after a call that returned the frames [ref] and [comp], the probe
    at a coordinate inside the declared size reports [ref[y, x]] and
    [comp[y, x]] (and raises what those accesses raise). *)
Theorem get_pixel_info_reads_served_pair
    (idx : Z) (cd : bool) (vc vc' : VideoComparator) (ri : info)
    (ref comp : ndarray) (d : option ndarray) (x y : Z) :
  get_frame_triplet cv2_resize idx cd vc = Done (Some ref, Some comp, d) vc' ->
  ref_info vc = Some ri ->
  0 <= x < width ri -> 0 <= y < height ri ->
  get_pixel_info cv2_resize vc' x y
  = (p1 <- nd_index ref y x ;;
     p2 <- nd_index comp y x ;;
     Ok (Some {| pi_x := x; pi_y := y; img1 := p1; img2 := p2 |}))%res.
Proof.
  intros Hrun Hri Hx Hy.
  rewrite get_frame_triplet_unfold in Hrun. cbv zeta in Hrun.
  destruct (frame_count vc =? 0); [discriminate|].
  destruct (py_index (ref_frames vc) _) as [ref'|] eqn:Er; [|discriminate].
  destruct (py_index (comp_frames vc) _) as [comp_raw|] eqn:Ec; [|discriminate].
  destruct (comp_resized cv2_resize vc comp_raw) as [comp'|] eqn:Es; [|discriminate].
  assert (Hvc : vc' = set_current_frame_idx (served_index vc idx) vc /\
                ref' = ref /\ comp' = comp).
  { destruct (negb cd); [injection Hrun as <- <- <- <-; auto|].
    destruct (diff_rgb ref' comp'); [|discriminate].
    injection Hrun as <- <- <- <-; auto. }
  destruct Hvc as (-> & -> & ->).
  unfold get_pixel_info.
  cbn [ref_info ref_frames comp_frames current_frame_idx set_current_frame_idx].
  rewrite Hri.
  replace ((0 <=? x) && (x <? width ri) && (0 <=? y) && (y <? height ri)) with true.
  2: { symmetry. rewrite !andb_true_iff.
       repeat split; first [apply Z.leb_le | apply Z.ltb_lt]; lia. }
  cbn [negb]. rewrite Er, Ec. cbn [rbind].
  unfold comp_resized in *.
  cbn [ref_info set_current_frame_idx]. rewrite Hri in *. rewrite Es.
  reflexivity.
Qed.

End ProbeProperties.

Lemma get_pixel_info_reads_served_pair_example :
  get_frame_triplet sample_resize 3 true ten_frames
  = Done (Some red4, Some blue4, Some (solid 4 4 (255, 0, 0)))
         (set_current_frame_idx 3 ten_frames) /\
  get_pixel_info sample_resize (set_current_frame_idx 3 ten_frames) 1 2
  = Ok (Some {| pi_x := 1; pi_y := 2; img1 := (255, 0, 0); img2 := (0, 0, 255) |}).
Proof.
  assert (H : get_frame_triplet sample_resize 3 true ten_frames
              = Done (Some red4, Some blue4, Some (solid 4 4 (255, 0, 0)))
                     (set_current_frame_idx 3 ten_frames))
    by (vm_compute; reflexivity).
  split; [exact H|].
  rewrite (get_pixel_info_reads_served_pair sample_resize 3 true ten_frames _
             (info_of (replicate 10 red4) 4 4) _ _ _ 1 2 H eq_refl);
    [reflexivity | simpl; lia | simpl; lia].
Defined.

(** ** Further properties of the difference raster *)

Lemma absdiff_sym (a b : Z) : absdiff a b = absdiff b a.
Proof. unfold absdiff. lia. Qed.

Lemma chebyshev_sym (p q : pixel) : chebyshev p q = chebyshev q p.
Proof.
  destruct p as [[r1 g1] b1], q as [[r2 g2] b2]. unfold chebyshev.
  now rewrite (absdiff_sym r1), (absdiff_sym g1), (absdiff_sym b1).
Qed.

Lemma zip_with_sym {A B} (f : A -> A -> B) (l k : list A) :
  (forall x y, f x y = f y x) -> zip_with f l k = zip_with f k l.
Proof.
  intros Hf. revert k. induction l as [|x l IH]; intros [|y k]; simpl; try reflexivity.
  now rewrite Hf, IH.
Qed.

(** X6. The difference raster does not depend on which frame is the
    reference: swapping the operands gives the same raster, or the same
    refusal. *)
Theorem diff_rgb_symmetric (a b : ndarray) : diff_rgb a b = diff_rgb b a.
Proof.
  unfold diff_rgb.
  destruct (shape2_eqb (shape2 a) (shape2 b)) eqn:E.
  - apply shape2_eqb_eq in E. rewrite <- E, shape2_eqb_refl.
    injection E as Hh Hw. rewrite Hh, Hw. do 2 f_equal.
    apply zip_with_sym. intros r1 r2. apply zip_with_sym.
    intros p q. unfold diff_pixel. now rewrite chebyshev_sym.
  - destruct (shape2_eqb (shape2 b) (shape2 a)) eqn:E'; [|reflexivity].
    apply shape2_eqb_eq in E'. rewrite E', shape2_eqb_refl in E. discriminate.
Qed.





(** ** Loaders: proofs *)

Lemma read_frames_app (step i : Z) (stream acc : list ndarray) :
  read_frames step i stream acc = acc ++ read_frames step i stream [].
Proof.
  revert i acc. induction stream as [|f rest IH]; intros i acc; simpl.
  - now rewrite app_nil_r.
  - rewrite (IH _ (if i mod step =? 0 then acc ++ [cvtColor_BGR2RGB f] else acc)).
    rewrite (IH _ (if i mod step =? 0 then [cvtColor_BGR2RGB f] else [])).
    destruct (i mod step =? 0); [now rewrite <- app_assoc | reflexivity].
Qed.

Lemma neg_mod_step (step i : Z) :
  1 <= step ->
  (i mod step = 0 -> (- i) mod step = 0 /\ (- (i + 1)) mod step = step - 1) /\
  (i mod step <> 0 ->
   1 <= (- i) mod step /\ (- (i + 1)) mod step = (- i) mod step - 1).
Proof.
  intros Hs.
  pose proof (Z.mod_pos_bound i step ltac:(lia)) as Hi.
  pose proof (Z.mod_pos_bound (- i) step ltac:(lia)) as Hn.
  pose proof (Z.mod_pos_bound (- (i + 1)) step ltac:(lia)) as Hn1.
  pose proof (Z.div_mod i step ltac:(lia)) as Ei.
  pose proof (Z.div_mod (- i) step ltac:(lia)) as En.
  pose proof (Z.div_mod (- (i + 1)) step ltac:(lia)) as En1.
  split; intros H.
  - assert (Hq : - i / step = - (i / step)) by nia.
    assert (Hq1 : - (i + 1) / step = - (i / step) - 1) by nia.
    nia.
  - assert (Hq : - i / step = - (i / step) - 1) by nia.
    assert (Hq1 : - (i + 1) / step = - (i / step) - 1) by nia.
    nia.
Qed.

(** The [j]-th frame kept is the frame read at the [j]-th position that is
    a multiple of [step], converted. *)
Lemma read_frames_lookup (step i : Z) (stream : list ndarray) (j : nat) :
  1 <= step ->
  read_frames step i stream [] !! j
  = cvtColor_BGR2RGB <$> stream !! Z.to_nat ((- i) mod step + Z.of_nat j * step).
Proof.
  intros Hs. revert i j.
  induction stream as [|f rest IH]; intros i j.
  - reflexivity.
  - simpl read_frames. rewrite read_frames_app.
    destruct (neg_mod_step step i Hs) as [Hz Hnz].
    pose proof (Z.mod_pos_bound (- (i + 1)) step ltac:(lia)) as Hb.
    destruct (i mod step =? 0) eqn:E.
    + apply Z.eqb_eq in E. destruct (Hz E) as [H0 H1]. rewrite H0.
      destruct j as [|j].
      * reflexivity.
      * cbn [app lookup list_lookup]. rewrite IH, H1.
        replace (Z.to_nat (0 + Z.of_nat (S j) * step))
          with (S (Z.to_nat (step - 1 + Z.of_nat j * step))) by nia.
        reflexivity.
    + apply Z.eqb_neq in E. destruct (Hnz E) as [H0 H1].
      cbn [app]. rewrite IH, H1.
      replace (Z.to_nat ((- i) mod step + Z.of_nat j * step))
        with (S (Z.to_nat ((- i) mod step - 1 + Z.of_nat j * step))) by nia.
      reflexivity.
Qed.

Lemma length_from_lookup {A} (l : list A) (n : nat) :
  (forall j, (j < n)%nat -> is_Some (l !! j)) -> l !! n = None -> length l = n.
Proof.
  intros Hlt Hn. apply lookup_ge_None in Hn.
  destruct (decide (length l = n)) as [|Hne]; [assumption|].
  assert (Hlen : (n < length l)%nat \/ (length l < n)%nat) by lia.
  destruct Hlen as [H|H]; [lia|].
  specialize (Hlt (length l) H). apply lookup_lt_is_Some in Hlt. lia.
Qed.

Lemma kept_count_spec (n step j : Z) :
  1 <= step -> 0 <= n -> 0 <= j ->
  (j < kept_count n step <-> j * step < n).
Proof.
  intros Hs Hn Hj. unfold kept_count.
  pose proof (Z.div_mod (n + step - 1) step ltac:(lia)) as E.
  pose proof (Z.mod_pos_bound (n + step - 1) step ltac:(lia)) as B.
  split; intros H; nia.
Qed.

Lemma length_read_frames (step : Z) (stream : list ndarray) :
  1 <= step ->
  Z.of_nat (length (read_frames step 0 stream []))
  = kept_count (Z.of_nat (length stream)) step.
Proof.
  intros Hs.
  assert (H0 : 0 <= kept_count (Z.of_nat (length stream)) step).
  { unfold kept_count. apply Z.div_pos; lia. }
  rewrite (length_from_lookup _ (Z.to_nat (kept_count (Z.of_nat (length stream)) step))).
  - lia.
  - intros j Hj. rewrite read_frames_lookup by assumption.
    rewrite Z.mod_0_l by lia. apply fmap_is_Some, lookup_lt_is_Some.
    assert (Z.of_nat j * step < Z.of_nat (length stream))
      by (apply kept_count_spec; lia).
    lia.
  - rewrite read_frames_lookup by assumption.
    rewrite Z.mod_0_l by lia.
    replace (stream !! _) with (@None ndarray); [reflexivity|].
    symmetry. apply lookup_ge_None.
    assert (~ (kept_count (Z.of_nat (length stream)) step * step
               < Z.of_nat (length stream))).
    { intros H. apply kept_count_spec in H; lia. }
    lia.
Qed.

(** X8. From a capture that opened, [load_video] keeps the frames read at
    the positions 0, step, 2 * step, ... (step = max(1, n // 300) for the
    frame count n the capture reports), in the order read and converted to
    RGB; the dictionary carries the capture's width and height and a count
    equal to the number of frames kept, the stream length divided by the
    step and rounded up. *)
Theorem load_video_sampling (cap : VideoCapture) :
  isOpened cap = true ->
  let step := Z.max 1 (CAP_PROP_FRAME_COUNT cap / 300) in
  exists i,
    load_video (Some cap) = Some i /\
    width i = CAP_PROP_FRAME_WIDTH cap /\
    height i = CAP_PROP_FRAME_HEIGHT cap /\
    count i = Z.of_nat (length (frames i)) /\
    count i = kept_count (Z.of_nat (length (reads cap))) step /\
    forall j : nat,
      frames i !! j
      = cvtColor_BGR2RGB <$> reads cap !! Z.to_nat (Z.of_nat j * step).
Proof.
  intros Hopen step. unfold load_video. rewrite Hopen. cbn [negb].
  eexists. split; [reflexivity|]. cbn [width height count frames]. fold step.
  assert (Hs : 1 <= step) by (unfold step; lia).
  repeat split.
  - now apply length_read_frames.
  - intros j. rewrite read_frames_lookup by assumption.
    now rewrite Z.mod_0_l by lia.
Qed.

Lemma load_video_sampling_example :
  isOpened five_frame_capture = true /\
  exists i,
    load_video (Some five_frame_capture) = Some i /\
    count i = 5 /\
    frames i !! 2%nat = Some (solid 1 1 (0, 0, 2)).
Proof.
  split; [reflexivity|].
  destruct (load_video_sampling five_frame_capture eq_refl)
    as (i & Hi & _ & _ & _ & Hc & Hf).
  exists i. split; [exact Hi|]. split.
  - rewrite Hc. reflexivity.
  - rewrite Hf. reflexivity.
Defined.

(** X9. When the frame count the capture reports is the number of frames
    it yields, at most 599 frames are kept; a stream shorter than 600 frames
    is kept whole, and of a stream of 300 frames or more at least 300 are
    kept. *)
Theorem load_video_frame_budget (cap : VideoCapture) :
  isOpened cap = true ->
  CAP_PROP_FRAME_COUNT cap = Z.of_nat (length (reads cap)) ->
  exists i,
    load_video (Some cap) = Some i /\
    count i <= 599 /\
    count i <= Z.of_nat (length (reads cap)) /\
    (Z.of_nat (length (reads cap)) < 600 ->
     frames i = cvtColor_BGR2RGB <$> reads cap) /\
    (300 <= Z.of_nat (length (reads cap)) -> 300 <= count i).
Proof.
  intros Hopen Hn. unfold load_video. rewrite Hopen. cbn [negb].
  eexists. split; [reflexivity|]. cbn [count frames]. rewrite Hn.
  set (n := Z.of_nat (length (reads cap))).
  set (step := Z.max 1 (n / 300)).
  assert (Hn0 : 0 <= n) by (unfold n; lia).
  assert (Hs : 1 <= step) by (unfold step; lia).
  rewrite (length_read_frames step (reads cap) Hs). fold n.
  pose proof (Z.div_mod n 300 ltac:(lia)) as Ed.
  pose proof (Z.mod_pos_bound n 300 ltac:(lia)) as Bd.
  unfold kept_count.
  pose proof (Z.div_mod (n + step - 1) step ltac:(lia)) as Ek.
  pose proof (Z.mod_pos_bound (n + step - 1) step ltac:(lia)) as Bk.
  assert (Hstep : step = 1 \/ (step = n / 300 /\ 2 <= step)) by (unfold step; lia).
  repeat split.
  - destruct Hstep as [H1|[H2 H3]]; [|nia].
    assert (n / 300 <= 1) by (unfold step in H1; lia). nia.
  - nia.
  - intros Hlt. assert (H1 : step = 1) by (unfold step; lia). rewrite H1.
    apply list_eq. intros j.
    rewrite read_frames_lookup, list_lookup_fmap by lia.
    rewrite Z.mod_0_l by lia.
    replace (Z.to_nat (0 + Z.of_nat j * 1)) with j by lia.
    reflexivity.
  - intros Hge. nia.
Qed.

Lemma load_video_frame_budget_example :
  isOpened five_frame_capture = true /\
  CAP_PROP_FRAME_COUNT five_frame_capture
  = Z.of_nat (length (reads five_frame_capture)) /\
  exists i,
    load_video (Some five_frame_capture) = Some i /\
    frames i = cvtColor_BGR2RGB <$> reads five_frame_capture.
Proof.
  split; [reflexivity|]. split; [reflexivity|].
  destruct (load_video_frame_budget five_frame_capture eq_refl eq_refl)
    as (i & Hi & _ & _ & Hall & _).
  exists i. split; [exact Hi|]. apply Hall. simpl. lia.
Defined.

Lemma py_index_nil {A} (i : Z) : py_index (@nil A) i = Raise IndexError.
Proof.
  unfold py_index. cbn [length].
  destruct (i <? 0) eqn:E.
  - replace (i + Z.of_nat 0 <? 0) with true; [reflexivity|].
    symmetry. apply Z.ltb_lt. apply Z.ltb_lt in E. lia.
  - apply Z.ltb_ge in E.
    replace (Z.of_nat 0 <=? i) with true; [now rewrite orb_true_r|].
    symmetry. apply Z.leb_le. lia.
Qed.

(** X10. A path that is missing and a capture that does not open give
    [None]; a capture that opens and yields no frame does not: the
    dictionary returned has an empty frame list. With it as the reference
    there is no common frame, and the pixel probe raises IndexError at every
    coordinate inside the declared size. *)
Theorem load_video_without_frames
    (cv2_resize : ndarray -> Z -> Z -> interpolation -> result ndarray)
    (cap : VideoCapture) (vc : VideoComparator) (x y : Z) :
  isOpened cap = true -> reads cap = [] ->
  0 <= x < CAP_PROP_FRAME_WIDTH cap -> 0 <= y < CAP_PROP_FRAME_HEIGHT cap ->
  load_video None = None /\
  (forall c, isOpened c = false -> load_video (Some c) = None) /\
  exists i,
    load_video (Some cap) = Some i /\ frames i = [] /\ count i = 0 /\
    frame_count (final_state (set_ref i vc)) = 0 /\
    get_pixel_info cv2_resize (final_state (set_ref i vc)) x y = Raise IndexError.
Proof.
  intros Hopen Hreads Hx Hy.
  split; [reflexivity|].
  split; [intros c Hc; unfold load_video; now rewrite Hc|].
  unfold load_video. rewrite Hopen, Hreads. cbn [negb read_frames length].
  eexists. split; [reflexivity|]. cbn [frames count].
  split; [reflexivity|]. split; [reflexivity|].
  split; [reflexivity|].
  unfold get_pixel_info. cbn [set_ref modify final_state ref_info ref_frames width height].
  replace ((0 <=? x) && (x <? CAP_PROP_FRAME_WIDTH cap) && (0 <=? y)
           && (y <? CAP_PROP_FRAME_HEIGHT cap)) with true.
  2: { symmetry. rewrite !andb_true_iff.
       repeat split; first [apply Z.leb_le | apply Z.ltb_lt]; lia. }
  cbn [negb frames]. now rewrite py_index_nil.
Qed.

Lemma load_video_without_frames_example :
  isOpened empty_capture = true /\ reads empty_capture = [] /\
  exists i,
    load_video (Some empty_capture) = Some i /\ frames i = [] /\
    get_pixel_info sample_resize (final_state (set_ref i ten_frames)) 1 1
    = Raise IndexError.
Proof.
  split; [reflexivity|]. split; [reflexivity|].
  destruct (load_video_without_frames sample_resize empty_capture ten_frames 1 1
              eq_refl eq_refl)
    as (_ & _ & i & Hi & Hf & _ & _ & Hp); [simpl; lia | simpl; lia |].
  exists i. repeat split; assumption.
Defined.

(** ** Folder loader: proofs *)

Lemma string_compare_lt_trans (s1 s2 s3 : string) :
  String.compare s1 s2 = Lt -> String.compare s2 s3 = Lt ->
  String.compare s1 s3 = Lt.
Proof.
  revert s2 s3. induction s1 as [|a s1 IH]; intros [|b s2] [|c s3];
    simpl; try congruence.
  unfold Ascii.compare.
  destruct (N.compare_spec (Ascii.N_of_ascii a) (Ascii.N_of_ascii b))
    as [Eab|Lab|Gab]; try congruence;
  destruct (N.compare_spec (Ascii.N_of_ascii b) (Ascii.N_of_ascii c))
    as [Ebc|Lbc|Gbc]; try congruence; intros H12 H23.
  - rewrite Eab, Ebc, N.compare_refl. eauto.
  - rewrite Eab. now apply N.compare_lt_iff in Lbc as ->.
  - rewrite <- Ebc. now apply N.compare_lt_iff in Lab as ->.
  - assert (L : (Ascii.N_of_ascii a < Ascii.N_of_ascii c)%N) by lia.
    now apply N.compare_lt_iff in L as ->.
Qed.

Lemma string_le_cases (a b : string) :
  string_le a b <-> a = b \/ String.compare a b = Lt.
Proof.
  unfold string_le, String.leb. split.
  - destruct (String.compare a b) eqn:E; try discriminate.
    + left. now apply String.compare_eq_iff.
    + now right.
  - intros [-> | ->]; [|reflexivity].
    replace (String.compare b b) with Eq; [reflexivity|].
    symmetry. induction b as [|c b IH]; simpl; [reflexivity|].
    unfold Ascii.compare. now rewrite N.compare_refl.
Qed.

#[local] Instance string_le_trans : Transitive string_le.
Proof.
  intros a b c Hab Hbc. apply string_le_cases in Hab, Hbc. apply string_le_cases.
  destruct Hab as [-> | Hab]; [assumption|].
  destruct Hbc as [<- | Hbc]; [now right|].
  right. eapply string_compare_lt_trans; eassumption.
Qed.

#[local] Instance string_le_antisym : AntiSymm eq string_le.
Proof. intros a b. apply String.leb_antisym. Qed.

Lemma insert_sorted_perm (x : string) (l : list string) :
  insert_sorted x l ≡ₚ x :: l.
Proof.
  induction l as [|y l IH]; simpl; [reflexivity|].
  destruct (String.leb x y); [reflexivity|].
  rewrite IH. apply Permutation_swap.
Qed.

Lemma sorted_perm (l : list string) : sorted l ≡ₚ l.
Proof.
  induction l as [|x l IH]; simpl; [reflexivity|].
  now rewrite insert_sorted_perm, IH.
Qed.

Lemma insert_sorted_sorted (x : string) (l : list string) :
  StronglySorted string_le l -> StronglySorted string_le (insert_sorted x l).
Proof.
  induction 1 as [|y l Hl IH Hy]; simpl.
  - repeat constructor.
  - destruct (String.leb x y) eqn:E.
    + constructor; [now constructor|].
      constructor; [exact E|].
      eapply Forall_impl; [exact Hy|].
      intros z Hz. now transitivity y.
    + constructor; [exact IH|].
      rewrite insert_sorted_perm. constructor; [|exact Hy].
      destruct (String.leb_total x y) as [H|H]; [congruence|exact H].
Qed.

Lemma sorted_sorted (l : list string) : StronglySorted string_le (sorted l).
Proof.
  induction l as [|x l IH]; simpl; [constructor|].
  now apply insert_sorted_sorted.
Qed.

Lemma sorted_permutation_invariant (l1 l2 : list string) :
  l1 ≡ₚ l2 -> sorted l1 = sorted l2.
Proof.
  intros H. apply (StronglySorted_unique string_le); try apply sorted_sorted.
  now rewrite !sorted_perm.
Qed.

Section FolderLoaderProperties.

Variable suffix_lower : string -> string.
Variable imread : string -> option ndarray.

Lemma collect_image_files_filter (names image_files : list string) :
  collect_image_files suffix_lower names image_files
  = image_files ++ List.filter (is_image_file suffix_lower) names.
Proof.
  revert image_files.
  induction names as [|n names IH]; intros acc;
    cbn [collect_image_files List.filter].
  - now rewrite app_nil_r.
  - rewrite IH.
    change (existsb (String.eqb (suffix_lower n)) image_extensions)
      with (is_image_file suffix_lower n).
    destruct (is_image_file suffix_lower n);
      [now rewrite <- app_assoc | reflexivity].
Qed.

Lemma read_images_spec (image_files : list string) (acc : list ndarray)
    (wh : option (Z * Z)) :
  read_images imread image_files acc wh
  = (acc ++ (cvtColor_BGR2RGB <$> omap imread image_files),
     match wh with
     | Some _ => wh
     | None => (fun img => (nd_w img, nd_h img)) <$> head (omap imread image_files)
     end).
Proof.
  revert acc wh. induction image_files as [|f files IH]; intros acc wh; simpl.
  - rewrite app_nil_r. now destruct wh.
  - destruct (imread f) as [img|]; simpl.
    + rewrite IH, <- app_assoc. now destruct wh.
    + apply IH.
Qed.

Lemma load_images_from_folder_spec (names : list string) :
  load_images_from_folder suffix_lower imread (Some names)
  = info_of_images
      (omap imread (List.filter (is_image_file suffix_lower) (sorted names))).
Proof.
  unfold load_images_from_folder.
  rewrite collect_image_files_filter. cbn [app].
  set (files := List.filter _ _).
  rewrite read_images_spec. cbn [app].
  destruct files as [|f files]; [reflexivity|].
  cbn [is_empty]. 
  destruct (omap imread (f :: files)) as [|first images]; [reflexivity|].
  unfold info_of_images. rewrite length_fmap. reflexivity.
Qed.

(** X11. From a folder that exists, [load_images_from_folder] returns the
    files that carry an image extension and that can be read, converted to
    RGB, in ascending order of their names whatever the order of the
    listing; width and height are those of the first image read, later
    images keep their own size, and the count is the number of frames. With
    no such image the result is [None]. *)
Theorem load_images_from_folder_contents (names : list string) :
  let listed := sorted names in
  let images := omap imread (List.filter (is_image_file suffix_lower) listed) in
  StronglySorted string_le listed /\
  listed ≡ₚ names /\
  load_images_from_folder suffix_lower imread (Some names) = info_of_images images /\
  (load_images_from_folder suffix_lower imread (Some names) = None <->
   forall name, name ∈ names -> is_image_file suffix_lower name = true ->
                imread name = None).
Proof.
  cbn zeta. split; [apply sorted_sorted|]. split; [apply sorted_perm|].
  split; [apply load_images_from_folder_spec|].
  rewrite load_images_from_folder_spec.
  set (files := List.filter _ _).
  assert (Hfiles : forall name, name ∈ files <->
            name ∈ names /\ is_image_file suffix_lower name = true).
  { intros name. unfold files.
    rewrite !list_elem_of_In, filter_In, <- !list_elem_of_In.
    now rewrite sorted_perm. }
  split.
  - intros Hnone name Hin Himg.
    destruct (imread name) as [img|] eqn:E; [|reflexivity].
    assert (Hel : img ∈ omap imread files).
    { apply list_elem_of_omap. exists name. split; [|exact E].
      apply Hfiles. now split. }
    destruct (omap imread files); [inversion Hel | discriminate Hnone].
  - intros Hall.
    destruct (omap imread files) as [|img rest] eqn:E; [reflexivity|].
    assert (Hel : img ∈ omap imread files) by (rewrite E; left).
    apply list_elem_of_omap in Hel as (name & Hin & Hread).
    apply Hfiles in Hin as [Hin Himg].
    rewrite (Hall name Hin Himg) in Hread. discriminate.
Qed.

(** X12. The result of [load_images_from_folder] does not depend on the
    order in which the directory listing names the files. *)
Theorem load_images_from_folder_listing_order (names names' : list string) :
  names ≡ₚ names' ->
  load_images_from_folder suffix_lower imread (Some names)
  = load_images_from_folder suffix_lower imread (Some names').
Proof.
  intros H. rewrite !load_images_from_folder_spec.
  now rewrite (sorted_permutation_invariant names names' H).
Qed.

End FolderLoaderProperties.

Lemma load_images_from_folder_listing_order_example :
  sample_listing ≡ₚ reverse sample_listing /\
  load_images_from_folder sample_suffix_lower sample_imread
    (Some (reverse sample_listing))
  = info_of_images [solid 1 2 (1, 2, 3); solid 2 2 (4, 5, 6)].
Proof.
  assert (H : sample_listing ≡ₚ reverse sample_listing)
    by (symmetry; apply reverse_Permutation).
  split; [exact H|].
  rewrite <- (load_images_from_folder_listing_order
                sample_suffix_lower sample_imread _ _ H).
  reflexivity.
Defined.

(** ** Refresh, diff toggle and swap: proofs *)

Lemma set_comparator_same (s : App) : set_comparator (comparator s) s = s.
Proof. now destruct s. Qed.

Lemma on_comparator_final_state {A} (m : M VideoComparator A) (s : App) :
  final_state (on_comparator m s)
  = set_comparator (final_state (m (comparator s))) s.
Proof. unfold on_comparator. now destruct (m (comparator s)). Qed.

Section HandlerFacts.

Variable cv2_resize : ndarray -> Z -> Z -> interpolation -> result ndarray.

Lemma get_frame_triplet_final_state (idx : Z) (cd : bool) (vc : VideoComparator) :
  final_state (get_frame_triplet cv2_resize idx cd vc)
  = if frame_count vc =? 0 then vc
    else set_current_frame_idx (served_index vc idx) vc.
Proof.
  rewrite get_frame_triplet_unfold. cbv zeta.
  destruct (frame_count vc =? 0); [reflexivity|].
  destruct (py_index (ref_frames vc) _); [|reflexivity].
  destruct (py_index (comp_frames vc) _); [|reflexivity].
  destruct (comp_resized cv2_resize vc _); [|reflexivity].
  destruct (negb cd); [reflexivity|].
  destruct (diff_rgb _ _); reflexivity.
Qed.

(** A projection of the comparator that the cursor assignment leaves alone
    is left alone by a call of [get_frame_triplet] from the application. *)
Lemma keeps_get_frame_triplet {B} (g : VideoComparator -> B) (idx : Z) (cd : bool) :
  (forall k vc, g (set_current_frame_idx k vc) = g vc) ->
  keeps (same_on (fun s => g (comparator s)))
        (on_comparator (get_frame_triplet cv2_resize idx cd)).
Proof.
  intros Hg s. unfold same_on.
  rewrite on_comparator_final_state, get_frame_triplet_final_state.
  cbn [comparator set_comparator].
  destruct (frame_count (comparator s) =? 0); [reflexivity | apply Hg].
Qed.

(** What a refresh keeps: a relation that the call on the comparator and
    every assignment of the render path keep is kept by the refresh. *)
Section RefreshKeeps.

Context (R : App -> App -> Prop) `{!PreOrder R}.
Hypothesis keeps_set_pan : forall px py s, R s (set_pan px py s).
Hypothesis keeps_new_buffer : forall a sh s, R s (set_new_zoom_buffer a sh s).
Hypothesis keeps_buffer_data : forall b a s, R s (set_zoom_buffer_data b a s).

Lemma _apply_view_transform_keeps (img : ndarray) :
  keeps R (_apply_view_transform cv2_resize img).
Proof.
  unfold _apply_view_transform, _zoom_in1.
  repeat first
    [ keeps_step
    | apply keeps_modify; intros ?;
      first [apply keeps_set_pan | apply keeps_new_buffer | apply keeps_buffer_data] ].
Qed.

Lemma on_frame_changed_keeps (idx : Z) :
  (forall cd, keeps R (on_comparator (get_frame_triplet cv2_resize idx cd))) ->
  (forall l img, keeps R (_set_pixmap l img)) ->
  keeps R (on_frame_changed cv2_resize idx).
Proof.
  intros Htriplet Hpix.
  unfold on_frame_changed, _display_triplet.
  repeat first
    [ match goal with
      | |- keeps _ (on_comparator _) => apply Htriplet
      | |- keeps _ (_apply_view_transform _ _) => apply _apply_view_transform_keeps
      | |- keeps _ (_set_pixmap _ _) => apply Hpix
      end
    | keeps_step ].
Qed.

End RefreshKeeps.

(** Closes [keeps (same_on f) (on_frame_changed idx)] for an attribute of
    the application that the refresh never assigns. *)
Ltac refresh_keeps :=
  apply on_frame_changed_keeps;
  [ typeclasses eauto
  | intros ? ? ?; reflexivity
  | intros ? ? ?; reflexivity
  | intros ? ? ?; reflexivity
  | intros ?; apply keeps_on_comparator; intros ? ?; reflexivity
  | intros ? ?; apply keeps_modify; intros ?; reflexivity ].

(** The loaded frames and their infos survive a refresh. *)
Lemma on_frame_changed_keeps_loaded {B} (g : VideoComparator -> B) (idx : Z) :
  (forall k vc, g (set_current_frame_idx k vc) = g vc) ->
  keeps (same_on (fun s => g (comparator s))) (on_frame_changed cv2_resize idx).
Proof.
  intros Hg.
  apply on_frame_changed_keeps;
    [ typeclasses eauto
    | intros ? ? ?; reflexivity
    | intros ? ? ?; reflexivity
    | intros ? ? ?; reflexivity
    | intros ?; apply keeps_get_frame_triplet, Hg
    | intros ? ?; apply keeps_modify; intros ?; reflexivity ].
Qed.

Lemma on_frame_changed_keeps_rotation_angle (idx : Z) :
  keeps (same_on rotation_angle) (on_frame_changed cv2_resize idx).
Proof. refresh_keeps. Qed.

Lemma on_frame_changed_keeps_diff_visible (idx : Z) :
  keeps (same_on diff_visible) (on_frame_changed cv2_resize idx).
Proof. refresh_keeps. Qed.

(** Without [compute_diff] no difference raster comes back. *)
Lemma get_frame_triplet_no_diff (idx : Z) (vc vc' : VideoComparator)
    (t : option ndarray * option ndarray * option ndarray) :
  get_frame_triplet cv2_resize idx false vc = Done t vc' -> snd t = None.
Proof.
  rewrite get_frame_triplet_unfold. cbv zeta. cbn [negb].
  destruct (frame_count vc =? 0); [now intros [= <- _]|].
  destruct (py_index (ref_frames vc) _); [|discriminate].
  destruct (py_index (comp_frames vc) _); [|discriminate].
  destruct (comp_resized cv2_resize vc _); [|discriminate].
  now intros [= <- _].
Qed.

(** With the diff hidden a refresh leaves the right label's raster alone. *)
Lemma on_frame_changed_hidden (idx : Z) (s : App) :
  diff_visible s = false ->
  right_pixmap (final_state (on_frame_changed cv2_resize idx s)) = right_pixmap s.
Proof.
  intros Hhid. unfold on_frame_changed.
  rewrite final_state_bind_get, Hhid, final_state_bind.
  unfold on_comparator.
  destruct (get_frame_triplet cv2_resize idx false (comparator s))
    as [t vc|e vc] eqn:Et; [|reflexivity].
  apply get_frame_triplet_no_diff in Et.
  destruct t as [[[ref|] [comp|]] diff]; try reflexivity.
  cbn [snd] in Et. subst diff.
  assert (K : keeps (same_on right_pixmap) (_display_triplet cv2_resize ref comp None)).
  { unfold _display_triplet.
    repeat first
      [ match goal with
        | |- keeps _ (_apply_view_transform _ _) =>
            apply _apply_view_transform_keeps;
            [typeclasses eauto | intros ? ? ?; reflexivity ..]
        end
      | keeps_step
      | apply keeps_modify; intros ?; reflexivity ]. }
  rewrite (K _). reflexivity.
Qed.

Lemma frame_count_swapped (vc : VideoComparator) :
  frame_count (swapped vc) = frame_count vc.
Proof.
  unfold frame_count, swapped. cbn [ref_frames comp_frames].
  rewrite orb_comm, Z.min_comm. reflexivity.
Qed.

(** X13. With no common frame (nothing loaded, or one side only), a refresh
    returns at once: it changes nothing and cannot fail. A pan request then
    adds to the stored pan with no clamp at all. *)
Theorem refresh_without_frames (idx dx dy : Z) (s : App) :
  frame_count (comparator s) = 0 ->
  on_frame_changed cv2_resize idx s = Done tt s /\
  on_pan_requested cv2_resize dx dy s
  = Done tt (set_pan (pan_x s + dx) (pan_y s + dy) s).
Proof.
  intros Hn.
  assert (H : forall i s0, frame_count (comparator s0) = 0 ->
                on_frame_changed cv2_resize i s0 = Done tt s0).
  { intros i s0 H0. unfold on_frame_changed, bind, get, on_comparator.
    rewrite get_frame_triplet_unfold, H0. cbn [Z.eqb].
    now rewrite set_comparator_same. }
  split; [now apply H|].
  unfold on_pan_requested, bind, get, modify. now rewrite H.
Qed.

(** X14. A refresh never changes the zoom, the rotation, the visibility of
    the diff, the slider, the label size, or the loaded frames and their
    infos, whether it returns or raises; what it writes is the pan, the
    cursor, the scratch buffer and the pixmaps. *)
Theorem refresh_preserves_settings (idx : Z) (s : App) :
  let s' := final_state (on_frame_changed cv2_resize idx s) in
  zoom s' = zoom s /\
  rotation_angle s' = rotation_angle s /\
  diff_visible s' = diff_visible s /\
  frame_slider_value s' = frame_slider_value s /\
  left_view_height s' = left_view_height s /\
  left_view_width s' = left_view_width s /\
  ref_frames (comparator s') = ref_frames (comparator s) /\
  comp_frames (comparator s') = comp_frames (comparator s) /\
  ref_info (comparator s') = ref_info (comparator s) /\
  comp_info (comparator s') = comp_info (comparator s).
Proof.
  cbv zeta.
  repeat split;
    try (apply (on_frame_changed_keeps_loaded ref_frames); reflexivity);
    try (apply (on_frame_changed_keeps_loaded comp_frames); reflexivity);
    try (apply (on_frame_changed_keeps_loaded ref_info); reflexivity);
    try (apply (on_frame_changed_keeps_loaded comp_info); reflexivity).
  - assert (K : keeps (same_on zoom) (on_frame_changed cv2_resize idx))
      by refresh_keeps. apply K.
  - apply on_frame_changed_keeps_rotation_angle.
  - apply on_frame_changed_keeps_diff_visible.
  - assert (K : keeps (same_on frame_slider_value) (on_frame_changed cv2_resize idx))
      by refresh_keeps. apply K.
  - assert (K : keeps (same_on left_view_height) (on_frame_changed cv2_resize idx))
      by refresh_keeps. apply K.
  - assert (K : keeps (same_on left_view_width) (on_frame_changed cv2_resize idx))
      by refresh_keeps. apply K.
Qed.

(** X15. Hiding the diff does not clear its panel: with the diff hidden no
    refresh writes the right label, so it keeps the raster it showed last,
    also across frame changes; and [toggle_diff_view] from the visible state
    hides the diff and leaves that raster in place. *)
Theorem hidden_diff_keeps_last_raster (idx : Z) (s : App) :
  (diff_visible s = false ->
   right_pixmap (final_state (on_frame_changed cv2_resize idx s)) = right_pixmap s) /\
  (diff_visible s = true ->
   diff_visible (final_state (toggle_diff_view cv2_resize s)) = false /\
   right_pixmap (final_state (toggle_diff_view cv2_resize s)) = right_pixmap s) /\
  diff_visible (final_state (toggle_diff_view cv2_resize s)) = negb (diff_visible s).
Proof.
  assert (Hvis : diff_visible (final_state (toggle_diff_view cv2_resize s))
                 = negb (diff_visible s)).
  { unfold toggle_diff_view.
    rewrite final_state_bind_get, final_state_bind_modify.
    rewrite (on_frame_changed_keeps_diff_visible _ _). reflexivity. }
  split; [apply on_frame_changed_hidden|]. split; [|exact Hvis].
  intros Hshown. split; [now rewrite Hvis, Hshown|].
  unfold toggle_diff_view.
  rewrite final_state_bind_get, final_state_bind_modify, Hshown.
  now rewrite on_frame_changed_hidden.
Qed.

(** X16. [swap_left_right] exchanges the two sequences with their infos and
    leaves the number of common frames as it was, whether the refresh it
    ends with returns or raises; a second swap restores all four. *)
Theorem swap_left_right_exchanges (s : App) :
  let s1 := final_state (swap_left_right cv2_resize s) in
  let s2 := final_state (swap_left_right cv2_resize s1) in
  (ref_frames (comparator s1) = comp_frames (comparator s) /\
   comp_frames (comparator s1) = ref_frames (comparator s) /\
   ref_info (comparator s1) = comp_info (comparator s) /\
   comp_info (comparator s1) = ref_info (comparator s)) /\
  frame_count (comparator s1) = frame_count (comparator s) /\
  (ref_frames (comparator s2) = ref_frames (comparator s) /\
   comp_frames (comparator s2) = comp_frames (comparator s) /\
   ref_info (comparator s2) = ref_info (comparator s) /\
   comp_info (comparator s2) = comp_info (comparator s)).
Proof.
  assert (Hswap : forall {B} (g : VideoComparator -> B) s0,
            (forall k vc, g (set_current_frame_idx k vc) = g vc) ->
            g (comparator (final_state (swap_left_right cv2_resize s0)))
            = g (swapped (comparator s0))).
  { intros B g s0 Hg. unfold swap_left_right.
    rewrite final_state_bind_get, final_state_bind_modify, final_state_bind_get.
    destruct (0 <? frame_count _); [|reflexivity].
    rewrite (on_frame_changed_keeps_loaded g _ Hg _). reflexivity. }
  cbv zeta.
  assert (H1 : (ref_frames (comparator (final_state (swap_left_right cv2_resize s)))
                = comp_frames (comparator s) /\
                comp_frames (comparator (final_state (swap_left_right cv2_resize s)))
                = ref_frames (comparator s) /\
                ref_info (comparator (final_state (swap_left_right cv2_resize s)))
                = comp_info (comparator s) /\
                comp_info (comparator (final_state (swap_left_right cv2_resize s)))
                = ref_info (comparator s))).
  { repeat split; rewrite Hswap; reflexivity. }
  destruct H1 as (Hrf & Hcf & Hri & Hci).
  split; [repeat split; assumption|]. split.
  - unfold frame_count at 1. rewrite Hrf, Hcf.
    rewrite <- (frame_count_swapped (comparator s)). reflexivity.
  - repeat split; rewrite Hswap by reflexivity; cbn [swapped ref_frames comp_frames
      ref_info comp_info]; assumption.
Qed.

(** X17. The scratch attributes are consistent in every state the
    application reaches: they are at the start, and every handler keeps them
    so, returning or raising. Hence the branch that clears the scratch array
    in place always finds an array, of the shape it is about to use. *)
Theorem scratch_attributes_consistent :
  (forall vc view_h view_w, zoom_buffer_inv (App_init vc view_h view_w)) /\
  (forall idx, keeps (maintains zoom_buffer_inv) (on_frame_changed cv2_resize idx)) /\
  (forall delta, keeps (maintains zoom_buffer_inv) (on_zoom_requested cv2_resize delta)) /\
  (forall dx dy, keeps (maintains zoom_buffer_inv) (on_pan_requested cv2_resize dx dy)) /\
  keeps (maintains zoom_buffer_inv) (rotate_left cv2_resize) /\
  keeps (maintains zoom_buffer_inv) (rotate_right cv2_resize) /\
  keeps (maintains zoom_buffer_inv) (reset_rotation cv2_resize) /\
  keeps (maintains zoom_buffer_inv) (fit_to_screen cv2_resize) /\
  keeps (maintains zoom_buffer_inv) (toggle_diff_view cv2_resize) /\
  keeps (maintains zoom_buffer_inv) (swap_left_right cv2_resize) /\
  (forall s crop_h crop_w,
     zoom_buffer_inv s ->
     shape_differs (_zoom_buffer_shape s) (crop_h, crop_w, 3) = false ->
     exists b, _zoom_buffer s = Some b /\
               nd_h (obj_data b) = crop_h /\ nd_w (obj_data b) = crop_w).
Proof.
  destruct (zoom_buffer_inv_reachable cv2_resize)
    as (H0 & _ & Hf & Hz & Hp & Hl & Hr & Hrr & Hfit).
  repeat (split; [assumption|]).
  split; [|split].
  - unfold toggle_diff_view.
    repeat first
      [ match goal with
        | |- keeps _ (on_frame_changed _ _) => apply Hf
        end
      | keeps_step
      | apply keeps_modify; intros ? Hkept; exact Hkept ].
  - unfold swap_left_right.
    repeat first
      [ match goal with
        | |- keeps _ (on_frame_changed _ _) => apply Hf
        end
      | keeps_step
      | apply keeps_modify; intros ? Hkept; exact Hkept ].
  - intros s crop_h crop_w Hinv Hsame. unfold zoom_buffer_inv in Hinv.
    unfold shape_differs in Hsame.
    destruct (_zoom_buffer_shape s) as [[[h w] c]|]; [|discriminate].
    apply negb_false_iff, shape3_eqb_eq in Hsame. injection Hsame as -> -> ->.
    destruct Hinv as (b & Hb & _ & Hh & Hw & _). eauto.
Qed.

End HandlerFacts.

Lemma refresh_without_frames_example :
  frame_count (comparator (App_init VideoComparator_init 300 400)) = 0 /\
  on_pan_requested sample_resize 1000 0 (App_init VideoComparator_init 300 400)
  = Done tt (set_pan 1000 0 (App_init VideoComparator_init 300 400)).
Proof.
  split; [reflexivity|].
  apply (refresh_without_frames sample_resize 0 1000 0
           (App_init VideoComparator_init 300 400) eq_refl).
Defined.

(** ** Rotation: proofs *)

(** Well-formed arrays with the same shape and the same pixels are equal. *)
Lemma nd_ext (a b : ndarray) :
  nd_wf a -> nd_wf b -> nd_h a = nd_h b -> nd_w a = nd_w b ->
  (forall y x, 0 <= y < nd_h a -> 0 <= x < nd_w a -> nd_get a y x = nd_get b y x) ->
  a = b.
Proof.
  destruct a as [h w pa], b as [h' w' pb].
  intros (Hw & Hh & Hrows) (_ & Hh' & Hrows') Eh Ew Hget.
  cbn [nd_h nd_w nd_px] in *.
  enough (pa = pb) by (subst; reflexivity).
  apply list_eq. intros i.
  destruct (decide (i < length pa)%nat) as [Hi|Hi].
  - destruct (lookup_lt_is_Some_2 pa i Hi) as [ra Hra].
    destruct (lookup_lt_is_Some_2 pb i ltac:(lia)) as [rb Hrb].
    rewrite Hra, Hrb. f_equal.
    pose proof (Forall_lookup_1 _ _ _ _ Hrows Hra) as Hla.
    pose proof (Forall_lookup_1 _ _ _ _ Hrows' Hrb) as Hlb.
    cbn beta in Hla, Hlb.
    apply list_eq. intros j.
    destruct (decide (j < length ra)%nat) as [Hj|Hj].
    + specialize (Hget (Z.of_nat i) (Z.of_nat j) ltac:(lia) ltac:(lia)).
      unfold nd_get in Hget. cbn [nd_px] in Hget.
      rewrite !Nat2Z.id, Hra, Hrb in Hget. exact Hget.
    + rewrite !(proj2 (lookup_ge_None _ _)) by lia. reflexivity.
  - rewrite !(proj2 (lookup_ge_None _ _)) by lia. reflexivity.
Qed.

Lemma lookup_columns (a : ndarray) (j : nat) :
  (j < Z.to_nat (nd_w a))%nat -> columns a !! j = Some (column a j).
Proof.
  intros Hj. unfold columns.
  rewrite list_lookup_fmap, lookup_seq_lt by exact Hj. reflexivity.
Qed.

Lemma lookup_column (a : ndarray) (j k : Z) :
  nd_wf a -> 0 <= j < nd_w a -> 0 <= k < nd_h a ->
  column a (Z.to_nat j) !! Z.to_nat k = nd_get a k j.
Proof.
  intros Hwf Hj Hk. unfold column, nd_get. rewrite list_lookup_fmap.
  destruct (lookup_lt_is_Some_2 (nd_px a) (Z.to_nat k)) as [row Hrow].
  { destruct Hwf as (_ & Hh & _). lia. }
  rewrite Hrow. cbn [fmap option_fmap option_map mbind option_bind].
  destruct (lookup_lt_is_Some_2 row (Z.to_nat j)) as [p Hp].
  { pose proof (nd_wf_row a _ row Hwf Hrow). lia. }
  now rewrite Hp.
Qed.

Lemma length_column (a : ndarray) (j : nat) :
  nd_wf a -> Z.of_nat (length (column a j)) = nd_h a.
Proof. intros (_ & Hh & _). unfold column. now rewrite length_fmap. Qed.

(** Where each pixel of a rotated array comes from. *)
Lemma nd_get_rotate_90_clockwise (a : ndarray) (y x : Z) :
  nd_wf a -> 0 <= y < nd_w a -> 0 <= x < nd_h a ->
  nd_get (rotate_90_clockwise a) y x = nd_get a (nd_h a - 1 - x) y.
Proof.
  intros Hwf Hy Hx. unfold nd_get at 1. cbn [rotate_90_clockwise nd_px].
  rewrite list_lookup_fmap, lookup_columns by lia.
  cbn [fmap option_fmap option_map mbind option_bind].
  pose proof (length_column a (Z.to_nat y) Hwf) as Hlen.
  rewrite reverse_lookup by lia.
  replace (length (column a (Z.to_nat y)) - S (Z.to_nat x))%nat
    with (Z.to_nat (nd_h a - 1 - x)) by lia.
  apply lookup_column; [assumption | lia | lia].
Qed.

Lemma nd_get_rotate_90_counterclockwise (a : ndarray) (y x : Z) :
  nd_wf a -> 0 <= y < nd_w a -> 0 <= x < nd_h a ->
  nd_get (rotate_90_counterclockwise a) y x = nd_get a x (nd_w a - 1 - y).
Proof.
  intros Hwf Hy Hx. unfold nd_get at 1. cbn [rotate_90_counterclockwise nd_px].
  pose proof (length_columns a) as Hlen.
  rewrite reverse_lookup by lia.
  replace (length (columns a) - S (Z.to_nat y))%nat
    with (Z.to_nat (nd_w a - 1 - y)) by lia.
  rewrite lookup_columns by lia.
  cbn [mbind option_bind].
  apply lookup_column; [assumption | lia | lia].
Qed.

Lemma nd_get_rotate_180 (a : ndarray) (y x : Z) :
  nd_wf a -> 0 <= y < nd_h a -> 0 <= x < nd_w a ->
  nd_get (rotate_180 a) y x = nd_get a (nd_h a - 1 - y) (nd_w a - 1 - x).
Proof.
  intros Hwf Hy Hx. pose proof Hwf as (_ & Hh & _).
  unfold nd_get. cbn [rotate_180 nd_px].
  rewrite reverse_lookup by (rewrite length_fmap; lia).
  rewrite length_fmap, list_lookup_fmap.
  replace (length (nd_px a) - S (Z.to_nat y))%nat
    with (Z.to_nat (nd_h a - 1 - y)) by lia.
  destruct (lookup_lt_is_Some_2 (nd_px a) (Z.to_nat (nd_h a - 1 - y)))
    as [row Hrow]; [lia|].
  rewrite Hrow. cbn [fmap option_fmap option_map mbind option_bind].
  pose proof (nd_wf_row a _ row Hwf Hrow) as Hlen.
  rewrite reverse_lookup by lia. f_equal. lia.
Qed.

(** Closes an equation between two rotated arrays pixel by pixel. *)
Ltac rotation_ext :=
  apply nd_ext;
  [ auto using rotate_90_clockwise_wf, rotate_180_wf, rotate_90_counterclockwise_wf ..
  | reflexivity | reflexivity
  | cbn [nd_h nd_w rotate_90_clockwise rotate_180 rotate_90_counterclockwise];
    intros y x Hy Hx;
    repeat first
      [ rewrite nd_get_rotate_90_clockwise
          by (cbn [nd_h nd_w rotate_90_clockwise rotate_180 rotate_90_counterclockwise];
              auto using rotate_90_clockwise_wf, rotate_180_wf,
                         rotate_90_counterclockwise_wf; lia)
      | rewrite nd_get_rotate_90_counterclockwise
          by (cbn [nd_h nd_w rotate_90_clockwise rotate_180 rotate_90_counterclockwise];
              auto using rotate_90_clockwise_wf, rotate_180_wf,
                         rotate_90_counterclockwise_wf; lia)
      | rewrite nd_get_rotate_180
          by (cbn [nd_h nd_w rotate_90_clockwise rotate_180 rotate_90_counterclockwise];
              auto using rotate_90_clockwise_wf, rotate_180_wf,
                         rotate_90_counterclockwise_wf; lia) ];
    cbn [nd_h nd_w rotate_90_clockwise rotate_180 rotate_90_counterclockwise];
    f_equal; lia ].

Lemma rotate_cw_cw (a : ndarray) :
  nd_wf a -> rotate_90_clockwise (rotate_90_clockwise a) = rotate_180 a.
Proof. intros Hwf. rotation_ext. Qed.

Lemma rotate_cw_180 (a : ndarray) :
  nd_wf a -> rotate_90_clockwise (rotate_180 a) = rotate_90_counterclockwise a.
Proof. intros Hwf. rotation_ext. Qed.

Lemma rotate_cw_ccw (a : ndarray) :
  nd_wf a -> rotate_90_clockwise (rotate_90_counterclockwise a) = a.
Proof. intros Hwf. rotation_ext. Qed.

Lemma rotate_ccw_cw (a : ndarray) :
  nd_wf a -> rotate_90_counterclockwise (rotate_90_clockwise a) = a.
Proof. intros Hwf. rotation_ext. Qed.

Lemma rotate_ccw_180 (a : ndarray) :
  nd_wf a -> rotate_90_counterclockwise (rotate_180 a) = rotate_90_clockwise a.
Proof. intros Hwf. rotation_ext. Qed.

Lemma rotate_ccw_ccw (a : ndarray) :
  nd_wf a -> rotate_90_counterclockwise (rotate_90_counterclockwise a) = rotate_180 a.
Proof. intros Hwf. rotation_ext. Qed.

Lemma rotate_180_180 (a : ndarray) : nd_wf a -> rotate_180 (rotate_180 a) = a.
Proof. intros Hwf. rotation_ext. Qed.

Lemma rotate_180_cw (a : ndarray) :
  nd_wf a -> rotate_180 (rotate_90_clockwise a) = rotate_90_counterclockwise a.
Proof. intros Hwf. rotation_ext. Qed.

Lemma rotate_180_ccw (a : ndarray) :
  nd_wf a -> rotate_180 (rotate_90_counterclockwise a) = rotate_90_clockwise a.
Proof. intros Hwf. rotation_ext. Qed.

Section RotationFacts.

Variable cv2_resize : ndarray -> Z -> Z -> interpolation -> result ndarray.

Lemma rotate_right_angle (s : App) :
  rotation_angle (final_state (rotate_right cv2_resize s))
  = (rotation_angle s + 90) mod 360.
Proof.
  unfold rotate_right, _reset_pan_and_refresh.
  rewrite final_state_bind_get, final_state_bind_modify,
          final_state_bind_get, final_state_bind_modify.
  now rewrite (on_frame_changed_keeps_rotation_angle _ _ _).
Qed.

Lemma rotate_left_angle (s : App) :
  rotation_angle (final_state (rotate_left cv2_resize s))
  = (rotation_angle s - 90) mod 360.
Proof.
  unfold rotate_left, _reset_pan_and_refresh.
  rewrite final_state_bind_get, final_state_bind_modify,
          final_state_bind_get, final_state_bind_modify.
  now rewrite (on_frame_changed_keeps_rotation_angle _ _ _).
Qed.

(** The image shown after a turn is the image shown before, turned. *)
Lemma rotated_after_turn (angle : Z) (img : ndarray) :
  quarter_turn angle -> nd_wf img ->
  quarter_turn ((angle + 90) mod 360) /\
  quarter_turn ((angle - 90) mod 360) /\
  rotated ((angle + 90) mod 360) img = rotate_90_clockwise (rotated angle img) /\
  rotated ((angle - 90) mod 360) img
  = rotate_90_counterclockwise (rotated angle img) /\
  ((angle + 90) mod 360 - 90) mod 360 = angle.
Proof.
  intros Hq Hwf. unfold quarter_turn in *.
  destruct Hq as [-> | [-> | [-> | ->]]];
    repeat match goal with
           | |- context [?e mod 360] =>
               let v := eval vm_compute in (e mod 360) in
               progress change (e mod 360) with v
           end;
    unfold rotated; cbn [Z.eqb Pos.eqb];
    repeat (rewrite ?rotate_cw_cw, ?rotate_cw_180, ?rotate_cw_ccw, ?rotate_ccw_cw,
                    ?rotate_ccw_180, ?rotate_ccw_ccw, ?rotate_180_180,
                    ?rotate_180_cw, ?rotate_180_ccw
              by auto using rotate_90_clockwise_wf, rotate_180_wf,
                            rotate_90_counterclockwise_wf);
    intuition (auto; lia).
Qed.

(** X18. Starting from one of the four angles, [rotate_right] turns what
    is shown a quarter clockwise and [rotate_left] a quarter
    counterclockwise, for every well-formed image: the shape is transposed,
    and the pixel shown at row [y], column [x] is the one shown before at
    row [h - 1 - x], column [y] (right), at row [x], column [w - 1 - y]
    (left), [h] and [w] being the shape shown before; at angle 0 the image
    is shown as it is. The angle stays one of the four and a left turn
    undoes a right turn. *)
Theorem rotation_turns_view (s : App) (img : ndarray) (y x : Z) :
  quarter_turn (rotation_angle s) -> nd_wf img ->
  let shown := rotated (rotation_angle s) img in
  let right := final_state (rotate_right cv2_resize s) in
  let left := final_state (rotate_left cv2_resize s) in
  0 <= y < nd_w shown -> 0 <= x < nd_h shown ->
  rotated 0 img = img /\
  shape2 (rotated (rotation_angle right) img) = (nd_w shown, nd_h shown) /\
  nd_get (rotated (rotation_angle right) img) y x
  = nd_get shown (nd_h shown - 1 - x) y /\
  shape2 (rotated (rotation_angle left) img) = (nd_w shown, nd_h shown) /\
  nd_get (rotated (rotation_angle left) img) y x
  = nd_get shown x (nd_w shown - 1 - y) /\
  quarter_turn (rotation_angle right) /\
  quarter_turn (rotation_angle left) /\
  rotation_angle (final_state (rotate_left cv2_resize right)) = rotation_angle s.
Proof.
  intros Hq Hwf shown right left Hy Hx. subst right left.
  repeat first [rewrite rotate_left_angle | rewrite rotate_right_angle].
  destruct (rotated_after_turn (rotation_angle s) img Hq Hwf)
    as (Hqr & Hql & Hr & Hl & Hback).
  rewrite Hr, Hl. fold shown.
  assert (Hshown : nd_wf shown) by now apply rotated_wf.
  split; [reflexivity|].
  split; [reflexivity|].
  split; [now apply nd_get_rotate_90_clockwise|].
  split; [reflexivity|].
  split; [now apply nd_get_rotate_90_counterclockwise|].
  repeat split; assumption.
Qed.

End RotationFacts.

Lemma numbered_2x3_wf : nd_wf numbered_2x3.
Proof.
  repeat split; [cbn; lia|]. cbn [nd_px numbered_2x3 nd_w].
  repeat constructor.
Qed.

(** The pixel numbered 4, first of the second row, is shown at the top left
    after a right turn, and the one numbered 3, last of the first row,
    after a left turn. *)
Lemma rotation_turns_view_example :
  quarter_turn (rotation_angle small_frames_app) /\ nd_wf numbered_2x3 /\
  nd_get (rotated (rotation_angle
                     (final_state (rotate_right sample_resize small_frames_app)))
                  numbered_2x3) 0 0
  = Some (4, 0, 0) /\
  nd_get (rotated (rotation_angle
                     (final_state (rotate_left sample_resize small_frames_app)))
                  numbered_2x3) 0 0
  = Some (3, 0, 0).
Proof.
  assert (Hq : quarter_turn (rotation_angle small_frames_app)) by (left; reflexivity).
  pose proof numbered_2x3_wf as Hwf.
  split; [exact Hq|]. split; [exact Hwf|].
  destruct (rotation_turns_view sample_resize small_frames_app numbered_2x3 0 0
              Hq Hwf)
    as (_ & _ & Hr & _ & Hl & _); [cbn; lia | cbn; lia |].
  rewrite Hr, Hl. split; reflexivity.
Defined.

(** ** ImageViewer events: proofs *)

Lemma last_cons {A} (p d : A) (l : list A) : List.last (p :: l) d = List.last l p.
Proof.
  revert p d. induction l as [|q l IH]; intros p d; [reflexivity|].
  change (List.last (p :: q :: l) d) with (List.last (q :: l) d).
  now rewrite !IH.
Qed.

Lemma mouseMoveEvent_dragging (p : Z * Z) (v : Viewer) :
  _dragging v = true ->
  mouseMoveEvent p v
  = Done tt {| geometry := geometry v; _dragging := true; _last_pos := p;
               viewer_zoom_delta := viewer_zoom_delta v;
               emitted := emitted v ++ [pan_requested (- (fst p - fst (_last_pos v)))
                                                     (- (snd p - snd (_last_pos v)))] |}.
Proof.
  intros Hd. unfold mouseMoveEvent, bind, get. rewrite Hd.
  unfold modify, emit, set_last_pos. cbn. now rewrite Hd.
Qed.

Lemma mouse_moves_dragging (ps : list (Z * Z)) (v : Viewer) :
  _dragging v = true ->
  exists pans,
    mouse_moves ps v
    = Done tt {| geometry := geometry v; _dragging := true;
                 _last_pos := List.last ps (_last_pos v);
                 viewer_zoom_delta := viewer_zoom_delta v;
                 emitted := emitted v ++ pans |} /\
    Forall is_pan_request pans /\ length pans = length ps /\
    pan_total pans = (fst (_last_pos v) - fst (List.last ps (_last_pos v)),
                      snd (_last_pos v) - snd (List.last ps (_last_pos v))).
Proof.
  revert v. induction ps as [|p ps IH]; intros v Hd.
  - exists []. cbn [mouse_moves List.last pan_total length].
    rewrite app_nil_r, <- Hd. split; [now destruct v|].
    repeat split; [constructor | f_equal; lia].
  - cbn [mouse_moves]. unfold bind at 1.
    rewrite (mouseMoveEvent_dragging p v Hd).
    match goal with |- context [mouse_moves ps ?st] => set (v1 := st) end.
    destruct (IH v1 eq_refl) as (pans & Hrun & Hall & Hlen & Hsum).
    exists (pan_requested (- (fst p - fst (_last_pos v)))
                          (- (snd p - snd (_last_pos v))) :: pans).
    rewrite Hrun. subst v1. cbn [geometry _last_pos viewer_zoom_delta emitted] in *.
    rewrite last_cons, <- app_assoc. cbn [app].
    split; [reflexivity|]. split; [constructor; [exact I | exact Hall]|].
    split; [cbn [length]; now rewrite Hlen|].
    cbn [pan_total]. rewrite Hsum. f_equal; lia.
Qed.

(** X19. A drag pans by the way the mouse went: between a left press at
    [p0] and the release, the moves emit one pan request each and nothing
    else, without raising, and the requests add up to the press position
    minus the last position, whatever the path. *)
Theorem drag_pans_add_up (v : Viewer) (p0 : Z * Z) (ps : list (Z * Z)) :
  let pressed := final_state (mousePressEvent LeftButton p0 v) in
  let stop := List.last ps p0 in
  exists pans v',
    mouse_moves ps pressed = Done tt v' /\
    emitted v' = emitted v ++ pans /\
    Forall is_pan_request pans /\
    length pans = length ps /\
    pan_total pans = (fst p0 - fst stop, snd p0 - snd stop) /\
    _last_pos v' = stop /\
    _dragging v' = true /\
    _dragging (final_state (mouseReleaseEvent LeftButton v')) = false.
Proof.
  cbv zeta.
  destruct (mouse_moves_dragging ps
              (final_state (mousePressEvent LeftButton p0 v)) eq_refl)
    as (pans & Hrun & Hall & Hlen & Hsum).
  eexists pans, _. split; [exact Hrun|].
  cbn in Hsum |- *. repeat split; assumption.
Qed.

Lemma py_int_inside (x : Q) (n : Z) :
  Qle_bool 0 x = true -> Qltb x (inject_Z n) = true -> 0 <= py_int x < n.
Proof.
  intros H0 Hn. apply Qle_bool_iff in H0. apply Qltb_lt in Hn.
  unfold py_int.
  replace (Qltb x 0) with false by (symmetry; now apply Qltb_ge).
  split.
  - rewrite <- (Qfloor_Z 0). apply Qfloor_resp_le. exact H0.
  - rewrite Zlt_Qlt. eapply Qle_lt_trans; [apply Qfloor_le | exact Hn].
Qed.

Lemma _emit_pixel_inside (g : ImageViewer) (pos : Z * Z) :
  0 < lbl_w g -> 0 < lbl_h g ->
  (forall w h, pixmap g = Some (w, h) -> 0 <= w /\ 0 <= h) ->
  _emit_pixel g pos = Ok None \/
  exists w h x y,
    pixmap g = Some (w, h) /\ _emit_pixel g pos = Ok (Some (x, y)) /\
    0 <= x < w /\ 0 <= y < h.
Proof.
  intros Hlw Hlh Hpm. unfold _emit_pixel.
  destruct (pixmap g) as [[w h]|] eqn:Eg; [|now left].
  destruct (Hpm w h eq_refl) as [Hw Hh].
  destruct ((w =? 0) || (h =? 0)) eqn:E0; [now left|].
  apply orb_false_iff in E0 as [Ew Eh].
  apply Z.eqb_neq in Ew, Eh.
  rewrite (truediv_pos _ (inject_Z w)) by (apply inject_Z_pos; lia).
  rewrite (truediv_pos _ (inject_Z h)) by (apply inject_Z_pos; lia).
  cbn [rbind].
  set (scale := py_min _ _).
  assert (Hs : (0 < scale)%Q).
  { apply py_min_pos; apply round_positive, Qdiv_pos; apply inject_Z_pos; lia. }
  rewrite !(truediv_pos _ scale Hs). cbn [rbind].
  match goal with
  | |- context [if Qle_bool 0 ?x && Qltb ?x _ && Qle_bool 0 ?y && Qltb ?y _
                then _ else _] =>
      destruct (Qle_bool 0 x && Qltb x (inject_Z w) &&
                Qle_bool 0 y && Qltb y (inject_Z h)) eqn:Ein;
      [right; exists w, h, (py_int x), (py_int y) | now left]
  end.
  rewrite !andb_true_iff in Ein. destruct Ein as [[[Hx0 Hxw] Hy0] Hyh].
  split; [reflexivity|]. split; [reflexivity|].
  split; now apply py_int_inside.
Qed.

(** X20. Hovering cannot fail and reports only pixels of the raster: a move
    without a drag returns, leaves the viewer's attributes as they were, and
    emits nothing or one [pixel_hovered] whose coordinates lie inside the
    shown pixmap, the latter only for a position inside the label. *)
Theorem hover_reports_pixels_inside (v : Viewer) (pos : Z * Z) :
  _dragging v = false ->
  (forall w h, pixmap (geometry v) = Some (w, h) -> 0 <= w /\ 0 <= h) ->
  exists v',
    mouseMoveEvent pos v = Done tt v' /\
    geometry v' = geometry v /\ _dragging v' = false /\
    _last_pos v' = _last_pos v /\
    (emitted v' = emitted v \/
     exists w h x y,
       pixmap (geometry v) = Some (w, h) /\
       emitted v' = emitted v ++ [pixel_hovered x y] /\
       0 <= x < w /\ 0 <= y < h /\
       0 <= fst pos < lbl_w (geometry v) /\ 0 <= snd pos < lbl_h (geometry v)).
Proof.
  intros Hd Hpm. unfold mouseMoveEvent, bind at 1, get. rewrite Hd.
  destruct ((0 <=? fst pos) && (fst pos <? lbl_w (geometry v)) &&
            (0 <=? snd pos) && (snd pos <? lbl_h (geometry v))) eqn:Ein.
  2: { exists v. cbn. repeat split; auto. }
  rewrite !andb_true_iff in Ein. destruct Ein as [[[Hx0 Hx1] Hy0] Hy1].
  apply Z.leb_le in Hx0, Hy0. apply Z.ltb_lt in Hx1, Hy1.
  destruct (_emit_pixel_inside (geometry v) pos ltac:(lia) ltac:(lia) Hpm)
    as [Hnone | (w & h & x & y & Hg & Hsome & Hx & Hy)].
  - rewrite Hnone. exists v. cbn. repeat split; auto.
  - rewrite Hsome. cbn. eexists. split; [reflexivity|].
    cbn. repeat split; auto.
    right. exists w, h, x, y. repeat split; auto; lia.
Qed.

Lemma hover_reports_pixels_inside_example :
  _dragging sample_viewer = false /\
  exists v', mouseMoveEvent (200, 150) sample_viewer = Done tt v' /\
             geometry v' = geometry sample_viewer.
Proof.
  split; [reflexivity|].
  destruct (hover_reports_pixels_inside sample_viewer (200, 150) eq_refl)
    as (v' & Hrun & Hg & _).
  - intros w h [= <- <-]. lia.
  - exists v'. split; assumption.
Defined.

(** ** The wheel: proofs *)

Lemma np_clipq_range (x lo hi : Q) :
  (lo <= hi)%Q -> (lo <= np_clipq x lo hi <= hi)%Q.
Proof.
  intros Hle. unfold np_clipq.
  destruct (Qltb x lo) eqn:E1.
  - replace (Qltb hi lo) with false by (symmetry; now apply Qltb_ge).
    split; [apply Qle_refl | exact Hle].
  - apply Qltb_ge in E1.
    destruct (Qltb hi x) eqn:E2.
    + split; [exact Hle | apply Qle_refl].
    + apply Qltb_ge in E2. split; assumption.
Qed.

Lemma zoom_delta_range (s : App) :
  (literal (1 # 10) <= zoom_delta s <= literal (4 # 10))%Q.
Proof.
  unfold zoom_delta. apply np_clipq_range.
  apply Qle_bool_iff. vm_compute. reflexivity.
Qed.

(** Adding to a float64 value: the rounded sum is on the side of the value
    the addend points to, and not short of a float64 the exact sum reaches. *)
Lemma fadd_up (z d : Q) :
  (F64.round z == z)%Q -> (0 <= d)%Q -> (z <= fadd z d)%Q.
Proof.
  intros Hz Hd. rewrite <- Hz at 1. apply round_mono. lra.
Qed.

Lemma fadd_down (z d : Q) :
  (F64.round z == z)%Q -> (d <= 0)%Q -> (fadd z d <= z)%Q.
Proof.
  intros Hz Hd. rewrite <- Hz at 2. apply round_mono. lra.
Qed.

Lemma fadd_reaches (z d a : Q) :
  (F64.round a == a)%Q -> (a <= z + d)%Q -> (a <= fadd z d)%Q.
Proof.
  intros Ha H. rewrite <- Ha. now apply round_mono.
Qed.

Lemma wheelEvent_emits (delta : Z) (v : Viewer) :
  wheelEvent delta v
  = Done tt
      (if 0 <? delta
       then final_state (emit (zoom_requested (viewer_zoom_delta v)) v)
       else if delta <? 0
            then final_state (emit (zoom_requested (- viewer_zoom_delta v)) v)
            else v).
Proof.
  unfold wheelEvent, bind, get.
  destruct (0 <? delta); [reflexivity|]. destruct (delta <? 0); reflexivity.
Qed.

Section WheelFacts.

Variable cv2_resize : ndarray -> Z -> Z -> interpolation -> result ndarray.

(** X21. The wheel sets the direction only, the application the step. With
    a float64 zoom stored, a notch up emits one zoom request after which
    the zoom is not below what it was and at most 8 (exactly 8 if it was
    above 8, as fit-to-screen can leave it); a notch down one after which it
    is not above what it was and at least the float64 0.1 (exactly that if
    it was below); no notch, no request. *)
Theorem wheel_zoom_direction (v : Viewer) (delta : Z) (s : App) :
  (0 < viewer_zoom_delta v)%Q ->
  (F64.round (zoom s) == zoom s)%Q ->
  exists v',
    wheelEvent delta v = Done tt v' /\
    (delta = 0 -> v' = v) /\
    (0 < delta ->
     exists d, emitted v' = emitted v ++ [zoom_requested d] /\
       let z' := zoom (final_state (on_zoom_requested cv2_resize d s)) in
       (z' <= 8)%Q /\
       ((zoom s <= 8)%Q -> (zoom s <= z')%Q) /\
       ((8 < zoom s)%Q -> (z' == 8)%Q)) /\
    (delta < 0 ->
     exists d, emitted v' = emitted v ++ [zoom_requested d] /\
       let z' := zoom (final_state (on_zoom_requested cv2_resize d s)) in
       (literal (1 # 10) <= z')%Q /\
       ((literal (1 # 10) <= zoom s)%Q -> (z' <= zoom s)%Q) /\
       ((zoom s < literal (1 # 10))%Q -> (z' == literal (1 # 10))%Q)).
Proof.
  intros Hd Hz. eexists. split; [apply wheelEvent_emits|].
  pose proof (zoom_delta_range s) as [Hlo Hhi].
  destruct literal_tenth as (_ & Htenth & Hlt8).
  set (c := literal (1 # 10)) in *.
  split; [intros ->; reflexivity|]. split.
  - intros Hpos.
    replace (0 <? delta) with true by (symmetry; now apply Z.ltb_lt).
    eexists. split; [reflexivity|]. cbv zeta.
    rewrite on_zoom_requested_zoom. fold c.
    replace (Qltb 0 (viewer_zoom_delta v)) with true
      by (symmetry; now apply Qltb_lt).
    pose proof (fadd_up (zoom s) (zoom_delta s) Hz ltac:(lra)) as Hup.
    assert (H8 : (8 < zoom s)%Q -> (8 <= fadd (zoom s) (zoom_delta s))%Q).
    { intros H. apply fadd_reaches; [reflexivity | lra]. }
    set (r := fadd (zoom s) (zoom_delta s)) in *.
    unfold py_max, py_min.
    destruct (Qltb r 8) eqn:E1;
      [apply Qltb_lt in E1 | apply Qltb_ge in E1];
      match goal with |- context [Qltb c ?x] =>
        destruct (Qltb c x) eqn:E2;
        [apply Qltb_lt in E2 | apply Qltb_ge in E2]
      end;
      repeat split; intros; try lra;
      try (specialize (H8 ltac:(assumption)); lra).
  - intros Hneg.
    replace (0 <? delta) with false by (symmetry; apply Z.ltb_ge; lia).
    replace (delta <? 0) with true by (symmetry; now apply Z.ltb_lt).
    eexists. split; [reflexivity|]. cbv zeta.
    rewrite on_zoom_requested_zoom. fold c.
    replace (Qltb 0 (- viewer_zoom_delta v)) with false
      by (symmetry; apply Qltb_ge; lra).
    pose proof (fadd_down (zoom s) (- zoom_delta s) Hz ltac:(lra)) as Hdown.
    set (r := fadd (zoom s) (- zoom_delta s)) in *.
    unfold py_max, py_min.
    destruct (Qltb r 8) eqn:E1;
      [apply Qltb_lt in E1 | apply Qltb_ge in E1];
      match goal with |- context [Qltb c ?x] =>
        destruct (Qltb c x) eqn:E2;
        [apply Qltb_lt in E2 | apply Qltb_ge in E2]
      end;
      repeat split; intros; lra.
Qed.

End WheelFacts.

Lemma wheel_zoom_direction_example :
  (0 < viewer_zoom_delta sample_viewer)%Q /\
  (F64.round (zoom small_frames_app) == zoom small_frames_app)%Q /\
  exists v', wheelEvent 120 sample_viewer = Done tt v' /\
             emitted v' = [zoom_requested (literal (1 # 10))].
Proof.
  assert (Hd : (0 < viewer_zoom_delta sample_viewer)%Q) by reflexivity.
  assert (Hz : (F64.round (zoom small_frames_app) == zoom small_frames_app)%Q)
    by reflexivity.
  split; [exact Hd|]. split; [exact Hz|].
  destruct (wheel_zoom_direction sample_resize sample_viewer 120 small_frames_app
              Hd Hz)
    as (v' & Hrun & _).
  exists v'. split; [exact Hrun|].
  rewrite wheelEvent_emits in Hrun. injection Hrun as <-. reflexivity.
Defined.

(** Two notches down from the zoom 1.0 store the float64 0.9 and then the
    float64 0.8, which lies above 4/5: a label 400 wide then takes a crop
    of 498 columns, not 500. *)
Lemma two_notches_down :
  let down := on_zoom_requested sample_resize (- literal (1 # 10)) in
  let s1 := final_state (down small_frames_app) in
  let s2 := final_state (down s1) in
  zoom s1 = literal (9 # 10) /\
  zoom s2 = literal (8 # 10) /\
  (4 # 5 < zoom s2)%Q /\
  crop_extent 400 (zoom s2) = Ok 498.
Proof.
  cbv zeta.
  assert (H1 : zoom (final_state
                 (on_zoom_requested sample_resize (- literal (1 # 10))
                    small_frames_app)) = literal (9 # 10)).
  { rewrite on_zoom_requested_zoom. vm_compute. reflexivity. }
  assert (H2 : zoom (final_state
                 (on_zoom_requested sample_resize (- literal (1 # 10))
                    (final_state
                       (on_zoom_requested sample_resize (- literal (1 # 10))
                          small_frames_app)))) = literal (8 # 10)).
  { rewrite on_zoom_requested_zoom. unfold zoom_delta. rewrite H1.
    vm_compute. reflexivity. }
  rewrite H1, H2. repeat split.
Qed.

(** Fit-to-screen on a 1920x1080 reference in a 400x300 label stores the
    float64 of 400 / 1920, which lies above 5/24: the crop that follows is
    1918 by 1438, not the whole frame. *)
Lemma fit_to_screen_rounds_the_ratio :
  let z := zoom (final_state (fit_to_screen sample_resize hd_reference_app)) in
  z = literal (5 # 24) /\
  (z == 7505999378950827 # 36028797018963968)%Q /\
  (5 # 24 < z)%Q /\
  crop_extent 400 z = Ok 1918 /\
  crop_extent 300 z = Ok 1438.
Proof.
  cbv zeta. rewrite fit_to_screen_zoom. vm_compute. repeat split.
Qed.
